(** * Security cost calculator: the form manager of [static/script.js]

    The script keeps no data of its own apart from two counters and the list
    of equipment items: the form lives in the page.  The development
    therefore models the page as a forest of elements, the script's functions
    as functions on that forest, and the browser built-ins the script calls
    ([getElementById], [querySelectorAll], [remove], [appendChild],
    [parseInt], [parseFloat], [split]) as functions of their own.

    Conventions.
    - A string is a sequence of bytes (UTF-8); only ASCII white space is
      trimmed by the numeric parsers.
    - A JavaScript number read by [parseInt] or [parseFloat] is kept as the
      exact decimal that was read; the rounding to an IEEE double is not
      modelled.
    - Attributes that the script never reads back ([min], [max],
      [placeholder], [onclick], [dataset]) are left out of the elements.

    The definitions come first: the numeric parsers, the page and its
    built-ins, the functions of the calculator tab, then the form that a
    page displays ([Form], [render]) with the visitor's actions on it, the
    functions of the tabs and of the equipment register, and the pricing
    calculator of the server as the specification describes it.
    The properties follow.  The ones that hold of any page are proved on the
    forest directly; the ones that need the page to be in the shape the
    script gives it are proved for the pages a visitor can reach as long as
    the server sends no markup ([reachable]), through the invariant that
    such a page is the rendering of a well-formed form
    ([reachable_represented]).  The script writes the names of the items
    and the strings of a result into [innerHTML]; what markup in them does
    to the page is part of the model ([tmc_checkbox], [tmc_item],
    [displayMarked]), and no invariant is claimed of the pages that it
    gives. *)

From stdpp Require Import base strings list gmap pretty sorting.
From Stdlib Require Import Ascii QArith.

#[local] Open Scope string_scope.
#[local] Open Scope list_scope.
#[local] Open Scope Z_scope.

(** ** Numbers *)

Module Number.

(** The value of [Dec neg m e] is [(-1)^neg * m * 10^e]; negative zero is
    [Dec true 0 e]. *)
Inductive number : Type :=
  | NaN
  | Infinity (neg : bool)
  | Dec (neg : bool) (m : N) (e : Z).

#[global] Instance number_eq_dec : EqDecision number.
Proof. solve_decision. Defined.

Definition of_nat (n : nat) : number := Dec false (N.of_nat n) 0.

(** ToBoolean on a number: false for NaN and for both zeros. *)
Definition truthy (x : number) : bool :=
  match x with
  | NaN => false
  | Infinity _ => true
  | Dec _ m _ => negb (m =? 0)%N
  end.

(** [a || b] on numbers. *)
Definition or_else (a b : number) : number := if truthy a then a else b.

(** Strictly below zero, as a mathematical value. *)
Definition negative (x : number) : bool :=
  match x with
  | NaN => false
  | Infinity neg => neg
  | Dec neg m _ => neg && negb (m =? 0)%N
  end.

Definition positive (x : number) : bool :=
  match x with
  | NaN => false
  | Infinity neg => negb neg
  | Dec neg m _ => negb neg && negb (m =? 0)%N
  end.

Definition is_nan (x : number) : bool :=
  match x with NaN => true | _ => false end.

Definition is_white (c : ascii) : bool :=
  let n := N_of_ascii c in
  ((9 <=? n) && (n <=? 13) || (n =? 32))%N.

Fixpoint trim_start (s : string) : string :=
  match s with
  | String c r => if is_white c then trim_start r else s
  | EmptyString => s
  end.

Definition digit (c : ascii) : option N :=
  let n := N_of_ascii c in
  if ((48 <=? n) && (n <=? 57))%N then Some (n - 48)%N else None.

Definition hex_digit (c : ascii) : option N :=
  let n := N_of_ascii c in
  if ((48 <=? n) && (n <=? 57))%N then Some (n - 48)%N
  else if ((97 <=? n) && (n <=? 102))%N then Some (n - 87)%N
  else if ((65 <=? n) && (n <=? 70))%N then Some (n - 55)%N
  else None.

(** Reads the longest prefix of digits of [s] in the given radix onto the
    accumulator: the value, the number of digits read and the rest. *)
Fixpoint read_digits (dig : ascii → option N) (radix : N) (s : string)
    (acc : N) (len : nat) : N * nat * string :=
  match s with
  | String c r =>
      match dig c with
      | Some d => read_digits dig radix r (acc * radix + d)%N (S len)
      | None => (acc, len, s)
      end
  | EmptyString => (acc, len, s)
  end.

(** An optional sign: whether it is a minus, and the rest. *)
Definition read_sign (s : string) : bool * string :=
  match s with
  | String "-"%char r => (true, r)
  | String "+"%char r => (false, r)
  | _ => (false, s)
  end.

(** [parseInt(s)] with no radix argument. *)
Definition parseInt (s : string) : number :=
  let '(neg, s1) := read_sign (trim_start s) in
  let '(dig, radix, s2) :=
    match s1 with
    | String "0"%char (String "x"%char r) => (hex_digit, 16%N, r)
    | String "0"%char (String "X"%char r) => (hex_digit, 16%N, r)
    | _ => (digit, 10%N, s1)
    end in
  match read_digits dig radix s2 0%N 0%nat with
  | (_, O, _) => NaN
  | (m, _, _) => Dec neg m 0
  end.

(** The exponent part after the mantissa: [e], an optional sign and at least
    one digit; otherwise there is no exponent part. *)
Definition read_exponent (s : string) : Z :=
  match s with
  | String c r =>
      if bool_decide (c = "e"%char ∨ c = "E"%char) then
        let '(neg, r1) := read_sign r in
        match read_digits digit 10%N r1 0%N 0%nat with
        | (_, O, _) => 0
        | (x, _, _) => if neg then - Z.of_N x else Z.of_N x
        end
      else 0
  | EmptyString => 0
  end.

(** [parseFloat(s)]: the longest prefix that is a decimal literal. *)
Definition parseFloat (s : string) : number :=
  let '(neg, s1) := read_sign (trim_start s) in
  if String.prefix "Infinity" s1 then Infinity neg else
  let '(ip, ilen, s2) := read_digits digit 10%N s1 0%N 0%nat in
  let '(m, flen, s3) :=
    match s2 with
    | String "."%char r => read_digits digit 10%N r ip 0%nat
    | _ => (ip, 0%nat, s2)
    end in
  match ilen, flen with
  | O, O => NaN
  | _, _ => Dec neg m (read_exponent s3 - Z.of_nat flen)
  end.

End Number.
Export Number.

(** ** The page *)

(** What [POST /api/calculate] answers, as far as [displayResult] reads it. *)
Record StaffDetail : Type := {
  sd_position : string;
  sd_count : number;
  sd_net_salary : number;
  sd_total_cost_group : number }.

Record PostResult : Type := {
  pr_post_number : number;
  pr_schedule : string;
  pr_monthly_hours : number;
  pr_staff_details : list StaffDetail;
  pr_total_labor_cost : number }.

Record TmcResult : Type := {
  tr_name : string;
  tr_quantity : number;
  tr_monthly_cost : number }.

Record Summary : Type := {
  total_labor_cost : number;
  total_tmc_cost : number;
  subtotal : number;
  summary_markup_percent : number;
  markup_amount : number;
  final_price : number;
  hourly_rate : number;
  total_posts : number;
  total_monthly_hours : number }.

Record CalculationResult : Type := {
  result_posts : list PostResult;
  result_tmc : list TmcResult;
  result_summary : Summary }.

(** An element.  [textContent] is the element's own text, [value] and
    [checked] are the state of an input, and [report] is the result that
    [displayResult] has written into the element as markup (the markup itself
    is formatting of that result in the visitor's locale). *)
#[local] Unset Elimination Schemes.
Inductive node : Type :=
  Node {
    tagName : string;
    elemId : string;
    classList : list string;
    textContent : string;
    value : string;
    checked : bool;
    report : option CalculationResult;
    children : list node }.
#[local] Set Elimination Schemes.

Definition element (tag ident : string) (cls : list string) (text : string)
    (kids : list node) : node :=
  Node tag ident cls text "" false None kids.

Definition input (ident v : string) : node :=
  Node "input" ident [] "" v false None [].

Definition set_children (kids : list node) (n : node) : node :=
  Node (tagName n) (elemId n) (classList n) (textContent n) (value n)
       (checked n) (report n) kids.

Definition set_textContent (text : string) (n : node) : node :=
  Node (tagName n) (elemId n) (classList n) text (value n) (checked n)
       None [].

Definition set_value (v : string) (n : node) : node :=
  Node (tagName n) (elemId n) (classList n) (textContent n) v (checked n)
       (report n) (children n).

Definition set_checked (b : bool) (n : node) : node :=
  Node (tagName n) (elemId n) (classList n) (textContent n) (value n) b
       (report n) (children n).

Definition has_id (s : string) (n : node) : bool :=
  bool_decide (s ≠ "" ∧ elemId n = s).

Definition has_class (c : string) (n : node) : bool :=
  bool_decide (c ∈ classList n).

(** The element and its descendants, in document order. *)
Fixpoint flatten (n : node) : list node :=
  match n with
  | Node _ _ _ _ _ _ _ kids => n :: (kids ≫= flatten)
  end.

Definition elements (doc : list node) : list node := doc ≫= flatten.

Definition descendants (n : node) : list node := elements (children n).

(** [document.getElementById(s)] *)
Definition getElementById (s : string) (doc : list node) : option node :=
  head (filter (λ n, has_id s n = true) (elements doc)).

(** [document.querySelectorAll('.c')] *)
Definition querySelectorAll (c : string) (doc : list node) : list node :=
  filter (λ n, has_class c n = true) (elements doc).

(** [el.querySelectorAll('.c')] and [el.querySelector('.c')] *)
Definition querySelectorAll_in (c : string) (el : node) : list node :=
  querySelectorAll c (children el).

Definition querySelector_in (c : string) (el : node) : option node :=
  head (querySelectorAll_in c el).

(** A walk through the forest looking for the [k]-th element, in document
    order, that satisfies a test: the forest with that element replaced, or
    how many matching elements are still to be skipped. *)
Inductive walk : Type :=
  | Found (doc : list node)
  | Missing (k : nat).

Fixpoint modify_node (P : node → bool) (f : node → list node) (k : nat)
    (n : node) {struct n} : walk :=
  match (if P n then match k with O => None | S j => Some j end else Some k)
  with
  | None => Found (f n)
  | Some j =>
      match n with
      | Node _ _ _ _ _ _ _ kids =>
          match
            (fix go (l : list node) (j : nat) {struct l} : walk :=
               match l with
               | [] => Missing j
               | m :: l' =>
                   match modify_node P f j m with
                   | Found ms => Found (ms ++ l')
                   | Missing j' =>
                       match go l' j' with
                       | Found l'' => Found (m :: l'')
                       | Missing j'' => Missing j''
                       end
                   end
               end) kids j
          with
          | Found kids' => Found [set_children kids' n]
          | Missing j' => Missing j'
          end
      end
  end.

Fixpoint modify (P : node → bool) (f : node → list node) (k : nat)
    (doc : list node) : walk :=
  match doc with
  | [] => Missing k
  | m :: l' =>
      match modify_node P f k m with
      | Found ms => Found (ms ++ l')
      | Missing k' =>
          match modify P f k' l' with
          | Found l'' => Found (m :: l'')
          | Missing k'' => Missing k''
          end
      end
  end.

Definition found (w : walk) : option (list node) :=
  match w with Found d => Some d | Missing _ => None end.

(** [el.remove()] for the element that [getElementById(s)] returns. *)
Definition remove_by_id (s : string) (doc : list node) : option (list node) :=
  found (modify (has_id s) (λ _, []) 0 doc).

(** [el.appendChild(c)] for the element that [getElementById(s)] returns. *)
Definition appendChild_by_id (s : string) (c : node) (doc : list node)
    : option (list node) :=
  found (modify (has_id s) (λ n, [set_children (children n ++ [c]) n]) 0 doc).

(** The visitor types [v] into the input whose id is [s], or ticks it. *)
Definition type_value (s v : string) (doc : list node) : list node :=
  default doc (found (modify (has_id s) (λ n, [set_value v n]) 0 doc)).

Definition tick (s : string) (b : bool) (doc : list node) : list node :=
  default doc (found (modify (has_id s) (λ n, [set_checked b n]) 0 doc)).

(** ** The script *)

(** [s.split('-')] *)
Fixpoint split_dash_go (cur : string) (s : string) : list string :=
  match s with
  | EmptyString => [String.rev cur]
  | String c r =>
      if bool_decide (c = "-"%char) then String.rev cur :: split_dash_go "" r
      else split_dash_go (String c cur) r
  end.

Definition split_dash (s : string) : list string := split_dash_go "" s.

(** A counter or an item id inside a template literal: its decimal digits. *)
Definition decimal (n : nat) : string := pretty n.

(** A value inside a template literal: an absent one reads [undefined]. *)
Definition template (o : option string) : string := default "undefined" o.

(** An equipment item as the page receives it.  The script writes the name
    of an item into [innerHTML] in two places, in the selection of the
    calculator and in the list of the register, so that a name with markup in
    it becomes elements of the page.  [tmc_selection_row] and
    [tmc_register_row] are what the browser makes of the two templates
    filled in with the item: [None] when the name carries no markup, so that
    the elements are those of the template with the name as text, and
    otherwise the elements that the parser builds. *)
Record TmcItem : Type := {
  tmc_id : nat;
  tmc_name : string;
  tmc_selection_row : option (list node);
  tmc_register_row : option (list node) }.

(** The globals [postCounter], [staffCounter], [tmcItems] and the page. *)
Record state : Type := {
  postCounter : nat;
  staffCounter : gmap nat nat;
  tmcItems : list TmcItem;
  document : list node }.

Definition with_document (doc : list node) (st : state) : state :=
  {| postCounter := postCounter st; staffCounter := staffCounter st;
     tmcItems := tmcItems st; document := doc |}.

Inductive exn : Type :=
  | TypeError
  | Error (message : string)
  | FetchFailed
  | SyntaxError.

(** How a handler ends: normally, or by an exception that leaves the state as
    it was when it was thrown. *)
Inductive outcome : Type :=
  | Done (st : state)
  | Throw (e : exn) (st : state).

Definition state_of (o : outcome) : state :=
  match o with Done st => st | Throw _ st => st end.

Definition post_title (n : nat) : string := "Пост №" +:+ decimal n.

(** The card that [addPost] builds for the counter value [n], with the given
    title, the two inputs holding the given values, and the given staff
    groups. *)
Definition post_card_with (n : nat) (title hours days : string)
    (groups : list node) : node :=
  element "div" ("post-" +:+ decimal n) ["post-card"] "" [
    element "div" "" ["post-header"] "" [
      element "h3" "" ["post-title"] title [];
      element "button" "" ["btn"; "btn-danger"] "🗑️ Удалить" [] ];
    element "div" "" ["form-grid"] "" [
      element "div" "" ["form-group"] "" [
        element "label" "" [] "Часов в день:" [];
        input ("hours-" +:+ decimal n) hours ];
      element "div" "" ["form-group"] "" [
        element "label" "" [] "Дней в неделю:" [];
        input ("days-" +:+ decimal n) days ] ];
    element "h4" "" [] "Персонал:" [];
    element "div" ("staff-" +:+ decimal n) [] "" groups;
    element "button" "" ["btn"; "btn-secondary"]
      "➕ Добавить группу персонала" [] ].

Definition post_card (n : nat) : node :=
  post_card_with n (post_title n) "12" "7" [].

(** The group that [addStaff] builds for the id [staffId], with the three
    inputs holding the given values. *)
Definition staff_group_with (staffId pos cnt sal : string) : node :=
  element "div" staffId ["staff-group"] "" [
    element "div" "" ["form-grid"] "" [
      element "div" "" ["form-group"] "" [
        element "label" "" [] "Должность:" [];
        input (staffId +:+ "-position") pos ];
      element "div" "" ["form-group"] "" [
        element "label" "" [] "Количество:" [];
        input (staffId +:+ "-count") cnt ];
      element "div" "" ["form-group"] "" [
        element "label" "" [] "ЗП на руки (₸):" [];
        input (staffId +:+ "-salary") sal ];
      element "div" "" ["form-group"] "" [
        element "button" "" ["btn"; "btn-danger"] "🗑️" [] ] ] ].

Definition staff_group (staffId : string) : node :=
  staff_group_with staffId "" "1" "".

Definition staff_id (postId k : nat) : string :=
  "staff-" +:+ decimal postId +:+ "-" +:+ decimal k.

(** [addStaff(postId)] *)
Definition addStaff (postId : nat) (st : state) : outcome :=
  let k := S (default 0%nat (staffCounter st !! postId)) in
  let st1 :=
    {| postCounter := postCounter st;
       staffCounter := <[postId := k]> (staffCounter st);
       tmcItems := tmcItems st; document := document st |} in
  match appendChild_by_id ("staff-" +:+ decimal postId)
          (staff_group (staff_id postId k)) (document st1) with
  | Some doc => Done (with_document doc st1)
  | None => Throw TypeError st1
  end.

(** [addPost()] *)
Definition addPost (st : state) : outcome :=
  let n := S (postCounter st) in
  let st1 :=
    {| postCounter := n; staffCounter := staffCounter st;
       tmcItems := tmcItems st; document := document st |} in
  match appendChild_by_id "posts-container" (post_card n) (document st1) with
  | Some doc => addStaff n (with_document doc st1)
  | None => Throw TypeError st1
  end.

(** The body of the [forEach] of [renumberPosts] for one index.  The script
    holds the cards in the list that [querySelectorAll] returned; here the
    card is found again by its position, which writing a title does not
    change unless a card lies inside a title (the script builds no such
    page). *)
Definition renumber_one (doc : list node) (index : nat) : list node :=
  let newNumber := (index + 1)%nat in
  let retitle (postEl : node) : list node :=
    match modify (has_class "post-title")
            (λ t, [set_textContent (post_title newNumber) t]) 0
            (children postEl) with
    | Found kids => [set_children kids postEl]
    | Missing _ => [postEl]
    end in
  default doc (found (modify (has_class "post-card") retitle index doc)).

(** [renumberPosts()] *)
Definition renumberPosts (doc : list node) : list node :=
  foldl renumber_one doc (seq 0 (length (querySelectorAll "post-card" doc))).

(** [removePost(postId)] *)
Definition removePost (postId : nat) (st : state) : state :=
  let ident := "post-" +:+ decimal postId in
  match getElementById ident (document st) with
  | Some post =>
      let doc := default (document st) (remove_by_id ident (document st)) in
      with_document (renumberPosts doc) st
  | None => st
  end.

(** [removeStaff(staffId)] *)
Definition removeStaff (staffId : string) (st : state) : state :=
  match getElementById staffId (document st) with
  | Some staff =>
      with_document
        (default (document st) (remove_by_id staffId (document st))) st
  | None => st
  end.

(** The titles of the post cards as the page shows them, in display order. *)
Definition displayed_titles (doc : list node) : list string :=
  textContent <$> querySelectorAll "post-title" doc.

(** *** Serialization and submission *)

Record Staff : Type := {
  position : string;
  count : number;
  net_salary : number }.

Record Post : Type := {
  post_number : nat;
  hours_per_day : number;
  days_per_week : number;
  staff : list Staff }.

Record Selection : Type := {
  item_id : nat;
  quantity : number }.

Record CalculationRequest : Type := {
  posts : list Post;
  tmc_items : list Selection;
  markup_percent : number }.

(** A computation that may throw. *)
Inductive result (A : Type) : Type :=
  | Ok (a : A)
  | Raise (e : exn).
Arguments Ok {A} a.
Arguments Raise {A} e.

#[global] Instance result_ret : MRet result := λ A a, Ok a.
#[global] Instance result_bind : MBind result := λ A B f m,
  match m with Ok a => f a | Raise e => Raise e end.
#[global] Instance result_fmap : FMap result := λ A B f m,
  match m with Ok a => Ok (f a) | Raise e => Raise e end.

(** [document.getElementById(s).value]: a [TypeError] when there is no such
    element. *)
Definition value_of (s : string) (doc : list node) : result string :=
  match getElementById s doc with
  | Some el => Ok (value el)
  | None => Raise TypeError
  end.

Definition truthy_string (s : string) : bool :=
  match s with EmptyString => false | _ => true end.

(** The test [position && count && salary]. *)
Definition staff_accepted (s : Staff) : bool :=
  truthy_string (position s) && truthy (count s) && truthy (net_salary s).

(** What the inner [forEach] reads from one staff group. *)
Definition read_staff (doc : list node) (staffEl : node) : result Staff :=
  let staffId := elemId staffEl in
  pos ← value_of (staffId +:+ "-position") doc;
  cnt ← parseInt <$> value_of (staffId +:+ "-count") doc;
  salary ← parseFloat <$> value_of (staffId +:+ "-salary") doc;
  mret {| position := pos; count := cnt; net_salary := salary |}.

(** The inner [forEach]: the array [staff] after the groups were visited. *)
Fixpoint collect_staff (doc : list node) (staffElements : list node)
    : result (list Staff) :=
  match staffElements with
  | [] => mret []
  | staffEl :: rest =>
      s ← read_staff doc staffEl;
      l ← collect_staff doc rest;
      mret (if staff_accepted s then s :: l else l)
  end.

(** What the outer [forEach] reads from one card at position [index]. *)
Definition read_post (doc : list node) (index : nat) (postEl : node)
    : result Post :=
  let postId := template (split_dash (elemId postEl) !! 1%nat) in
  hours ← parseInt <$> value_of ("hours-" +:+ postId) doc;
  days ← parseInt <$> value_of ("days-" +:+ postId) doc;
  l ← collect_staff doc (querySelectorAll_in "staff-group" postEl);
  mret {| post_number := (index + 1)%nat; hours_per_day := hours;
          days_per_week := days; staff := l |}.

(** The outer [forEach], from position [index] on: the array [posts]. *)
Fixpoint collect_posts_from (doc : list node) (index : nat)
    (postElements : list node) : result (list Post) :=
  match postElements with
  | [] => mret []
  | postEl :: rest =>
      p ← read_post doc index postEl;
      l ← collect_posts_from doc (S index) rest;
      mret (if bool_decide (staff p ≠ []) then p :: l else l)
  end.

Definition collect_posts (doc : list node) : result (list Post) :=
  collect_posts_from doc 0 (querySelectorAll "post-card" doc).

(** The loop over [tmcItems]. *)
Fixpoint collect_tmc (doc : list node) (items : list TmcItem)
    : result (list Selection) :=
  match items with
  | [] => mret []
  | item :: rest =>
      match getElementById ("tmc-check-" +:+ decimal (tmc_id item)) doc with
      | Some checkbox =>
          if checked checkbox then
            q ← parseInt <$> value_of ("tmc-qty-" +:+ decimal (tmc_id item)) doc;
            l ← collect_tmc doc rest;
            mret ({| item_id := tmc_id item;
                     quantity := or_else q (of_nat 1) |} :: l)
          else collect_tmc doc rest
      | None => collect_tmc doc rest
      end
  end.

Definition read_markup (doc : list node) : result number :=
  m ← parseFloat <$> value_of "markup" doc;
  mret (or_else m (of_nat 20)).

(** What [calculate] has when it reaches [fetch]: nothing to send because
    the form has no post with staff, or the request. *)
Inductive serialized : Type :=
  | NoPosts
  | Request (r : CalculationRequest).

Definition serialize (st : state) : result serialized :=
  ps ← collect_posts (document st);
  if bool_decide (length ps = 0%nat) then mret NoPosts else
  sel ← collect_tmc (document st) (tmcItems st);
  m ← read_markup (document st);
  mret (Request {| posts := ps; tmc_items := sel; markup_percent := m |}).

(** What the network does with a request, as the page receives it: no
    reply; a reply with its status and with a body that is not JSON
    ([None]) or is a result whose strings carry no markup; a reply with a
    status 2xx and a body that is JSON but that [displayResult] cannot read,
    so that it throws before it writes; a reply with a status 2xx and a
    result whose strings carry markup, with the elements that the browser
    makes of them when the script writes them into [innerHTML]. *)
Inductive response : Type :=
  | NetworkFailure
  | Response (ok : bool) (body : option CalculationResult)
  | Unreadable
  | Marked (r : CalculationResult) (kids : list node).

Inductive event : Type :=
  | Alert (message : string)
  | AlertFailure (e : exn)
  | ConsoleError (e : exn)
  | Fetch (url : string) (body : CalculationRequest).

(** [displayResult(result)] for a result that it can read and whose strings
    carry no markup: the element is no longer hidden and holds the result,
    formatted by the template (its elements, which have no id and none of the
    classes that the script looks for, are left out). *)
Definition displayResult (r : CalculationResult) (doc : list node)
    : result (list node) :=
  let show (resultDiv : node) : list node :=
    [Node (tagName resultDiv) (elemId resultDiv)
          (filter (λ c, c ≠ "hidden") (classList resultDiv))
          "" (value resultDiv) (checked resultDiv) (Some r) []] in
  match found (modify (has_id "result") show 0 doc) with
  | Some doc' => Ok doc'
  | None => Raise TypeError
  end.

(** [displayResult(result)] for a result whose strings carry markup: beside
    the result, the element holds the elements that the markup gives. *)
Definition displayMarked (r : CalculationResult) (kids : list node)
    (doc : list node) : result (list node) :=
  let show (resultDiv : node) : list node :=
    [Node (tagName resultDiv) (elemId resultDiv)
          (filter (λ c, c ≠ "hidden") (classList resultDiv))
          "" (value resultDiv) (checked resultDiv) (Some r) kids] in
  match found (modify (has_id "result") show 0 doc) with
  | Some doc' => Ok doc'
  | None => Raise TypeError
  end.

(** [displayResult(result)] for a body that it cannot read, up to where it
    throws: the element has lost the class [hidden] and nothing is written
    into it. *)
Definition displayUnreadable (doc : list node) : result (list node) :=
  let reveal (resultDiv : node) : list node :=
    [Node (tagName resultDiv) (elemId resultDiv)
          (filter (λ c, c ≠ "hidden") (classList resultDiv))
          (textContent resultDiv) (value resultDiv) (checked resultDiv)
          (report resultDiv) (children resultDiv)] in
  match found (modify (has_id "result") reveal 0 doc) with
  | Some doc' => Ok doc'
  | None => Raise TypeError
  end.

(** The [catch] block of [calculate]. *)
Definition caught (e : exn) : list event := [ConsoleError e; AlertFailure e].

(** [calculate()], with the network's answer to the request given. *)
Definition calculate (server : CalculationRequest → response) (st : state)
    : list event * state :=
  match serialize st with
  | Raise e => (caught e, st)
  | Ok NoPosts => ([Alert "Добавьте хотя бы один пост с персоналом"], st)
  | Ok (Request req) =>
      let sent := Fetch "/api/calculate" req in
      match server req with
      | NetworkFailure => (sent :: caught FetchFailed, st)
      | Response false _ => (sent :: caught (Error "Ошибка расчета"), st)
      | Response true None => (sent :: caught SyntaxError, st)
      | Response true (Some r) =>
          match displayResult r (document st) with
          | Ok doc => ([sent], with_document doc st)
          | Raise e => (sent :: caught e, st)
          end
      | Unreadable =>
          match displayUnreadable (document st) with
          | Ok doc => (sent :: caught TypeError, with_document doc st)
          | Raise e => (sent :: caught e, st)
          end
      | Marked r kids =>
          match displayMarked r kids (document st) with
          | Ok doc => ([sent], with_document doc st)
          | Raise e => (sent :: caught e, st)
          end
      end
  end.

(** The selection row that [loadTMC] builds for one item: for a name without
    markup the elements of the template (of the label only the name is
    kept), otherwise the elements that the browser makes of it. *)
Definition tmc_checkbox (item : TmcItem) : node :=
  element "div" "" ["tmc-checkbox"] ""
    match tmc_selection_row item with
    | None => [
        input ("tmc-check-" +:+ decimal (tmc_id item)) (decimal (tmc_id item));
        element "label" "" [] "" [element "strong" "" [] (tmc_name item) []];
        input ("tmc-qty-" +:+ decimal (tmc_id item)) "1" ]
    | Some kids => kids
    end.

(** [loadTMC()], with the answer of [GET /api/tmc] given: [None] when
    [fetch] or [response.json()] fails, otherwise the list of the items. *)
Definition loadTMC (answer : option (list TmcItem)) (st : state)
    : list event * state :=
  match answer with
  | None => ([ConsoleError FetchFailed], st)
  | Some items =>
      let st1 :=
        {| postCounter := postCounter st; staffCounter := staffCounter st;
           tmcItems := items; document := document st |} in
      let rows :=
        match items with
        | [] => [element "p" "" []
                   "ТМЦ не найдены. Добавьте их во вкладке 'Управление ТМЦ'." []]
        | _ => tmc_checkbox <$> items
        end in
      match found (modify (has_id "tmc-selection")
                     (λ n, [set_children rows n]) 0 (document st)) with
      | Some doc => ([], with_document doc st1)
      | None => ([ConsoleError TypeError], st1)
      end
  end.

(** The page before the script has run.  The file [index.html] is not among
    the sources; the page is reduced to the elements that the functions
    above look up by id. *)
Definition index_html : list node := [
  element "div" "calculator-tab" ["tab-content"; "active"] "" [
    element "div" "posts-container" [] "" [];
    element "div" "tmc-selection" [] "" [];
    input "markup" "20";
    element "button" "" ["btn"; "btn-primary"] "" [];
    element "div" "result" ["hidden"] "" [] ] ].

Definition initial : state :=
  {| postCounter := 0; staffCounter := ∅; tmcItems := [];
     document := index_html |}.

(** The state once [DOMContentLoaded] has fired (the first post is there). *)
Definition loaded : state := state_of (addPost initial).

(** ** The page as rows *)

(** An element without its children. *)
Definition shallow (n : node) : node := set_children [] n.

(** The elements in document order, each with its depth.  A forest is
    determined by the rows of its elements taken without their children. *)
Fixpoint rows_node (d : nat) (n : node) : list (nat * node) :=
  match n with
  | Node _ _ _ _ _ _ _ kids => (d, n) :: (kids ≫= rows_node (S d))
  end.

Definition rows (d : nat) (doc : list node) : list (nat * node) :=
  doc ≫= rows_node d.

Definition outline_of (r : list (nat * node)) : list (nat * node) :=
  prod_map id shallow <$> r.

Definition outline (d : nat) (doc : list node) : list (nat * node) :=
  outline_of (rows d doc).

Definition matching (P : node → bool) (l : list node) : list node :=
  filter (λ n, P n = true) l.

(** What a walk does, read on the rows: it fails exactly when fewer than
    [k + 1] elements match, and otherwise it replaces the [k]-th matching
    element [x] by [f x] and leaves every other row in place. *)
Definition modify_post (P : node → bool) (f : node → list node) (k d : nat)
    (r : list (nat * node)) (w : walk) : Prop :=
  match w with
  | Missing k' => k = (length (matching P (snd <$> r)) + k')%nat
  | Found doc' =>
      ∃ r1 x dx r2,
        r = r1 ++ rows_node dx x ++ r2 ∧
        P x = true ∧
        length (matching P (snd <$> r1)) = k ∧
        outline d doc' = outline_of r1 ++ outline dx (f x) ++ outline_of r2
  end.

(** ** The visitor and the form behind the page *)

Inductive field : Type := Position | Count | Salary.

#[global] Instance field_eq_dec : EqDecision field.
Proof. solve_decision. Defined.

Definition field_suffix (fld : field) : string :=
  match fld with
  | Position => "-position"
  | Count => "-count"
  | Salary => "-salary"
  end.

(** What the visitor can do on the page: press one of the buttons (the
    handlers receive the ids that the script wrote into them), type into one
    of the inputs, tick a checkbox; and what the page does on its own
    ([loadTMC] when it is opened or a tab is chosen). *)
Inductive action : Type :=
  | AddPost
  | RemovePost (postId : nat)
  | AddStaff (postId : nat)
  | RemoveStaff (postId k : nat)
  | TypeHours (postId : nat) (v : string)
  | TypeDays (postId : nat) (v : string)
  | TypeStaff (postId k : nat) (fld : field) (v : string)
  | TypeMarkup (v : string)
  | TypeQuantity (item : nat) (v : string)
  | Tick (item : nat) (b : bool)
  | Calculate (server : CalculationRequest → response)
  | LoadTMC (answer : option (list TmcItem)).

Definition typing (s v : string) (st : state) : state :=
  with_document (type_value s v (document st)) st.

Definition perform (st : state) (a : action) : state :=
  match a with
  | AddPost => state_of (addPost st)
  | RemovePost postId => removePost postId st
  | AddStaff postId => state_of (addStaff postId st)
  | RemoveStaff postId k => removeStaff (staff_id postId k) st
  | TypeHours postId v => typing ("hours-" +:+ decimal postId) v st
  | TypeDays postId v => typing ("days-" +:+ decimal postId) v st
  | TypeStaff postId k fld v =>
      typing (staff_id postId k +:+ field_suffix fld) v st
  | TypeMarkup v => typing "markup" v st
  | TypeQuantity item v => typing ("tmc-qty-" +:+ decimal item) v st
  | Tick item b =>
      with_document (tick ("tmc-check-" +:+ decimal item) b (document st)) st
  | Calculate server => snd (calculate server st)
  | LoadTMC answer => snd (loadTMC answer st)
  end.

(** What the server sends carries no markup: an item whose two rows are
    those of the templates, a reply that is no result with markup in it and
    that [displayResult] can read when it is JSON. *)
Definition plain_item (item : TmcItem) : Prop :=
  tmc_selection_row item = None ∧ tmc_register_row item = None.

Definition plain_response (rsp : response) : Prop :=
  match rsp with
  | NetworkFailure | Response _ _ => True
  | Unreadable | Marked _ _ => False
  end.

Definition plain_action (a : action) : Prop :=
  match a with
  | Calculate server => ∀ req, plain_response (server req)
  | LoadTMC (Some items) => Forall plain_item items
  | _ => True
  end.

(** The states that the page can be in as long as the server sends no
    markup: from the page as it is served, by the actions of the visitor and
    of the page, where every list of items and every reply of the server is
    plain.  With markup in a name or in a result, elements of any shape,
    with any id and any class, become part of the page, and what is shown of
    the states below does not extend to such pages. *)
Definition reachable (st : state) : Prop :=
  ∃ actions, Forall plain_action actions ∧ st = foldl perform initial actions.

(** The content of the form: the staff groups of a post, the posts, and the
    rest of the page. *)
Record StaffRow : Type := {
  row_k : nat;
  row_position : string;
  row_count : string;
  row_salary : string }.

Record CardRow : Type := {
  card_id : nat;
  card_title : string;
  card_hours : string;
  card_days : string;
  card_staff : list StaffRow }.

Record Form : Type := {
  form_cards : list CardRow;
  form_tmc : list node;
  form_markup : string;
  form_report : option CalculationResult }.

Definition render_staff (n : nat) (r : StaffRow) : node :=
  staff_group_with (staff_id n (row_k r))
    (row_position r) (row_count r) (row_salary r).

Definition render_card (c : CardRow) : node :=
  post_card_with (card_id c) (card_title c) (card_hours c) (card_days c)
    (render_staff (card_id c) <$> card_staff c).

Definition result_div (rep : option CalculationResult) : node :=
  match rep with
  | None => element "div" "result" ["hidden"] "" []
  | Some r => Node "div" "result" [] "" "" false (Some r) []
  end.

(** The page around the post cards: what follows the container of the
    posts, and the whole. *)
Definition page_rest (tmc : list node) (markup : string)
    (rep : option CalculationResult) : list node := [
  element "div" "tmc-selection" [] "" tmc;
  input "markup" markup;
  element "button" "" ["btn"; "btn-primary"] "" [];
  result_div rep ].

Definition page (cards tmc : list node) (markup : string)
    (rep : option CalculationResult) : list node := [
  element "div" "calculator-tab" ["tab-content"; "active"] ""
    (element "div" "posts-container" [] "" cards
     :: page_rest tmc markup rep) ].

(** The page that shows a form. *)
Definition render (f : Form) : list node :=
  page (render_card <$> form_cards f) (form_tmc f) (form_markup f)
       (form_report f).

(** An element of the equipment selection: its id, if it has one, is that
    of a checkbox or of a quantity field, and it is no part of a post. *)
Definition tmc_element (e : node) : Prop :=
  (elemId e = "" ∨
   ∃ item, elemId e = "tmc-check-" +:+ decimal item ∨
           elemId e = "tmc-qty-" +:+ decimal item) ∧
  has_class "post-card" e = false ∧
  has_class "post-title" e = false ∧
  has_class "staff-group" e = false.

(** A card whose number is not above the counter of the posts, and whose
    staff groups carry distinct numbers, none above the counter of its
    staff. *)
Definition card_ok (st : state) (c : CardRow) : Prop :=
  (card_id c ≤ postCounter st)%nat ∧
  NoDup (row_k <$> card_staff c) ∧
  Forall (λ r, row_k r ≤ default 0%nat (staffCounter st !! card_id c))%nat
    (card_staff c).

(** A form whose posts carry distinct numbers and are in order with the
    counters of the state. *)
Record well_formed (f : Form) (st : state) : Prop := {
  wf_card_ids : NoDup (card_id <$> form_cards f);
  wf_cards : Forall (card_ok st) (form_cards f);
  wf_tmc : Forall tmc_element (elements (form_tmc f)) }.

(** The counters only grow. *)
Definition counters_le (st st' : state) : Prop :=
  (postCounter st ≤ postCounter st')%nat ∧
  ∀ n, (default 0%nat (staffCounter st !! n)
        ≤ default 0%nat (staffCounter st' !! n))%nat.

Definition represents (f : Form) (st : state) : Prop :=
  well_formed f st ∧ document st = render f.

(** ** The operations on the form *)

(** Replaces the first element of a list on which [u] answers. *)
Fixpoint alter_first {A : Type} (u : A → option (list A)) (l : list A)
    : option (list A) :=
  match l with
  | [] => None
  | x :: l' =>
      match u x with
      | Some xs => Some (xs ++ l')
      | None => cons x <$> alter_first u l'
      end
  end.

(** The first answer of [v] on the elements of a list. *)
Fixpoint find_first {A B : Type} (v : A → option B) (l : list A) : option B :=
  match l with
  | [] => None
  | x :: l' =>
      match v x with
      | Some b => Some b
      | None => find_first v l'
      end
  end.

Definition in_card (n : nat) (u : CardRow → option (list CardRow))
    (c : CardRow) : option (list CardRow) :=
  if decide (card_id c = n) then u c else None.

Definition in_row (k : nat) (u : StaffRow → option (list StaffRow))
    (r : StaffRow) : option (list StaffRow) :=
  if decide (row_k r = k) then u r else None.

Definition with_staff (rows : list StaffRow) (c : CardRow) : CardRow :=
  {| card_id := card_id c; card_title := card_title c;
     card_hours := card_hours c; card_days := card_days c;
     card_staff := rows |}.

Definition with_title (t : string) (c : CardRow) : CardRow :=
  {| card_id := card_id c; card_title := t;
     card_hours := card_hours c; card_days := card_days c;
     card_staff := card_staff c |}.

Definition with_hours (v : string) (c : CardRow) : CardRow :=
  {| card_id := card_id c; card_title := card_title c;
     card_hours := v; card_days := card_days c;
     card_staff := card_staff c |}.

Definition with_days (v : string) (c : CardRow) : CardRow :=
  {| card_id := card_id c; card_title := card_title c;
     card_hours := card_hours c; card_days := v;
     card_staff := card_staff c |}.

Definition with_field (fld : field) (v : string) (r : StaffRow) : StaffRow :=
  match fld with
  | Position =>
      {| row_k := row_k r; row_position := v; row_count := row_count r;
         row_salary := row_salary r |}
  | Count =>
      {| row_k := row_k r; row_position := row_position r; row_count := v;
         row_salary := row_salary r |}
  | Salary =>
      {| row_k := row_k r; row_position := row_position r;
         row_count := row_count r; row_salary := v |}
  end.

Definition on_rows (u : StaffRow → option (list StaffRow)) (c : CardRow)
    : option (list CardRow) :=
  rows ← alter_first u (card_staff c); Some [with_staff rows c].

Definition with_cards (cards : list CardRow) (f : Form) : Form :=
  {| form_cards := cards; form_tmc := form_tmc f;
     form_markup := form_markup f; form_report := form_report f |}.

Definition with_tmc (tmc : list node) (f : Form) : Form :=
  {| form_cards := form_cards f; form_tmc := tmc;
     form_markup := form_markup f; form_report := form_report f |}.

Definition on_cards (u : CardRow → option (list CardRow)) (f : Form) : Form :=
  match alter_first u (form_cards f) with
  | Some cards => with_cards cards f
  | None => f
  end.

Definition new_row (k : nat) : StaffRow :=
  {| row_k := k; row_position := ""; row_count := "1"; row_salary := "" |}.

Definition new_card (n k : nat) : CardRow :=
  {| card_id := n; card_title := post_title n; card_hours := "12";
     card_days := "7"; card_staff := [new_row k] |}.

(** The titles after [renumberPosts]: the card at each position in turn
    gets the title of that position. *)
Definition retitle (cards : list CardRow) (index : nat) : list CardRow :=
  alter (with_title (post_title (index + 1))) index cards.

Definition renumber (cards : list CardRow) : list CardRow :=
  foldl retitle cards (seq 0 (length cards)).

(** The rows that [loadTMC] puts into the equipment selection. *)
Definition tmc_rows (items : list TmcItem) : list node :=
  match items with
  | [] => [element "p" "" []
             "ТМЦ не найдены. Добавьте их во вкладке 'Управление ТМЦ'." []]
  | _ => tmc_checkbox <$> items
  end.

(** What an action of the visitor does to the form, in a state with the
    given counters. *)
Definition form_step (st : state) (f : Form) (a : action) : Form :=
  match a with
  | AddPost =>
      let n := S (postCounter st) in
      let k := S (default 0%nat (staffCounter st !! n)) in
      with_cards (form_cards f ++ [new_card n k]) f
  | RemovePost n =>
      match alter_first (in_card n (λ _, Some [])) (form_cards f) with
      | Some cards => with_cards (renumber cards) f
      | None => f
      end
  | AddStaff n =>
      let k := S (default 0%nat (staffCounter st !! n)) in
      on_cards
        (in_card n (λ c, Some [with_staff (card_staff c ++ [new_row k]) c])) f
  | RemoveStaff n k =>
      on_cards (in_card n (on_rows (in_row k (λ _, Some [])))) f
  | TypeHours n v => on_cards (in_card n (λ c, Some [with_hours v c])) f
  | TypeDays n v => on_cards (in_card n (λ c, Some [with_days v c])) f
  | TypeStaff n k fld v =>
      on_cards
        (in_card n (on_rows (in_row k (λ r, Some [with_field fld v r])))) f
  | TypeMarkup v =>
      {| form_cards := form_cards f; form_tmc := form_tmc f;
         form_markup := v; form_report := form_report f |}
  | TypeQuantity item v =>
      with_tmc (type_value ("tmc-qty-" +:+ decimal item) v (form_tmc f)) f
  | Tick item b =>
      with_tmc (tick ("tmc-check-" +:+ decimal item) b (form_tmc f)) f
  | Calculate server =>
      match serialize st with
      | Ok (Request req) =>
          match server req with
          | Response true (Some r) =>
              {| form_cards := form_cards f; form_tmc := form_tmc f;
                 form_markup := form_markup f; form_report := Some r |}
          | _ => f
          end
      | _ => f
      end
  | LoadTMC answer =>
      match answer with
      | Some items => with_tmc (tmc_rows items) f
      | None => f
      end
  end.

(** What the form sends: the staff entry of a row, the post of a card at a
    position, and the posts of the request. *)
Definition row_field (fld : field) (r : StaffRow) : string :=
  match fld with
  | Position => row_position r
  | Count => row_count r
  | Salary => row_salary r
  end.

Definition row_staff (r : StaffRow) : Staff :=
  {| position := row_position r;
     count := parseInt (row_count r);
     net_salary := parseFloat (row_salary r) |}.

Definition card_staff_sent (c : CardRow) : list Staff :=
  filter (λ s, staff_accepted s = true) (row_staff <$> card_staff c).

Definition card_post (index : nat) (c : CardRow) : Post :=
  {| post_number := (index + 1)%nat;
     hours_per_day := parseInt (card_hours c);
     days_per_week := parseInt (card_days c);
     staff := card_staff_sent c |}.

Fixpoint posts_from (index : nat) (cards : list CardRow) : list Post :=
  match cards with
  | [] => []
  | c :: rest =>
      if bool_decide (card_staff_sent c ≠ [])
      then card_post index c :: posts_from (S index) rest
      else posts_from (S index) rest
  end.

Definition form_posts (f : Form) : list Post := posts_from 0 (form_cards f).

(** ** The ids of the elements of a post *)

(** The ids that [addPost] and [addStaff] give to what they build. *)
Inductive ident : Type :=
  | PostId (n : nat)
  | HoursId (n : nat)
  | DaysId (n : nat)
  | StaffBoxId (n : nat)
  | StaffGroupId (n k : nat)
  | StaffFieldId (n k : nat) (fld : field).

#[global] Instance ident_eq_dec : EqDecision ident.
Proof. solve_decision. Defined.

Definition show (i : ident) : string :=
  match i with
  | PostId n => "post-" +:+ decimal n
  | HoursId n => "hours-" +:+ decimal n
  | DaysId n => "days-" +:+ decimal n
  | StaffBoxId n => "staff-" +:+ decimal n
  | StaffGroupId n k => staff_id n k
  | StaffFieldId n k fld => staff_id n k +:+ field_suffix fld
  end.

(** The post that an id belongs to. *)
Definition owner (i : ident) : nat :=
  match i with
  | PostId n | HoursId n | DaysId n | StaffBoxId n
  | StaffGroupId n _ | StaffFieldId n _ _ => n
  end.

(** The ids of the staff family, and what follows the number of the post in
    them. *)
Definition staff_family (i : ident) : Prop :=
  match i with PostId _ | HoursId _ | DaysId _ => False | _ => True end.

Definition staff_tail (i : ident) : string :=
  match i with
  | StaffGroupId _ k => "-" +:+ decimal k
  | StaffFieldId _ k fld => "-" +:+ decimal k +:+ field_suffix fld
  | _ => ""
  end.

Fixpoint digits_only (s : string) : bool :=
  match s with
  | EmptyString => true
  | String c r => bool_decide (is_Some (digit c)) && digits_only r
  end.

Definition no_leading_digit (s : string) : Prop :=
  match s with
  | EmptyString => True
  | String c _ => digit c = None
  end.

(** ** Notions used in the statements *)

(** Every staff group of a card as it is read, before the test. *)
Definition read_all_staff (doc : list node) (postEl : node)
    : result (list Staff) :=
  mapM (read_staff doc) (querySelectorAll_in "staff-group" postEl).

(** A staff entry with a non-empty position, a positive count and a
    positive salary. *)
Definition strictly_valid (s : Staff) : bool :=
  truthy_string (position s) && positive (count s) && positive (net_salary s).

(** Whether the selection checkbox of an item exists and is ticked. *)
Definition is_selected (doc : list node) (item : TmcItem) : bool :=
  match getElementById ("tmc-check-" +:+ decimal (tmc_id item)) doc with
  | Some checkbox => checked checkbox
  | None => false
  end.

(** ** Some form states *)

(** The visitor fills in the three inputs of a staff group. *)
Definition fill_staff (staffId pos cnt sal : string) (st : state) : state :=
  with_document
    (type_value (staffId +:+ "-salary") sal
       (type_value (staffId +:+ "-count") cnt
          (type_value (staffId +:+ "-position") pos (document st)))) st.

Definition type_markup (v : string) (st : state) : state :=
  with_document (type_value "markup" v (document st)) st.

(** One post, two guards at 150000 each. *)
Definition one_post_filled : state :=
  fill_staff "staff-1-1" "Guard" "2" "150000" loaded.

(** Two posts; only the second one has its staff filled in. *)
Definition second_post_filled : state :=
  fill_staff "staff-2-1" "Guard" "2" "150000" (state_of (addPost loaded)).

(** One post whose only staff group has the count -1. *)
Definition negative_count : state :=
  fill_staff "staff-1-1" "Guard" "-1" "100" loaded.

(** Two equipment items loaded; the second is ticked with quantity 0, the
    first is left unticked. *)
Definition radio : TmcItem :=
  {| tmc_id := 7; tmc_name := "Radio"; tmc_selection_row := None;
     tmc_register_row := None |}.
Definition torch : TmcItem :=
  {| tmc_id := 9; tmc_name := "Torch"; tmc_selection_row := None;
     tmc_register_row := None |}.

Definition torch_ticked : state :=
  let st := snd (loadTMC (Some [radio; torch]) one_post_filled) in
  with_document
    (type_value "tmc-qty-9" "0" (tick "tmc-check-9" true (document st))) st.

(** The post cards and the staff groups of the page, each without its
    children, in display order. *)
Definition post_cards (doc : list node) : list node :=
  shallow <$> querySelectorAll "post-card" doc.

Definition staff_groups (doc : list node) : list node :=
  shallow <$> querySelectorAll "staff-group" doc.

(** ** The tabs and the equipment register *)

(** [el.classList.remove(c)] and [el.classList.add(c)] *)
Definition remove_class (c : string) (n : node) : node :=
  Node (tagName n) (elemId n) (filter (λ x, x ≠ c) (classList n))
       (textContent n) (value n) (checked n) (report n) (children n).

Definition add_class (c : string) (n : node) : node :=
  Node (tagName n) (elemId n)
       (if bool_decide (c ∈ classList n) then classList n
        else classList n ++ [c])
       (textContent n) (value n) (checked n) (report n) (children n).

(** [querySelectorAll(...).forEach(el => ...)] for a change [g] of the
    element itself: every element that satisfies the test is changed, in the
    element and in all its descendants. *)
Fixpoint for_each (P : node → bool) (g : node → node) (n : node) : node :=
  match n with
  | Node t i c x v b r kids =>
      let n' := Node t i c x v b r (for_each P g <$> kids) in
      if P n then g n' else n'
  end.

(** The row that [loadTMCList] builds for one item.  For a name without
    markup these are the elements of the template: of its texts the name is
    kept; the paragraph with the price, the quantity and the amortization,
    which are formatted in the visitor's locale, is left empty.  Otherwise
    they are the elements that the browser makes of it. *)
Definition tmc_item (item : TmcItem) : node :=
  element "div" "" ["tmc-item"] ""
    match tmc_register_row item with
    | None => [
        element "div" "" ["tmc-item-info"] "" [
          element "h4" "" [] (tmc_name item) [];
          element "p" "" [] "" [] ];
        element "button" "" ["btn"; "btn-danger"] "🗑️ Удалить" [] ]
    | Some kids => kids
    end.

Definition tmc_list_rows (items : list TmcItem) : list node :=
  match items with
  | [] => [element "p" "" [] "ТМЦ не найдены." []]
  | _ => tmc_item <$> items
  end.

(** [loadTMCList()], with the answer of [GET /api/tmc] given. *)
Definition loadTMCList (answer : option (list TmcItem)) (doc : list node)
    : list event * list node :=
  match answer with
  | None => ([ConsoleError FetchFailed], doc)
  | Some items =>
      match found (modify (has_id "tmc-list")
                     (λ n, [set_children (tmc_list_rows items) n]) 0 doc) with
      | Some doc' => ([], doc')
      | None => ([ConsoleError TypeError], doc)
      end
  end.

(** [showTab(tabName)].  [target] is the place of [event.target] among the
    elements of the page in document order; there is none when no event is
    being handled, and a place beyond the last element stands for a target
    that is not in the page. *)
Definition showTab (tabName : string) (target : option nat)
    (answer : option (list TmcItem)) (st : state) : list event * outcome :=
  let doc1 :=
    for_each (has_class "tab-content") (remove_class "active")
      <$> document st in
  let doc2 := for_each (has_class "tab-btn") (remove_class "active") <$> doc1 in
  match found (modify (has_id (tabName +:+ "-tab"))
                 (λ n, [add_class "active" n]) 0 doc2) with
  | None => ([], Throw TypeError (with_document doc2 st))
  | Some doc3 =>
      match target with
      | None => ([], Throw TypeError (with_document doc3 st))
      | Some k =>
          let doc4 :=
            default doc3
              (found (modify (λ _, true) (λ n, [add_class "active" n]) k doc3)) in
          if bool_decide (tabName = "tmc") then
            let '(log, doc5) := loadTMCList answer doc4 in
            (log, Done (with_document doc5 st))
          else
            let '(log, st') := loadTMC answer (with_document doc4 st) in
            (log, Done st')
      end
  end.

(** The body of [POST /api/tmc], and what the server says to a request that
    changes the register. *)
Record NewTmc : Type := {
  new_name : string;
  new_price : number;
  new_quantity : number;
  new_amortization_months : number }.

Inductive reply : Type :=
  | NoReply
  | Reply (ok : bool).

(** What the handlers of the register do that can be seen: what the
    calculator's handlers do, and besides a question to the visitor and the
    two requests that change the register. *)
Inductive register_event : Type :=
  | Page (e : event)
  | Confirm (question : string)
  | PostTmc (body : NewTmc)
  | DeleteTmc (id : nat).

(** [document.getElementById(s).value = v] *)
Definition assign (s v : string) (doc : list node) : option (list node) :=
  found (modify (has_id s) (λ n, [set_value v n]) 0 doc).

(** The test [!name || !price || !quantity || !amortization]. *)
Definition incomplete (b : NewTmc) : bool :=
  negb (truthy_string (new_name b)) || negb (truthy (new_price b))
  || negb (truthy (new_quantity b))
  || negb (truthy (new_amortization_months b)).

(** What [addTMC] reads from the four fields before it tests them. *)
Definition read_new_tmc (doc : list node) : result NewTmc :=
  name ← value_of "tmc-name" doc;
  price ← parseFloat <$> value_of "tmc-price" doc;
  quantity ← parseInt <$> value_of "tmc-quantity" doc;
  amortization ← parseInt <$> value_of "tmc-amortization" doc;
  mret {| new_name := name; new_price := price; new_quantity := quantity;
          new_amortization_months := amortization |}.

(** The [catch] block of [addTMC]. *)
Definition add_failed (body : NewTmc) (e : exn) (doc : list node)
    : list register_event * list node :=
  ([PostTmc body; Page (ConsoleError e);
    Page (Alert "Ошибка при добавлении ТМЦ")], doc).

(** [addTMC()], with the server's reply to the request and the answer to the
    [GET /api/tmc] of the [loadTMCList] that follows given.  A field that is
    missing when it is read is an exception that nothing catches;
    [loadTMCList] is not awaited, so that the alert comes before anything
    that [loadTMCList] logs. *)
Definition addTMC (server : NewTmc → reply) (listing : option (list TmcItem))
    (doc : list node) : result (list register_event * list node) :=
  body ← read_new_tmc doc;
  if incomplete body then mret ([Page (Alert "Заполните все поля")], doc) else
  mret
    match server body with
    | NoReply => add_failed body FetchFailed doc
    | Reply false => add_failed body (Error "Ошибка добавления ТМЦ") doc
    | Reply true =>
        match assign "tmc-name" "" doc with
        | None => add_failed body TypeError doc
        | Some doc1 =>
        match assign "tmc-price" "" doc1 with
        | None => add_failed body TypeError doc1
        | Some doc2 =>
        match assign "tmc-quantity" "1" doc2 with
        | None => add_failed body TypeError doc2
        | Some doc3 =>
        match assign "tmc-amortization" "" doc3 with
        | None => add_failed body TypeError doc3
        | Some doc4 =>
            let '(log, doc5) := loadTMCList listing doc4 in
            (PostTmc body :: Page (Alert "ТМЦ добавлен") :: (Page <$> log),
             doc5)
        end end end end
    end.


(** ** More notions used in the statements *)

(** The request of a form, given the equipment items of the state. *)
Definition form_request (f : Form) (items : list TmcItem) : result serialized :=
  if bool_decide (length (form_posts f) = 0%nat) then mret NoPosts else
  sel ← collect_tmc (form_tmc f) items;
  mret (Request {| posts := form_posts f; tmc_items := sel;
                   markup_percent :=
                     or_else (parseFloat (form_markup f)) (of_nat 20) |}).

(** Two cards that send the same: they may differ in the title and in staff
    groups that are not sent. *)
Definition sends_as (c c' : CardRow) : Prop :=
  card_hours c' = card_hours c ∧ card_days c' = card_days c ∧
  card_staff_sent c' = card_staff_sent c.

(** A request without the post at position [p] (counted from 1): its entry
    is dropped and the posts after it move up by one. *)
Definition move_up (p : nat) (q : Post) : Post :=
  if decide (p < post_number q)%nat then
    {| post_number := (post_number q - 1)%nat;
       hours_per_day := hours_per_day q; days_per_week := days_per_week q;
       staff := staff q |}
  else q.

Definition without_post (p : nat) (ps : list Post) : list Post :=
  move_up p <$> filter (λ q, post_number q ≠ p) ps.


(** The alerts and the requests in what a handler did. *)
Definition is_alert (e : event) : bool :=
  match e with Alert _ | AlertFailure _ => true | _ => false end.

Definition is_fetch (e : event) : bool :=
  match e with Fetch _ _ => true | _ => false end.

(** The ids and the values of the elements of a page, in document order, and
    the value that is found first under an id. *)
Definition fields (doc : list node) : list (string * string) :=
  (λ n, (elemId n, value n)) <$> elements doc.

Definition field_of (s : string) (l : list (string * string)) : option string :=
  snd <$> head (filter (λ p, p.1 = s) l).

(** After the first element that matches was replaced by [g], a second walk
    with [g2] finds the replacement and gives what a single walk with [g3]
    gives. *)
Definition walks_again (P : node → bool) (g g2 g3 : node → list node)
    (n : node) : Prop :=
  ∀ ms, modify_node P g 0 n = Found ms →
  ∃ ms2, modify_node P g3 0 n = Found ms2 ∧
         ∀ l, modify P g2 0 (ms ++ l) = Found (ms2 ++ l).

(** ** More pages and servers for the examples *)

(** A result with nothing in it, for a server that answers every request
    with it. *)
Definition blank_result : CalculationResult :=
  {| result_posts := []; result_tmc := [];
     result_summary :=
       {| total_labor_cost := of_nat 0; total_tmc_cost := of_nat 0;
          subtotal := of_nat 0; summary_markup_percent := of_nat 20;
          markup_amount := of_nat 0; final_price := of_nat 0;
          hourly_rate := of_nat 0; total_posts := of_nat 1;
          total_monthly_hours := of_nat 0 |} |}.

Definition blank_server (_ : CalculationRequest) : response :=
  Response true (Some blank_result).

(** A page with the two tabs and their buttons, for the examples: the tab of
    the calculator as the page has it before the script runs, and a tab of
    the register with the four fields of a new item, holding the given
    values, before the list of the items. *)
Definition register_tab (name price quantity amortization : string) : node :=
  element "div" "tmc-tab" ["tab-content"] "" [
    input "tmc-name" name;
    input "tmc-price" price;
    input "tmc-quantity" quantity;
    input "tmc-amortization" amortization;
    element "button" "" ["btn"; "btn-primary"] "" [];
    element "div" "tmc-list" [] "" [] ].

Definition two_tabs (name price quantity amortization : string) : list node :=
  [ element "div" "" ["tabs"] "" [
      element "button" "" ["tab-btn"; "active"] "" [];
      element "button" "" ["tab-btn"] "" [] ] ]
  ++ index_html
  ++ [register_tab name price quantity amortization].

(** ** The calculator *)

Module Calculator.

(** Modelled from the spec: the pricing calculator runs on the server and is
    not among the sources.  The definitions follow section 4.1 of the
    specification, on exact rationals; the number of weeks per month, which
    the specification leaves open, is a parameter. *)

Record StaffGroup : Type := {
  position : string;
  count : Z;
  net_salary : Q }.

Record Post : Type := {
  post_number : Z;
  hours_per_day : Z;
  days_per_week : Z;
  staff : list StaffGroup }.

Record EquipmentItem : Type := {
  id : nat;
  name : string;
  price : Q;
  quantity : Z;
  amortization_months : Z }.

Record EquipmentSelection : Type := {
  item_id : nat;
  selected_quantity : Z }.

Record CalculationRequest : Type := {
  posts : list Post;
  tmc_items : list EquipmentSelection;
  markup_percent : Q }.

Record CalculationResult : Type := {
  total_labor_cost : Q;
  total_tmc_cost : Q;
  subtotal : Q;
  markup_amount : Q;
  final_price : Q;
  hourly_rate : option Q;
  total_posts : nat;
  total_monthly_hours : Q }.

Definition sumQ (l : list Q) : Q := foldr Qplus 0%Q l.

Definition monthly_cost (item : EquipmentItem) : Q :=
  (price item * inject_Z (quantity item)
   / inject_Z (amortization_months item))%Q.

Definition total_cost_group (g : StaffGroup) : Q :=
  (inject_Z (count g) * net_salary g)%Q.

Definition post_labor_cost (p : Post) : Q :=
  sumQ (total_cost_group <$> staff p).

Definition monthly_hours (weeks_per_month : Q) (p : Post) : Q :=
  (inject_Z (hours_per_day p) * inject_Z (days_per_week p)
   * weeks_per_month)%Q.

(** The monthly cost of a selection, or nothing when the registry has no
    item with that id (the NotFound error). *)
Definition selection_cost (registry : list EquipmentItem)
    (sel : EquipmentSelection) : option Q :=
  item ← list_find (λ item, id item = item_id sel) registry;
  Some (monthly_cost item.2 * inject_Z (selected_quantity sel))%Q.

Definition calculate (weeks_per_month : Q) (registry : list EquipmentItem)
    (req : CalculationRequest) : option CalculationResult :=
  costs ← mapM (selection_cost registry) (tmc_items req);
  let labor := sumQ (post_labor_cost <$> posts req) in
  let tmc := sumQ costs in
  let hours := sumQ (monthly_hours weeks_per_month <$> posts req) in
  let sub := (labor + tmc)%Q in
  let markup := (sub * markup_percent req / 100)%Q in
  let final := (sub + markup)%Q in
  Some {| total_labor_cost := labor;
          total_tmc_cost := tmc;
          subtotal := sub;
          markup_amount := markup;
          final_price := final;
          hourly_rate := if Qeq_bool hours 0 then None else Some (final / hours)%Q;
          total_posts := length (posts req);
          total_monthly_hours := hours |}.

(** The example of section 8 of the specification. *)
Definition example_request : CalculationRequest :=
  {| posts := [ {| post_number := 1; hours_per_day := 12; days_per_week := 7;
                   staff := [ {| position := "Guard"; count := 2;
                                 net_salary := 150000 |} ] |} ];
     tmc_items := [];
     markup_percent := 20 |}.

End Calculator.

(** * Properties *)

(** ** The numeric parsers on a few inputs *)

Example parseInt_12 : parseInt "12" = Dec false 12 0.
Proof. reflexivity. Qed.
Example parseInt_neg : parseInt "  -7.9" = Dec true 7 0.
Proof. reflexivity. Qed.
Example parseInt_hex : parseInt "0x1F" = Dec false 31 0.
Proof. reflexivity. Qed.
Example parseInt_empty : parseInt "" = NaN.
Proof. reflexivity. Qed.
Example parseInt_e : parseInt "1e3" = Dec false 1 0.
Proof. reflexivity. Qed.
Example parseFloat_frac : parseFloat "150000.50" = Dec false 15000050 (-2).
Proof. reflexivity. Qed.
Example parseFloat_exp : parseFloat "-.5e-3x" = Dec true 5 (-4).
Proof. reflexivity. Qed.
Example parseFloat_dot : parseFloat "." = NaN.
Proof. reflexivity. Qed.
Example parseFloat_bare_e : parseFloat "1e+" = Dec false 1 0.
Proof. reflexivity. Qed.
Example parseFloat_zero : truthy (parseFloat "0.0") = false.
Proof. reflexivity. Qed.

Section node_induction.
Variable P : node → Prop.
Hypothesis step : ∀ t i c x v b r kids,
  Forall P kids → P (Node t i c x v b r kids).

Lemma node_ind : ∀ n, P n.
Proof.
  fix IH 1. intros [t i c x v b r kids]. apply step.
  induction kids as [|k kids IHk]; constructor; [apply IH | exact IHk].
Qed.
End node_induction.

Lemma flatten_eq n : flatten n = n :: elements (children n).
Proof. by destruct n. Qed.

Lemma rows_node_eq d n : rows_node d n = (d, n) :: rows (S d) (children n).
Proof. by destruct n. Qed.

Lemma elements_cons n doc :
  elements (n :: doc) = n :: elements (children n) ++ elements doc.
Proof. unfold elements at 1. simpl. by rewrite flatten_eq. Qed.

Lemma elements_single n : elements [n] = flatten n.
Proof. unfold elements. simpl. apply app_nil_r. Qed.

Lemma elements_app d1 d2 : elements (d1 ++ d2) = elements d1 ++ elements d2.
Proof. unfold elements. apply bind_app. Qed.

Lemma rows_cons d n doc :
  rows d (n :: doc) = (d, n) :: rows (S d) (children n) ++ rows d doc.
Proof. unfold rows at 1. simpl. by rewrite rows_node_eq. Qed.

Lemma rows_cons_node d n doc : rows d (n :: doc) = rows_node d n ++ rows d doc.
Proof. done. Qed.

Lemma rows_app d d1 d2 : rows d (d1 ++ d2) = rows d d1 ++ rows d d2.
Proof. unfold rows. apply bind_app. Qed.

Lemma elements_rows d doc : elements doc = snd <$> rows d doc.
Proof.
  revert d. induction doc as [|n doc IHdoc]; intros d; [done|].
  rewrite elements_cons, rows_cons. simpl. rewrite fmap_app.
  rewrite <- (IHdoc d). f_equal. f_equal.
  clear IHdoc. revert d. induction n as [t i c x v b r kids IH] using node_ind.
  intros d. simpl. induction IH as [|k kids Hk _ IHk]; [done|].
  rewrite elements_cons, rows_cons. simpl. rewrite fmap_app.
  by rewrite <- IHk, <- (Hk (S d)).
Qed.

Lemma modify_node_eq P f k n :
  modify_node P f k n =
  match (if P n then match k with O => None | S j => Some j end else Some k)
  with
  | None => Found (f n)
  | Some j =>
      match modify P f j (children n) with
      | Found kids' => Found [set_children kids' n]
      | Missing j' => Missing j'
      end
  end.
Proof.
  destruct n as [t i c x v b r kids]. simpl.
  destruct (if P _ then _ else _) as [j|]; [|done].
  match goal with
  | |- match ?go kids j with _ => _ end = _ =>
      enough (∀ l q, go l q = modify P f q l) as -> by done
  end.
  induction l as [|m l IH]; intros q; simpl; [done|].
  destruct (modify_node P f q m); [done|]. by rewrite IH.
Qed.

Lemma outline_of_app r1 r2 : outline_of (r1 ++ r2) = outline_of r1 ++ outline_of r2.
Proof. apply fmap_app. Qed.

Lemma outline_app d d1 d2 : outline d (d1 ++ d2) = outline d d1 ++ outline d d2.
Proof. unfold outline. by rewrite rows_app, outline_of_app. Qed.

Lemma outline_cons d n doc :
  outline d (n :: doc) =
  (d, shallow n) :: outline (S d) (children n) ++ outline d doc.
Proof. unfold outline. by rewrite rows_cons, <- outline_of_app. Qed.

Lemma rows_single d n : rows d [n] = rows_node d n.
Proof. unfold rows. simpl. apply app_nil_r. Qed.

Lemma flatten_rows d n : flatten n = snd <$> rows_node d n.
Proof.
  rewrite <- rows_single, <- elements_rows. unfold elements. simpl.
  by rewrite app_nil_r.
Qed.

Lemma matching_app P l1 l2 : matching P (l1 ++ l2) = matching P l1 ++ matching P l2.
Proof. apply filter_app. Qed.

Lemma matching_cons P n l :
  matching P (n :: l) = if P n then n :: matching P l else matching P l.
Proof.
  unfold matching. rewrite filter_cons.
  destruct (P n); by case_decide.
Qed.

Lemma modify_forest_spec P f doc :
  Forall (λ n, ∀ k d, modify_post P f k d (rows_node d n) (modify_node P f k n))
    doc →
  ∀ k d, modify_post P f k d (rows d doc) (modify P f k doc).
Proof.
  induction 1 as [|m l Hm _ IH]; intros k d.
  { cbn. lia. }
  specialize (Hm k d). rewrite rows_cons_node. cbn [modify].
  destruct (modify_node P f k m) as [ms|k1]; simpl in *.
  - destruct Hm as (r1 & x & dx & r2 & Hr & Hx & Hk & Ho).
    exists r1, x, dx, (r2 ++ rows d l). repeat split; try done.
    + rewrite Hr. by rewrite <- !app_assoc.
    + rewrite outline_app, Ho, outline_of_app. by rewrite <- !app_assoc.
  - specialize (IH k1 d).
    destruct (modify P f k1 l) as [l'|k2]; simpl in *.
    + destruct IH as (r1 & x & dx & r2 & Hr & Hx & Hk & Ho).
      exists (rows_node d m ++ r1), x, dx, r2. repeat split; try done.
      * rewrite Hr. by rewrite <- !app_assoc.
      * rewrite fmap_app, matching_app, length_app. lia.
      * unfold outline at 1. rewrite rows_cons_node, !outline_of_app.
        fold (outline d l'). rewrite Ho. by rewrite <- !app_assoc.
    + rewrite fmap_app, matching_app, length_app. lia.
Qed.

Lemma modify_node_spec P f n :
  ∀ k d, modify_post P f k d (rows_node d n) (modify_node P f k n).
Proof.
  induction n as [t i c x v b r kids IH] using node_ind.
  intros k d. rewrite modify_node_eq, rows_node_eq.
  pose proof (modify_forest_spec P f kids IH) as Hkids.
  set (n := Node t i c x v b r kids) in *.
  change (children n) with kids.
  destruct (P n) eqn:HP; [destruct k as [|j]|].
  - exists [], n, d, []. repeat split; try done.
    + by rewrite rows_node_eq, app_nil_r.
    + by rewrite app_nil_r.
  - specialize (Hkids j (S d)).
    destruct (modify P f j kids) as [kids'|j']; unfold modify_post in *.
    + destruct Hkids as (r1 & y & dy & r2 & Hr & Hy & Hk & Ho).
      exists ((d, n) :: r1), y, dy, r2. repeat split; try done.
      * by rewrite Hr.
      * rewrite fmap_cons, matching_cons. cbn [snd]. rewrite HP. simpl. lia.
      * rewrite outline_cons. cbn [children set_children].
        rewrite Ho. unfold outline at 3. cbn. by rewrite app_nil_r.
    + rewrite fmap_cons, matching_cons. cbn [snd]. rewrite HP. simpl. lia.
  - specialize (Hkids k (S d)).
    destruct (modify P f k kids) as [kids'|j']; unfold modify_post in *.
    + destruct Hkids as (r1 & y & dy & r2 & Hr & Hy & Hk & Ho).
      exists ((d, n) :: r1), y, dy, r2. repeat split; try done.
      * by rewrite Hr.
      * rewrite fmap_cons, matching_cons. cbn [snd]. rewrite HP. simpl. lia.
      * rewrite outline_cons. cbn [children set_children].
        rewrite Ho. unfold outline at 3. cbn. by rewrite app_nil_r.
    + rewrite fmap_cons, matching_cons. cbn [snd]. rewrite HP. simpl. lia.
Qed.

Lemma modify_spec P f doc k d :
  modify_post P f k d (rows d doc) (modify P f k doc).
Proof.
  apply modify_forest_spec, Forall_forall. intros n _. apply modify_node_spec.
Qed.

(** ** The rows determine the page *)

Lemma outline_depths d doc : Forall (λ r, d ≤ r.1)%nat (outline d doc).
Proof.
  revert d. induction doc as [|n doc IHdoc]; intros d; [constructor|].
  rewrite outline_cons. constructor; [done|]. apply Forall_app. split; [|done].
  clear IHdoc. revert d.
  induction n as [t i c x v b r kids IH] using node_ind. intros d. simpl.
  induction IH as [|k kids Hk _ IHk]; [constructor|].
  rewrite outline_cons. constructor; [simpl; lia|].
  apply Forall_app. split; [|done].
  eapply Forall_impl; [apply (Hk (S d))|]. simpl. lia.
Qed.

Lemma outline_head d doc :
  match outline d doc with [] => doc = [] | r :: _ => r.1 = d end.
Proof. destruct doc as [|n doc]; [done|]. by rewrite outline_cons. Qed.

(** Rows below a depth followed by rows that start at that depth split in
    one way only. *)
Lemma split_at_depth (d : nat) (a1 a2 b1 b2 : list (nat * node)) :
  Forall (λ r, d < r.1)%nat a1 → Forall (λ r, d < r.1)%nat a2 →
  match b1 with [] => True | r :: _ => r.1 = d end →
  match b2 with [] => True | r :: _ => r.1 = d end →
  a1 ++ b1 = a2 ++ b2 → a1 = a2 ∧ b1 = b2.
Proof.
  revert a2. induction a1 as [|x a1 IH]; intros [|y a2] H1 H2 Hb1 Hb2 Heq;
    simpl in *.
  - done.
  - subst b1. apply Forall_cons in H2 as [Hy _]. lia.
  - subst b2. apply Forall_cons in H1 as [Hx _]. lia.
  - injection Heq as -> Heq.
    apply Forall_cons in H1 as [_ H1]. apply Forall_cons in H2 as [_ H2].
    destruct (IH a2 H1 H2 Hb1 Hb2 Heq) as [-> ->]. done.
Qed.

Lemma shallow_children n1 n2 :
  shallow n1 = shallow n2 → children n1 = children n2 → n1 = n2.
Proof. destruct n1, n2. simpl. intros [= -> -> -> -> -> -> ->] ->. done. Qed.

Lemma outline_inj_bounded k : ∀ d1 d d2,
  (length (elements d1) ≤ k)%nat → outline d d1 = outline d d2 → d1 = d2.
Proof.
  induction k as [|k IH]; intros [|n1 doc1] d [|n2 doc2] Hk Heq;
    try done; try (rewrite outline_cons in Heq; discriminate Heq).
  - rewrite elements_cons in Hk. simpl in Hk. lia.
  - rewrite elements_cons in Hk. simpl in Hk. rewrite length_app in Hk.
    rewrite !outline_cons in Heq.
    assert (Hsh : shallow n1 = shallow n2) by congruence.
    assert (Htl : outline (S d) (children n1) ++ outline d doc1
                  = outline (S d) (children n2) ++ outline d doc2)
      by congruence.
    apply (split_at_depth d) in Htl as [Hkids Hdocs].
    + apply IH in Hkids; [|lia]. apply IH in Hdocs; [|lia].
      f_equal; [by apply shallow_children|done].
    + eapply Forall_impl; [apply outline_depths|]. simpl. lia.
    + eapply Forall_impl; [apply outline_depths|]. simpl. lia.
    + pose proof (outline_head d doc1) as H. by destruct (outline d doc1).
    + pose proof (outline_head d doc2) as H. by destruct (outline d doc2).
Qed.

(** A page is determined by its rows. *)
Theorem outline_inj d doc1 doc2 : outline d doc1 = outline d doc2 → doc1 = doc2.
Proof. by apply (outline_inj_bounded (length (elements doc1))). Qed.

(** ** Looking up, removing and appending by id *)

Lemma getElementById_matching s doc :
  getElementById s doc = head (matching (has_id s) (elements doc)).
Proof. done. Qed.

(** The walk for the first matching element succeeds exactly when
    there is one, and it is that element which is replaced. *)
Lemma modify_first P f doc :
  match head (matching P (elements doc)) with
  | None => modify P f 0 doc = Missing 0
  | Some x =>
      ∃ doc' r1 dx r2,
        modify P f 0 doc = Found doc' ∧
        rows 0 doc = r1 ++ rows_node dx x ++ r2 ∧
        matching P (snd <$> r1) = [] ∧
        outline 0 doc' = outline_of r1 ++ outline dx (f x) ++ outline_of r2
  end.
Proof.
  pose proof (modify_spec P f doc 0 0) as H. unfold modify_post in H.
  rewrite (elements_rows 0).
  destruct (modify P f 0 doc) as [doc'|k'].
  - destruct H as (r1 & x & dx & r2 & Hr & Hx & Hk & Ho).
    apply nil_length_inv in Hk.
    rewrite Hr, !fmap_app, !matching_app, Hk, <- flatten_rows, flatten_eq.
    rewrite matching_cons, Hx. simpl. by exists doc', r1, dx, r2.
  - assert (k' = 0%nat) as -> by lia.
    assert (matching P (rows 0 doc).*2 = []) as -> by (apply nil_length_inv; lia).
    done.
Qed.

Lemma remove_by_id_none s doc :
  getElementById s doc = None → remove_by_id s doc = None.
Proof.
  rewrite getElementById_matching. intros H.
  pose proof (modify_first (has_id s) (λ _, []) doc) as Hm.
  rewrite H in Hm. unfold remove_by_id. by rewrite Hm.
Qed.

(** Removing the element that [getElementById] finds takes the rows of that
    element and of its descendants out of the page, and nothing else. *)
Lemma remove_by_id_some s doc g :
  getElementById s doc = Some g →
  ∃ doc' r1 d r2,
    remove_by_id s doc = Some doc' ∧
    rows 0 doc = r1 ++ rows_node d g ++ r2 ∧
    outline 0 doc' = outline_of r1 ++ outline_of r2.
Proof.
  rewrite getElementById_matching. intros H.
  pose proof (modify_first (has_id s) (λ _, []) doc) as Hm.
  rewrite H in Hm. destruct Hm as (doc' & r1 & d & r2 & Hm & Hr & _ & Ho).
  exists doc', r1, d, r2. unfold remove_by_id. rewrite Hm. done.
Qed.

(** ** Serialization *)

Lemma bind_Ok {A B} (m : result A) (f : A → result B) b :
  m ≫= f = Ok b ↔ ∃ a, m = Ok a ∧ f a = Ok b.
Proof.
  destruct m as [a|e]; simpl; split.
  - intros H. by exists a.
  - by intros (a' & [= <-] & H).
  - done.
  - by intros (a' & [=] & _).
Qed.

Lemma fmap_Ok {A B} (m : result A) (g : A → B) b :
  g <$> m = Ok b ↔ ∃ a, m = Ok a ∧ g a = b.
Proof.
  destruct m as [a|e]; simpl; split.
  - intros [= <-]. by exists a.
  - by intros (a' & [= <-] & <-).
  - done.
  - by intros (a' & [=] & _).
Qed.

(** A state is reached by the given actions, all of them plain. *)
Ltac reached actions :=
  exists actions; split; [repeat constructor|vm_compute; reflexivity].

Ltac inv_result :=
  repeat match goal with
  | H : _ ≫= _ = Ok _ |- _ => apply bind_Ok in H as (? & ? & H)
  | H : _ <$> _ = Ok _ |- _ => apply fmap_Ok in H as (? & ? & H)
  | H : mret _ = Ok _ |- _ => injection H as H
  | H : Ok _ = Ok _ |- _ => injection H as H
  end.

(** The inner loop keeps, in order, the entries that pass the test. *)
Lemma collect_staff_filter doc els :
  collect_staff doc els =
  filter (λ s, staff_accepted s = true) <$> mapM (read_staff doc) els.
Proof.
  induction els as [|el els IH]; [done|].
  cbn [collect_staff mapM]. rewrite IH.
  destruct (read_staff doc el) as [s|e]; [|done]. cbn.
  destruct (mapM (read_staff doc) els) as [l|e]; [|done]. cbn.
  destruct (staff_accepted s); by case_decide.
Qed.

Lemma read_post_number doc index postEl p :
  read_post doc index postEl = Ok p → post_number p = (index + 1)%nat.
Proof. unfold read_post. intros H. inv_result. by subst p. Qed.

Lemma read_post_staff doc index postEl p :
  read_post doc index postEl = Ok p →
  ∃ entries,
    read_all_staff doc postEl = Ok entries ∧
    staff p = filter (λ s, staff_accepted s = true) entries.
Proof.
  unfold read_post, read_all_staff. intros H. inv_result. subst p. simpl.
  match goal with H : collect_staff _ _ = Ok _ |- _ =>
    rewrite collect_staff_filter in H; apply fmap_Ok in H as (l & Hl & <-) end.
  by exists l.
Qed.

(** The outer loop, from position [index] on. *)
Lemma collect_posts_from_spec doc cards : ∀ index ps,
  collect_posts_from doc index cards = Ok ps →
  (∀ p, p ∈ ps → ∃ j card,
      cards !! j = Some card ∧ read_post doc (index + j) card = Ok p ∧
      staff p ≠ []) ∧
  (∀ j card p, cards !! j = Some card →
      read_post doc (index + j) card = Ok p → staff p ≠ [] → p ∈ ps) ∧
  Forall (λ p, index < post_number p)%nat ps ∧
  StronglySorted lt (post_number <$> ps) ∧
  (length ps ≤ length cards)%nat ∧
  (length ps = length cards →
   post_number <$> ps = seq (S index) (length cards)).
Proof.
  induction cards as [|card cards IH]; intros index ps H.
  { injection H as <-. repeat split; try done.
    - by intros p Hp%elem_of_nil.
    - constructor. }
  cbn [collect_posts_from] in H. inv_result.
  rename x into p0, x0 into l, H0 into Hp0, H1 into Hl.
  destruct (IH _ _ Hl) as (Hin & Hall & Hlow & Hsorted & Hlen & Hseq).
  pose proof (read_post_number _ _ _ _ Hp0) as Hn0.
  assert (Hkeep : ∀ p, p ∈ l → ∃ j c,
    (card :: cards) !! j = Some c ∧ read_post doc (index + j) c = Ok p ∧
    staff p ≠ []).
  { intros p (j & c & Hj & Hr & Hs)%Hin. exists (S j), c.
    by replace (index + S j)%nat with (S index + j)%nat by lia. }
  assert (Hfind : ∀ j c p, (card :: cards) !! j = Some c →
    read_post doc (index + j) c = Ok p → staff p ≠ [] → p = p0 ∨ p ∈ l).
  { intros [|j] c p Hj Hr Hs.
    - injection Hj as <-. rewrite Nat.add_0_r, Hp0 in Hr. left. congruence.
    - right. apply (Hall j c); [done| |done].
      by replace (S index + j)%nat with (index + S j)%nat by lia. }
  assert (Hlow' : Forall (λ p, index < post_number p)%nat l).
  { eapply Forall_impl; [exact Hlow|]. simpl. lia. }
  case_bool_decide as Hstaff; subst ps.
  - repeat split.
    + intros p [->|Hp]%elem_of_cons; [|by apply Hkeep].
      exists 0%nat, card. by rewrite Nat.add_0_r.
    + intros j c p Hj Hr Hs. apply elem_of_cons. eauto.
    + constructor; [lia|done].
    + rewrite fmap_cons. constructor; [done|].
      apply Forall_fmap. eapply Forall_impl; [exact Hlow|]. simpl. lia.
    + simpl. lia.
    + cbn [length]. intros Hl'. rewrite fmap_cons, Hseq by lia.
      cbn [seq]. f_equal. lia.
  - repeat split.
    + done.
    + intros j c p Hj Hr Hs.
      destruct (Hfind j c p Hj Hr Hs) as [->|?]; [by destruct Hstaff|done].
    + done.
    + done.
    + simpl. lia.
    + simpl. lia.
Qed.

(** ** The request that is sent *)

(** [calculate] fetches with the request that it has serialized, and with
    no other. *)
Lemma calculate_fetches server st req :
  Fetch "/api/calculate" req ∈ fst (calculate server st) →
  serialize st = Ok (Request req).
Proof.
  assert (Hrest : ∀ e, Fetch "/api/calculate" req ∉ caught e).
  { intros e. unfold caught. rewrite !elem_of_cons, elem_of_nil.
    by intros [|[|]]. }
  unfold calculate. destruct (serialize st) as [[|req']|e].
  - cbn. rewrite elem_of_cons, elem_of_nil. by intros [|].
  - assert (Htrace : ∃ rest, fst
              match server req' with
              | NetworkFailure =>
                  (Fetch "/api/calculate" req' :: caught FetchFailed, st)
              | Response false _ =>
                  (Fetch "/api/calculate" req'
                     :: caught (Error "Ошибка расчета"), st)
              | Response true None =>
                  (Fetch "/api/calculate" req' :: caught SyntaxError, st)
              | Response true (Some r) =>
                  match displayResult r (document st) with
                  | Ok doc =>
                      ([Fetch "/api/calculate" req'], with_document doc st)
                  | Raise e => (Fetch "/api/calculate" req' :: caught e, st)
                  end
              | Unreadable =>
                  match displayUnreadable (document st) with
                  | Ok doc =>
                      (Fetch "/api/calculate" req' :: caught TypeError,
                       with_document doc st)
                  | Raise e => (Fetch "/api/calculate" req' :: caught e, st)
                  end
              | Marked r kids =>
                  match displayMarked r kids (document st) with
                  | Ok doc =>
                      ([Fetch "/api/calculate" req'], with_document doc st)
                  | Raise e => (Fetch "/api/calculate" req' :: caught e, st)
                  end
              end = Fetch "/api/calculate" req' :: rest ∧
              Fetch "/api/calculate" req ∉ rest).
    { destruct (server req') as [|[] [r|]| |r kids];
        try (eexists; split; [reflexivity|apply Hrest]).
      - destruct (displayResult _ _);
          eexists; (split; [reflexivity|]); [apply not_elem_of_nil|apply Hrest].
      - destruct (displayUnreadable _);
          eexists; (split; [reflexivity|]); apply Hrest.
      - destruct (displayMarked _ _ _);
          eexists; (split; [reflexivity|]); [apply not_elem_of_nil|apply Hrest]. }
    destruct Htrace as (rest & -> & Hnot).
    intros [Heq|Hin]%elem_of_cons; [by injection Heq as ->|done].
  - intros Hin. by apply Hrest in Hin.
Qed.

(** The parts of a request are what the loops of [calculate] have
    collected on the page, and there is a post among them. *)
Lemma serialize_request st req :
  serialize st = Ok (Request req) →
  collect_posts (document st) = Ok (posts req) ∧
  posts req ≠ [] ∧
  collect_tmc (document st) (tmcItems st) = Ok (tmc_items req) ∧
  read_markup (document st) = Ok (markup_percent req).
Proof.
  unfold serialize. intros H.
  destruct (collect_posts (document st)) as [ps|e]; [|done].
  cbn [mbind result_bind] in H. case_bool_decide as Hlen; [done|].
  destruct (collect_tmc _ _) as [sel|e]; [|done].
  destruct (read_markup _) as [m|e]; [|done].
  injection H as <-. cbn [posts tmc_items markup_percent].
  repeat split. by intros ->.
Qed.

(** The posts that the outer loop collects: each is read from the card at
    the position that its number gives, and the numbers increase. *)
Lemma collect_posts_positions (doc : list node) (ps : list Post) :
  collect_posts doc = Ok ps →
  (∀ p, p ∈ ps → ∃ card,
      querySelectorAll "post-card" doc !! (post_number p - 1)%nat = Some card ∧
      (1 ≤ post_number p)%nat ∧
      read_post doc (post_number p - 1) card = Ok p) ∧
  StronglySorted lt (post_number <$> ps) ∧
  (length ps = length (querySelectorAll "post-card" doc) →
   post_number <$> ps = seq 1 (length ps)).
Proof.
  intros H. apply collect_posts_from_spec in H
    as (Hin & _ & _ & Hsorted & _ & Hseq).
  repeat split; [|done|].
  - intros p (j & card & Hj & Hr & _)%Hin. exists card.
    pose proof (read_post_number _ _ _ _ Hr) as Hn. simpl in *.
    replace (post_number p - 1)%nat with j by lia. repeat split; [done|lia|done].
  - intros Hl. rewrite Hl. by apply Hseq.
Qed.

(** The staff of the posts that the outer loop collects. *)
Lemma collect_posts_accepted (doc : list node) (ps : list Post) :
  collect_posts doc = Ok ps →
  (∀ p, p ∈ ps →
     staff p ≠ [] ∧
     Forall (λ s, position s ≠ "" ∧ truthy (count s) = true ∧
                  truthy (net_salary s) = true) (staff p)) ∧
  (∀ index card p,
     querySelectorAll "post-card" doc !! index = Some card →
     read_post doc index card = Ok p →
     ∃ entries,
       read_all_staff doc card = Ok entries ∧
       staff p = filter (λ s, staff_accepted s = true) entries ∧
       (p ∈ ps ↔ filter (λ s, staff_accepted s = true) entries ≠ [])).
Proof.
  intros H. apply collect_posts_from_spec in H as (Hin & Hall & _).
  split.
  - intros p (j & card & Hj & Hr & Hs)%Hin. split; [done|].
    apply read_post_staff in Hr as (entries & _ & ->).
    apply Forall_forall. intros s [Hacc _]%list_elem_of_filter.
    unfold staff_accepted in Hacc.
    apply andb_true_iff in Hacc as [[Hp%Is_true_true ?]%andb_true_iff ?].
    repeat split; [|done..]. intros Hempty. by rewrite Hempty in Hp.
  - intros index card p Hc Hr.
    destruct (read_post_staff _ _ _ _ Hr) as (entries & He & Hs).
    exists entries. repeat split; [done..| |].
    + intros (j & c & _ & _ & Hne)%Hin. by rewrite <- Hs.
    + intros Hne. apply (Hall index card); [done..|]. by rewrite Hs.
Qed.

(** C1 (as amended).  In every request that [calculate] sends, from any
    page and whatever the server does, the [post_number] of a post is the
    position, counted from 1, of its card among all the post cards of the
    page in display order, whether or not the other cards are included: the
    values increase strictly, and they are exactly 1..N when no card is left
    out.  They do not depend on the ids of the cards, so deleted posts leave
    no trace. *)
Theorem post_numbers_are_display_positions
    (server : CalculationRequest → response) (st : state)
    (req : CalculationRequest) :
  Fetch "/api/calculate" req ∈ fst (calculate server st) →
  (∀ p, p ∈ posts req → ∃ card,
      querySelectorAll "post-card" (document st) !! (post_number p - 1)%nat
        = Some card ∧
      (1 ≤ post_number p)%nat ∧
      read_post (document st) (post_number p - 1) card = Ok p) ∧
  StronglySorted lt (post_number <$> posts req) ∧
  (length (posts req) = length (querySelectorAll "post-card" (document st)) →
   post_number <$> posts req = seq 1 (length (posts req))).
Proof.
  intros (Hps & _)%calculate_fetches%serialize_request.
  by apply collect_posts_positions.
Qed.

(** C1, witness: the form with two posts of which only the second has
    staff; the request that is sent holds one post. *)
Lemma post_numbers_are_display_positions_witness :
  ∃ req,
    Fetch "/api/calculate" req
      ∈ fst (calculate (λ _, NetworkFailure) second_post_filled) ∧
    StronglySorted lt (post_number <$> posts req).
Proof.
  eexists. split; [vm_compute; left|].
  eapply (post_numbers_are_display_positions (λ _, NetworkFailure)
            second_post_filled).
  vm_compute. left.
Defined.

(** C1, as stated, fails: with two posts of which the first has no
    accepted staff, the request that is sent holds the single post number 2,
    which is not the sequence 1..1. *)
Lemma post_numbers_not_contiguous :
  ∃ req,
    Fetch "/api/calculate" req
      ∈ fst (calculate (λ _, NetworkFailure) second_post_filled) ∧
    post_number <$> posts req = [2%nat] ∧
    post_number <$> posts req ≠ seq 1 (length (posts req)).
Proof. eexists. split; [vm_compute; left|]. by split. Qed.

(** C3 (as amended).  In every request that [calculate] sends, every post
    has at least one staff entry, and every entry passed the test of the
    script: a non-empty position, and a count and a salary that are neither
    NaN nor zero (a negative one passes).  The entries of a post are those
    read from its card that pass the test, in order, and a card none of
    whose entries passes is not in the request. *)
Theorem posts_in_request_have_accepted_staff
    (server : CalculationRequest → response) (st : state)
    (req : CalculationRequest) :
  Fetch "/api/calculate" req ∈ fst (calculate server st) →
  (∀ p, p ∈ posts req →
     staff p ≠ [] ∧
     Forall (λ s, position s ≠ "" ∧ truthy (count s) = true ∧
                  truthy (net_salary s) = true) (staff p)) ∧
  (∀ index card p,
     querySelectorAll "post-card" (document st) !! index = Some card →
     read_post (document st) index card = Ok p →
     ∃ entries,
       read_all_staff (document st) card = Ok entries ∧
       staff p = filter (λ s, staff_accepted s = true) entries ∧
       (p ∈ posts req ↔ filter (λ s, staff_accepted s = true) entries ≠ [])).
Proof.
  intros (Hps & _)%calculate_fetches%serialize_request.
  by apply collect_posts_accepted.
Qed.

(** C3, witness: the form with one filled post. *)
Lemma posts_in_request_have_accepted_staff_witness :
  ∃ req p,
    Fetch "/api/calculate" req
      ∈ fst (calculate (λ _, NetworkFailure) one_post_filled) ∧
    posts req = [p] ∧ staff p ≠ [].
Proof.
  do 2 eexists. split; [vm_compute; left|]. split; [reflexivity|].
  eapply (posts_in_request_have_accepted_staff (λ _, NetworkFailure)
            one_post_filled); [vm_compute; left|].
  apply list_elem_of_singleton. reflexivity.
Defined.

(** C3, as stated, fails: a staff group with the count -1 is not a valid
    entry in the sense of the claim (its count is not positive), and yet it
    is in the request that is sent, as the only entry of its post. *)
Lemma negative_count_is_submitted :
  ∃ req p s,
    Fetch "/api/calculate" req
      ∈ fst (calculate (λ _, NetworkFailure) negative_count) ∧
    posts req = [p] ∧ staff p = [s] ∧ count s = Dec true 1 0 ∧
    strictly_valid s = false.
Proof. do 3 eexists. split; [vm_compute; left|]. by repeat split. Qed.

(** C5 (as amended).  In every request that [calculate] sends,
    [markup_percent] is the value that [parseFloat] reads from the markup
    field whenever that value is a number other than zero, of either sign,
    and it is 20 when the field is empty or does not start with a number. *)
Theorem markup_percent_read (server : CalculationRequest → response)
    (st : state) (req : CalculationRequest) :
  Fetch "/api/calculate" req ∈ fst (calculate server st) →
  ∃ v, value_of "markup" (document st) = Ok v ∧
       (truthy (parseFloat v) = true → markup_percent req = parseFloat v) ∧
       (parseFloat v = NaN → markup_percent req = of_nat 20).
Proof.
  intros (_ & _ & _ & Hm)%calculate_fetches%serialize_request.
  unfold read_markup in Hm.
  destruct (value_of "markup" (document st)) as [v|e]; [|done].
  exists v. split; [done|]. cbn in Hm. injection Hm as <-. unfold or_else.
  split.
  - by intros ->.
  - by intros ->.
Qed.

(** C5, witness: the form with one filled post, whose markup field holds
    20. *)
Lemma markup_percent_read_witness :
  ∃ req,
    Fetch "/api/calculate" req
      ∈ fst (calculate (λ _, NetworkFailure) one_post_filled) ∧
    markup_percent req = parseFloat "20".
Proof.
  destruct (serialize one_post_filled) as [[|req]|] eqn:Hs;
    [vm_compute in Hs; discriminate| |vm_compute in Hs; discriminate].
  assert (Hsent : Fetch "/api/calculate" req
                    ∈ fst (calculate (λ _, NetworkFailure) one_post_filled)).
  { unfold calculate. rewrite Hs. left. }
  destruct (markup_percent_read (λ _, NetworkFailure) one_post_filled req Hsent)
    as (v & Hv & Hnum & _).
  vm_compute in Hv. injection Hv as <-.
  exists req. split; [exact Hsent|]. apply Hnum. vm_compute. reflexivity.
Defined.

(** C5, as stated, fails: a markup of -5 is sent as it is, a negative
    number. *)
Lemma markup_negative_is_sent :
  ∃ req,
    Fetch "/api/calculate" req
      ∈ fst (calculate (λ _, NetworkFailure)
               (type_markup "-5" one_post_filled)) ∧
    markup_percent req = Dec true 5 0 ∧
    negative (markup_percent req) = true.
Proof. eexists. split; [vm_compute; left|]. by split. Qed.

(** A markup of 0, a number that the visitor did enter, is not sent: the
    default takes its place, because [||] holds zero for absent. *)
Example markup_zero_is_replaced :
  parseFloat "0" = Dec false 0 0 ∧
  ∃ req,
    Fetch "/api/calculate" req
      ∈ fst (calculate (λ _, NetworkFailure)
               (type_markup "0" one_post_filled)) ∧
    markup_percent req = of_nat 20.
Proof.
  split; [vm_compute; reflexivity|].
  eexists. split; [vm_compute; left|]. vm_compute. reflexivity.
Qed.

(** C6.  When the form yields no post with accepted staff, [calculate]
    only shows the message: nothing is fetched, nothing is rendered and the
    page is as before, whatever the network would have answered. *)
Theorem no_posts_no_request (server : CalculationRequest → response)
    (st : state) :
  collect_posts (document st) = Ok [] →
  calculate server st =
    ([Alert "Добавьте хотя бы один пост с персоналом"], st).
Proof. intros H. unfold calculate, serialize. by rewrite H. Qed.

(** C6, witness: the page as loaded, whose only post has an empty position
    and salary. *)
Lemma no_posts_no_request_witness :
  calculate (λ _, NetworkFailure) loaded =
    ([Alert "Добавьте хотя бы один пост с персоналом"], loaded).
Proof. apply no_posts_no_request. vm_compute. reflexivity. Defined.

(** C7.  When the request is refused by the network or answered with a
    status outside 2xx, [calculate] has fetched once, reports the error on
    the console and in an alert, and leaves the state, the whole page
    included, as it was. *)
Theorem failed_submission_keeps_form (server : CalculationRequest → response)
    (st : state) (req : CalculationRequest) :
  serialize st = Ok (Request req) →
  server req = NetworkFailure ∨ (∃ body, server req = Response false body) →
  ∃ e, calculate server st =
         ([Fetch "/api/calculate" req; ConsoleError e; AlertFailure e], st).
Proof.
  intros Hs Hfail. unfold calculate. rewrite Hs.
  destruct Hfail as [->|[body ->]]; eauto.
Qed.

(** C7, witness: one filled post and a server that answers 500. *)
Lemma failed_submission_keeps_form_witness :
  ∃ req e,
    calculate (λ _, Response false None) one_post_filled =
      ([Fetch "/api/calculate" req; ConsoleError e; AlertFailure e],
       one_post_filled).
Proof.
  eexists.
  eapply (failed_submission_keeps_form (λ _, Response false None)
            one_post_filled).
  - vm_compute. reflexivity.
  - right. exists None. reflexivity.
Defined.


(** The selections that the loop over the items collects. *)
Lemma collect_tmc_ticked (doc : list node) (items : list TmcItem)
    (sel : list Selection) :
  collect_tmc doc items = Ok sel →
  item_id <$> sel
    = tmc_id <$> filter (λ item, is_selected doc item = true) items ∧
  Forall (λ s, ∃ v,
            value_of ("tmc-qty-" +:+ decimal (item_id s)) doc = Ok v ∧
            quantity s =
              if truthy (parseInt v) then parseInt v else of_nat 1) sel.
Proof.
  revert sel. induction items as [|item items IH]; intros sel H.
  { injection H as <-. by split. }
  cbn [collect_tmc] in H.
  destruct (is_selected doc item) eqn:Hsel.
  - rewrite filter_cons_True by done. unfold is_selected in Hsel.
    destruct (getElementById _ doc) as [checkbox|]; [|done].
    rewrite Hsel in H. inv_result. subst sel.
    match goal with
    | Hq : parseInt ?v = ?q, Hl : collect_tmc doc items = Ok ?l |- _ =>
        destruct (IH l Hl) as [Hids Hqs]; split;
          [rewrite !fmap_cons; by rewrite Hids|];
        constructor; [|done]; exists v; split; [done|];
        simpl; unfold or_else; by rewrite Hq
    end.
  - rewrite filter_cons_False by (by rewrite Hsel). unfold is_selected in Hsel.
    destruct (getElementById _ doc) as [checkbox|]; [rewrite Hsel in H|];
      by apply IH.
Qed.

(** C9.  In every request that [calculate] sends, the selections are those
    of the loaded items whose checkbox exists and is ticked, in the order of
    the items; the quantity of each is the value that [parseInt] reads from
    its quantity field, or 1 when that value is NaN or zero. *)
Theorem tmc_items_are_ticked_items (server : CalculationRequest → response)
    (st : state) (req : CalculationRequest) :
  Fetch "/api/calculate" req ∈ fst (calculate server st) →
  item_id <$> tmc_items req
    = tmc_id <$> filter (λ item, is_selected (document st) item = true)
                   (tmcItems st) ∧
  Forall (λ s, ∃ v,
            value_of ("tmc-qty-" +:+ decimal (item_id s)) (document st)
              = Ok v ∧
            quantity s =
              if truthy (parseInt v) then parseInt v else of_nat 1)
         (tmc_items req).
Proof.
  intros (_ & _ & Hsel & _)%calculate_fetches%serialize_request.
  by apply collect_tmc_ticked.
Qed.

(** C9, witness: two items loaded, the second ticked with the quantity 0. *)
Lemma tmc_items_are_ticked_items_witness :
  ∃ req,
    Fetch "/api/calculate" req
      ∈ fst (calculate (λ _, NetworkFailure) torch_ticked) ∧
    item_id <$> tmc_items req = [9%nat] ∧
    quantity <$> tmc_items req = [of_nat 1].
Proof.
  eexists. split; [vm_compute; left|].
  split; [|reflexivity].
  etrans;
    [eapply (tmc_items_are_ticked_items (λ _, NetworkFailure) torch_ticked);
     vm_compute; left|].
  vm_compute. reflexivity.
Defined.


(** ** What a removal leaves in place *)

Lemma matching_shallow P l :
  (∀ n, P (shallow n) = P n) →
  shallow <$> matching P l = matching P (shallow <$> l).
Proof.
  intros HP. induction l as [|n l IH]; [done|].
  rewrite fmap_cons, !matching_cons, HP.
  destruct (P n); [rewrite fmap_cons|]; by rewrite IH.
Qed.

Lemma outline_of_snd r : snd <$> outline_of r = shallow <$> (snd <$> r).
Proof.
  unfold outline_of. rewrite <- !list_fmap_compose.
  apply list_fmap_ext. by intros ? [d n].
Qed.

Lemma matching_outline P d doc :
  (∀ n, P (shallow n) = P n) →
  shallow <$> matching P (elements doc) = matching P (snd <$> outline d doc).
Proof.
  intros HP. unfold outline.
  by rewrite outline_of_snd, <- (elements_rows d), matching_shallow.
Qed.

(** The elements that satisfy a test that looks at the element itself, not
    at its children: when [g] and its descendants are taken out of the page,
    what remains of them is what was there outside [g]. *)
Lemma matching_frame P doc doc' r1 d g r2 :
  (∀ n, P (shallow n) = P n) →
  rows 0 doc = r1 ++ rows_node d g ++ r2 →
  outline 0 doc' = outline_of r1 ++ outline_of r2 →
  ∃ l1 l2,
    shallow <$> matching P (elements doc)
      = l1 ++ (shallow <$> matching P (flatten g)) ++ l2 ∧
    shallow <$> matching P (elements doc') = l1 ++ l2.
Proof.
  intros HP Hr Ho.
  exists (matching P (snd <$> outline_of r1)),
         (matching P (snd <$> outline_of r2)).
  rewrite !(matching_outline P 0) by done. unfold outline at 1.
  rewrite Hr, Ho, !outline_of_app, !fmap_app, !matching_app.
  split; [|done]. do 2 f_equal.
  by rewrite outline_of_snd, <- flatten_rows, matching_shallow.
Qed.

Lemma has_class_shallow c n : has_class c (shallow n) = has_class c n.
Proof. done. Qed.

Lemma has_id_shallow s n : has_id s (shallow n) = has_id s n.
Proof. done. Qed.

Lemma value_of_shallow s doc :
  value_of s doc =
  match head (shallow <$> matching (has_id s) (elements doc)) with
  | Some el => Ok (value el)
  | None => Raise TypeError
  end.
Proof.
  unfold value_of. rewrite getElementById_matching.
  by destruct (matching (has_id s) (elements doc)).
Qed.

Lemma querySelectorAll_matching c doc :
  querySelectorAll c doc = matching (has_class c) (elements doc).
Proof. done. Qed.

Lemma displayed_titles_shallow doc :
  displayed_titles doc =
  textContent <$> (shallow <$> matching (has_class "post-title") (elements doc)).
Proof.
  unfold displayed_titles. rewrite querySelectorAll_matching.
  rewrite <- list_fmap_compose. by apply list_fmap_ext.
Qed.

(** C8.  On any page, when [staffId] is the id of a staff group, as
    [addStaff] built it and with whatever was typed into it,
    [removeStaff(staffId)] takes that group with its descendants out of the
    page and changes nothing else: the counters and the equipment items are
    as before, all other rows of the page are in place, the titles shown on
    the cards, the cards themselves and the other staff groups are the
    same, and every field outside the group reads as before.  Nothing is
    renumbered. *)
Theorem removeStaff_removes_only_the_group (st : state)
    (staffId pos cnt sal : string) :
  getElementById staffId (document st)
    = Some (staff_group_with staffId pos cnt sal) →
  postCounter (removeStaff staffId st) = postCounter st ∧
  staffCounter (removeStaff staffId st) = staffCounter st ∧
  tmcItems (removeStaff staffId st) = tmcItems st ∧
  (∃ r1 d r2,
     rows 0 (document st)
       = r1 ++ rows_node d (staff_group_with staffId pos cnt sal) ++ r2 ∧
     outline 0 (document (removeStaff staffId st))
       = outline_of r1 ++ outline_of r2) ∧
  displayed_titles (document (removeStaff staffId st))
    = displayed_titles (document st) ∧
  post_cards (document (removeStaff staffId st)) = post_cards (document st) ∧
  (∃ l1 l2,
     staff_groups (document st)
       = l1 ++ shallow (staff_group_with staffId pos cnt sal) :: l2 ∧
     staff_groups (document (removeStaff staffId st)) = l1 ++ l2) ∧
  (∀ s, getElementById s [staff_group_with staffId pos cnt sal] = None →
     value_of s (document (removeStaff staffId st))
       = value_of s (document st)).
Proof.
  set (g := staff_group_with staffId pos cnt sal).
  intros Hg. unfold removeStaff. rewrite Hg.
  destruct (remove_by_id_some _ _ _ Hg) as (doc' & r1 & d & r2 & Hrm & Hr & Ho).
  rewrite Hrm. simpl.
  repeat split; try done.
  - by exists r1, d, r2.
  - destruct (matching_frame (has_class "post-title") _ _ _ _ _ _
                (has_class_shallow _) Hr Ho) as (l1 & l2 & H1 & H2).
    rewrite !displayed_titles_shallow, H1, H2. done.
  - destruct (matching_frame (has_class "post-card") _ _ _ _ _ _
                (has_class_shallow _) Hr Ho) as (l1 & l2 & H1 & H2).
    unfold post_cards. rewrite !querySelectorAll_matching, H1, H2. done.
  - destruct (matching_frame (has_class "staff-group") _ _ _ _ _ _
                (has_class_shallow _) Hr Ho) as (l1 & l2 & H1 & H2).
    exists l1, l2. unfold staff_groups.
    rewrite !querySelectorAll_matching, H1, H2. done.
  - intros s Hs.
    destruct (matching_frame (has_id s) _ _ _ _ _ _
                (has_id_shallow _) Hr Ho) as (l1 & l2 & H1 & H2).
    rewrite !value_of_shallow, H1, H2.
    rewrite getElementById_matching, elements_single in Hs.
    destruct (matching (has_id s) (flatten g)); [done|discriminate].
Qed.

(** C8, witness: the page with one filled post, and its staff group. *)
Lemma removeStaff_removes_only_the_group_witness :
  displayed_titles (document (removeStaff "staff-1-1" one_post_filled))
    = displayed_titles (document one_post_filled) ∧
  post_cards (document (removeStaff "staff-1-1" one_post_filled))
    = post_cards (document one_post_filled) ∧
  staff_groups (document (removeStaff "staff-1-1" one_post_filled)) = [].
Proof.
  destruct (removeStaff_removes_only_the_group one_post_filled
              "staff-1-1" "Guard" "2" "150000")
    as (_ & _ & _ & _ & Ht & Hc & _); [vm_compute; reflexivity|].
  split; [exact Ht|]. split; [exact Hc|]. vm_compute. reflexivity.
Defined.

(** ** Removing what is not there *)

Lemma getElementById_unlisted s doc :
  s ∉ elemId <$> elements doc → getElementById s doc = None.
Proof.
  intros Hs. destruct (getElementById s doc) as [e|] eqn:He; [|done].
  destruct Hs. unfold getElementById in He.
  assert (Hin : e ∈ filter (λ n, has_id s n = true) (elements doc)).
  { destruct (filter _ _) as [|e' l]; [done|]. injection He as ->. left. }
  apply list_elem_of_filter in Hin as [Hid Hin].
  apply bool_decide_eq_true_1 in Hid as [_ <-]. by apply list_elem_of_fmap_2.
Qed.

(** C10.  [removePost(postId)] leaves the state as it is when no element of
    the page has the id [post-<postId>], and [removeStaff(staffId)] leaves
    it as it is when no element of the page has the id [staffId]: the
    counters, the items and the whole page are the same.  Neither can
    throw. *)
Theorem remove_of_absent_id_is_noop (st : state) (postId : nat)
    (staffId : string) :
  ("post-" +:+ decimal postId ∉ elemId <$> elements (document st) →
   removePost postId st = st) ∧
  (staffId ∉ elemId <$> elements (document st) →
   removeStaff staffId st = st).
Proof.
  unfold removePost, removeStaff.
  split; intros Hid; by rewrite getElementById_unlisted.
Qed.

(** C10, witness: a post and a staff group that are not on the page. *)
Lemma remove_of_absent_id_is_noop_witness :
  removePost 5 loaded = loaded ∧ removeStaff "staff-1-2" loaded = loaded.
Proof.
  destruct (remove_of_absent_id_is_noop loaded 5 "staff-1-2") as [Hp Hs].
  split; [apply Hp | apply Hs]; apply (bool_decide_unpack _);
    vm_compute; exact I.
Defined.

(** An id that the buttons of the page do not pass: [staff-1] is the id of
    no post card and of no staff group, but of the element that holds the
    staff groups of the first post, and [removeStaff('staff-1')] takes it
    out with the groups inside it. *)
Example removeStaff_of_other_element :
  ("staff-1" ∉ elemId <$> (querySelectorAll "post-card" (document loaded)
                           ++ querySelectorAll "staff-group" (document loaded))) ∧
  (elemId <$> querySelectorAll "staff-group" (document loaded)) = ["staff-1-1"] ∧
  querySelectorAll "staff-group" (document (removeStaff "staff-1" loaded)) = [] ∧
  removeStaff "staff-1" loaded ≠ loaded.
Proof.
  assert (Hgone : querySelectorAll "staff-group"
                    (document (removeStaff "staff-1" loaded)) = [])
    by (vm_compute; reflexivity).
  split; [|split; [|split]].
  - apply (bool_decide_unpack _). vm_compute. exact I.
  - vm_compute. reflexivity.
  - exact Hgone.
  - intros Heq. rewrite Heq in Hgone. vm_compute in Hgone. discriminate.
Qed.

(** ** Numbering of the posts *)

(** C2 fails on the code.  After the first post, added when the page loads,
    one more post is added, post 1 is removed and a post is added again: the
    page then shows the titles 1 and 3.  [removePost] renumbers the cards
    that remain by their position, but [addPost] writes the counter. *)
Theorem add_after_remove_leaves_gap :
  displayed_titles
    (document (state_of (addPost (removePost 1 (state_of (addPost loaded))))))
  = [post_title 1; post_title 3].
Proof. vm_compute. reflexivity. Qed.

(** The visitor gets there with the buttons of the page alone. *)
Example gap_is_reachable :
  reachable (state_of (addPost (removePost 1 (state_of (addPost loaded))))).
Proof. reached [AddPost; AddPost; RemovePost 1; AddPost]. Qed.

(** What [removePost] does get right: after a removal the titles follow the
    positions. *)
Example removePost_renumbers_example :
  displayed_titles (document (removePost 1 (state_of (addPost loaded))))
  = [post_title 1].
Proof. vm_compute. reflexivity. Qed.

(** ** The calculator *)

(** C4.  Whenever the calculator of the specification answers, the summary
    satisfies the three equations, and the final price is the subtotal
    times one plus the markup over a hundred. *)
Theorem calculator_summary (weeks_per_month : Q)
    (registry : list Calculator.EquipmentItem)
    (req : Calculator.CalculationRequest) (res : Calculator.CalculationResult) :
  Calculator.calculate weeks_per_month registry req = Some res →
  (Calculator.subtotal res
     == Calculator.total_labor_cost res + Calculator.total_tmc_cost res)%Q ∧
  (Calculator.markup_amount res
     == Calculator.subtotal res * Calculator.markup_percent req / 100)%Q ∧
  (Calculator.final_price res
     == Calculator.subtotal res + Calculator.markup_amount res)%Q ∧
  (Calculator.final_price res
     == Calculator.subtotal res * (1 + Calculator.markup_percent req / 100))%Q.
Proof.
  unfold Calculator.calculate. intros H.
  destruct (mapM _ _) as [costs|]; [|done]. injection H as <-. simpl.
  repeat split; try reflexivity. field.
Qed.

(** C4, witness: the example of the specification, with 30/7 weeks in a
    month. *)
Lemma calculator_summary_witness :
  ∃ res, Calculator.calculate (30 # 7) [] Calculator.example_request = Some res ∧
    (Calculator.final_price res
       == Calculator.subtotal res
          * (1 + Calculator.markup_percent Calculator.example_request / 100))%Q.
Proof.
  eexists. split; [reflexivity|].
  eapply (calculator_summary (30 # 7) [] Calculator.example_request).
  reflexivity.
Defined.

(** The figures of that example. *)
Example calculator_example :
  ∃ res, Calculator.calculate (30 # 7) [] Calculator.example_request = Some res ∧
    (Calculator.total_labor_cost res == 300000)%Q ∧
    (Calculator.subtotal res == 300000)%Q ∧
    (Calculator.markup_amount res == 60000)%Q ∧
    (Calculator.final_price res == 360000)%Q ∧
    (Calculator.total_monthly_hours res == 360)%Q ∧
    (∃ rate, Calculator.hourly_rate res = Some rate ∧ (rate == 1000)%Q).
Proof.
  eexists. split; [reflexivity|]. repeat split; try reflexivity.
  eexists. split; reflexivity.
Qed.

(** The calculator answers exactly when every selected item is in the
    registry. *)
Lemma calculator_answers weeks_per_month registry req :
  is_Some (Calculator.calculate weeks_per_month registry req) ↔
  Forall (λ sel, ∃ item, item ∈ registry ∧
                  Calculator.id item = Calculator.item_id sel)
    (Calculator.tmc_items req).
Proof.
  unfold Calculator.calculate.
  assert (Hsel : ∀ sel,
    is_Some (Calculator.selection_cost registry sel) ↔
    ∃ item, item ∈ registry ∧ Calculator.id item = Calculator.item_id sel).
  { intros sel. unfold Calculator.selection_cost. split.
    - intros [q Hq]. destruct (list_find _ registry) as [[i item]|] eqn:Hf;
        [|done].
      apply list_find_Some in Hf as (Hi & Hid & _). exists item.
      split; [by eapply list_elem_of_lookup_2|done].
    - intros (item & Hin & Hid).
      destruct (list_find (λ item, Calculator.id item = Calculator.item_id sel)
                  registry) as [[i x]|] eqn:Hf; [by eexists|].
      apply list_find_None in Hf. rewrite Forall_forall in Hf.
      by destruct (Hf item Hin). }
  rewrite <- (Forall_iff _ _ _ Hsel).
  change (Forall _ (Calculator.tmc_items req))
    with (Forall (is_Some ∘ Calculator.selection_cost registry)
            (Calculator.tmc_items req)).
  rewrite <- mapM_is_Some.
  destruct (mapM _ _) as [costs|]; simpl; [|done].
  split; intros _; by eexists.
Qed.

(** ** Ids are told apart *)

Lemma digits_only_pretty_N_go x s :
  digits_only s = true → digits_only (pretty_N_go x s) = true.
Proof.
  revert s. induction (N.lt_wf_0 x) as [x _ IH]; intros s Hs.
  destruct (decide (x = 0)%N) as [->|Hx]; [by rewrite pretty_N_go_0|].
  rewrite pretty_N_go_step by lia. apply IH; [apply N.div_lt; lia|].
  simpl. rewrite Hs, andb_true_r. apply bool_decide_eq_true_2.
  unfold pretty_N_char. repeat case_match; by eexists.
Qed.

Lemma pretty_N_go_nonempty x s : s ≠ "" → pretty_N_go x s ≠ "".
Proof.
  revert s. induction (N.lt_wf_0 x) as [x _ IH]; intros s Hs.
  destruct (decide (x = 0)%N) as [->|Hx]; [by rewrite pretty_N_go_0|].
  rewrite pretty_N_go_step by lia. apply IH; [apply N.div_lt; lia|done].
Qed.

Lemma decimal_digits n : digits_only (decimal n) = true.
Proof.
  unfold decimal, pretty, pretty_nat, pretty, pretty_N.
  case_decide; [done|]. by apply digits_only_pretty_N_go.
Qed.

Lemma decimal_nonempty n : decimal n ≠ "".
Proof.
  unfold decimal, pretty, pretty_nat, pretty, pretty_N.
  case_decide; [done|].
  rewrite pretty_N_go_step by lia. by apply pretty_N_go_nonempty.
Qed.

Lemma decimal_inj n m : decimal n = decimal m → n = m.
Proof. apply pretty_nat_inj. Qed.

Lemma append_nil_l (s : string) : "" +:+ s = s.
Proof. done. Qed.

Lemma append_cons c (a b : string) : String c a +:+ b = String c (a +:+ b).
Proof. done. Qed.

Ltac push_append := rewrite ?append_cons, ?append_nil_l.
Ltac push_append_in H := rewrite ?append_cons, ?append_nil_l in H.

(** Two strings that start with digits and go on with something else are
    equal only if both parts are. *)
Lemma digits_then_rest d1 d2 r1 r2 :
  digits_only d1 = true → digits_only d2 = true →
  no_leading_digit r1 → no_leading_digit r2 →
  d1 +:+ r1 = d2 +:+ r2 → d1 = d2 ∧ r1 = r2.
Proof.
  revert d2. induction d1 as [|c d1 IH]; intros [|c' d2] H1 H2 Hr1 Hr2 Heq;
    push_append_in Heq; simpl in *.
  - done.
  - subst r1. apply andb_true_iff in H2 as [[x Hx]%bool_decide_eq_true _].
    simpl in Hr1. congruence.
  - subst r2. apply andb_true_iff in H1 as [[x Hx]%bool_decide_eq_true _].
    simpl in Hr2. congruence.
  - injection Heq as -> Heq.
    apply andb_true_iff in H1 as [_ H1]. apply andb_true_iff in H2 as [_ H2].
    destruct (IH d2 H1 H2 Hr1 Hr2 Heq) as [-> ->]. done.
Qed.

Lemma decimal_then_rest n m r1 r2 :
  no_leading_digit r1 → no_leading_digit r2 →
  decimal n +:+ r1 = decimal m +:+ r2 → n = m ∧ r1 = r2.
Proof.
  intros Hr1 Hr2 Heq.
  destruct (digits_then_rest _ _ _ _ (decimal_digits n) (decimal_digits m)
              Hr1 Hr2 Heq) as [Hd Hr].
  split; [by apply decimal_inj|done].
Qed.

Lemma append_assoc (a b c : string) : (a +:+ b) +:+ c = a +:+ (b +:+ c).
Proof. induction a as [|x a IH]; push_append; [done|]. by rewrite IH. Qed.

Lemma append_empty_r (a : string) : a +:+ "" = a.
Proof. induction a as [|x a IH]; push_append; [done|]. by rewrite IH. Qed.

Lemma field_suffix_inj f1 f2 : field_suffix f1 = field_suffix f2 → f1 = f2.
Proof. by destruct f1, f2. Qed.

Lemma show_staff_family i :
  staff_family i → show i = "staff-" +:+ decimal (owner i) +:+ staff_tail i.
Proof.
  destruct i; try done; intros _; unfold show, staff_id, staff_tail, owner.
  - by rewrite append_empty_r.
  - by rewrite !append_assoc.
Qed.

Lemma staff_tail_no_digit i : no_leading_digit (staff_tail i).
Proof. by destruct i. Qed.

Lemma staff_tail_inj i j :
  staff_family i → staff_family j → owner i = owner j →
  staff_tail i = staff_tail j → i = j.
Proof.
  assert (Hsuffix : ∀ fld, no_leading_digit (field_suffix fld))
    by (by intros []).
  destruct i as [?|?|?|n1|n1 k|n1 k fld], j as [?|?|?|n2|n2 k'|n2 k' fld'];
    simpl; intros Hi Hj Hn Heq; try done; subst;
    unfold staff_tail in Heq; push_append_in Heq;
    try discriminate Heq; try done; injection Heq as Heq.
  - by rewrite (decimal_inj _ _ Heq).
  - rewrite <- (append_empty_r (decimal k)) in Heq.
    apply decimal_then_rest in Heq as [_ Heq]; [by destruct fld'|done..].
  - rewrite <- (append_empty_r (decimal k')) in Heq.
    apply decimal_then_rest in Heq as [_ Heq]; [by destruct fld|done..].
  - apply decimal_then_rest in Heq as [-> Heq]; [|done..].
    by rewrite (field_suffix_inj _ _ Heq).
Qed.

Lemma show_inj_family i j :
  staff_family i → staff_family j → show i = show j → i = j.
Proof.
  intros Fi Fj Heq.
  rewrite (show_staff_family i Fi), (show_staff_family j Fj) in Heq.
  push_append_in Heq. injection Heq as Heq.
  apply decimal_then_rest in Heq as [Hn Ht]; [|apply staff_tail_no_digit..].
  by apply staff_tail_inj.
Qed.

Lemma show_inj i j : show i = show j → i = j.
Proof.
  intros Heq.
  destruct i as [n|n|n|n|n k|n k fld], j as [m|m|m|m|m k'|m k' fld'];
    try (by apply show_inj_family);
    try (unfold show, staff_id in Heq; push_append_in Heq; discriminate Heq);
    unfold show in Heq; push_append_in Heq; injection Heq as Heq;
    by rewrite (decimal_inj _ _ Heq).
Qed.

Lemma show_nonempty i : show i ≠ "".
Proof. destruct i; unfold show, staff_id; by push_append. Qed.

(** ** Walking the page of a form *)

Lemma modify_none P g doc k :
  matching P (elements doc) = [] → modify P g k doc = Missing k.
Proof.
  intros Hnone. pose proof (modify_spec P g doc k 0) as H.
  unfold modify_post in H. rewrite <- (elements_rows 0), Hnone in H.
  destruct (modify P g k doc) as [doc'|k'].
  - destruct H as (r1 & x & dx & r2 & Hr & Hx & _).
    rewrite (elements_rows 0), Hr, !fmap_app, !matching_app in Hnone.
    rewrite <- flatten_rows, flatten_eq, matching_cons, Hx in Hnone.
    by destruct (matching P r1.*2).
  - f_equal. simpl in H. lia.
Qed.

Lemma modify_node_none P g n k :
  matching P (flatten n) = [] → modify_node P g k n = Missing k.
Proof.
  intros Hnone. pose proof (modify_none P g [n] k) as H.
  rewrite elements_single in H. specialize (H Hnone). cbn [modify] in H.
  by destruct (modify_node P g k n).
Qed.

(** The walk passes over what holds no matching element. *)
Lemma modify_app P g k l1 l2 :
  matching P (elements l1) = [] →
  modify P g k (l1 ++ l2) =
  match modify P g k l2 with
  | Found d => Found (l1 ++ d)
  | Missing k' => Missing k'
  end.
Proof.
  induction l1 as [|n l1 IH]; intros Hnone.
  { simpl. by destruct (modify P g k l2). }
  change (elements (n :: l1)) with (flatten n ++ elements l1) in Hnone.
  rewrite matching_app in Hnone.
  apply app_eq_nil in Hnone as [Hn Hl1].
  cbn [app modify]. rewrite (modify_node_none _ _ _ _ Hn), (IH Hl1).
  by destruct (modify P g k l2).
Qed.

Lemma matching_nil_Forall P l :
  matching P l = [] ↔ Forall (λ n, P n = false) l.
Proof.
  induction l as [|n l IH]; [by split|].
  rewrite matching_cons, Forall_cons, <- IH. destruct (P n).
  - split; [done|]. by intros [? _].
  - split; [done|]. by intros [_ ?].
Qed.

Lemma has_id_false s e : elemId e ≠ s → has_id s e = false.
Proof. intros H. apply bool_decide_eq_false_2. by intros [_ ?]. Qed.

Lemma has_id_noid s e : elemId e = "" → has_id s e = false.
Proof. intros H. apply bool_decide_eq_false_2. rewrite H. by intros [? ?]. Qed.

Lemma has_id_at i j e :
  elemId e = show j → has_id (show i) e = bool_decide (j = i).
Proof.
  intros H. unfold has_id. rewrite H. apply bool_decide_ext. split.
  - intros [_ Heq]. by apply show_inj.
  - intros ->. split; [apply show_nonempty|done].
Qed.

Arguments decimal : simpl never.
Arguments show : simpl never.

Lemma elements_cons_flatten n doc :
  elements (n :: doc) = flatten n ++ elements doc.
Proof. done. Qed.

(** The walk through the page goes through the post cards first and then
    through the rest. *)
Lemma modify_page P g k cards tmc m rep :
  (∀ kids, P (element "div" "calculator-tab" ["tab-content"; "active"] ""
                kids) = false) →
  (∀ kids, P (element "div" "posts-container" [] "" kids) = false) →
  modify P g k (page cards tmc m rep) =
  match modify P g k cards with
  | Found cards' => Found (page cards' tmc m rep)
  | Missing k1 =>
      match modify P g k1 (page_rest tmc m rep) with
      | Found rest' =>
          Found [element "div" "calculator-tab" ["tab-content"; "active"] ""
                   (element "div" "posts-container" [] "" cards :: rest')]
      | Missing k2 => Missing k2
      end
  end.
Proof.
  intros Hroot Hcont. unfold page. cbn [modify].
  rewrite modify_node_eq, Hroot. cbn [children element]. cbn [modify].
  rewrite modify_node_eq. fold (element "div" "posts-container" [] "" cards).
  rewrite Hcont. cbn [children element].
  destruct (modify P g k cards) as [cards'|k1]; [done|].
  by destruct (modify P g k1 _).
Qed.

Lemma show_not_static i :
  show i ≠ "calculator-tab" ∧ show i ≠ "posts-container" ∧
  show i ≠ "tmc-selection" ∧ show i ≠ "markup" ∧ show i ≠ "result" ∧
  (∀ item, show i ≠ "tmc-check-" +:+ decimal item) ∧
  (∀ item, show i ≠ "tmc-qty-" +:+ decimal item).
Proof.
  destruct i; unfold show, staff_id; push_append;
    repeat split; try intros ?; discriminate.
Qed.

Lemma tmc_element_not_shown i e :
  tmc_element e → has_id (show i) e = false.
Proof.
  destruct (show_not_static i) as (_ & _ & _ & _ & _ & Hc & Hq).
  intros [[Hid|[item [Hid|Hid]]] _].
  - by apply has_id_noid.
  - apply has_id_false. rewrite Hid. intros Heq. by apply (Hc item).
  - apply has_id_false. rewrite Hid. intros Heq. by apply (Hq item).
Qed.

Lemma page_rest_not_shown i g k tmc m rep :
  Forall tmc_element (elements tmc) →
  modify (has_id (show i)) g k (page_rest tmc m rep) = Missing k.
Proof.
  intros Htmc. apply modify_none, matching_nil_Forall.
  destruct (show_not_static i) as (_ & _ & Hsel & Hmark & Hres & _).
  unfold page_rest. rewrite elements_cons_flatten, flatten_eq.
  cbn [children element]. constructor; [by apply has_id_false|].
  apply Forall_app. split.
  { eapply Forall_impl; [exact Htmc|]. intros e. apply tmc_element_not_shown. }
  destruct rep; repeat constructor;
    first [by apply has_id_false | by apply has_id_noid].
Qed.

(** For an id of the post family the walk is decided among the cards. *)
Lemma modify_render_shown i g f :
  Forall tmc_element (elements (form_tmc f)) →
  modify (has_id (show i)) g 0 (render f) =
  match modify (has_id (show i)) g 0 (render_card <$> form_cards f) with
  | Found cards' =>
      Found (page cards' (form_tmc f) (form_markup f) (form_report f))
  | Missing k => Missing k
  end.
Proof.
  intros Htmc. unfold render.
  destruct (show_not_static i) as (Hroot & Hcont & _).
  rewrite modify_page by (intros; by apply has_id_false).
  destruct (modify _ g 0 (render_card <$> _)) as [|k1]; [done|].
  by rewrite page_rest_not_shown.
Qed.

Lemma modify_alter_first {A} (R : A → node) P g (u : A → option (list A)) l :
  (∀ x, modify_node P g 0 (R x) =
        match u x with
        | Some xs => Found (R <$> xs)
        | None => Missing 0
        end) →
  modify P g 0 (R <$> l) =
  match alter_first u l with
  | Some l' => Found (R <$> l')
  | None => Missing 0
  end.
Proof.
  intros Hu. induction l as [|x l IH]; [done|].
  rewrite fmap_cons. cbn [modify alter_first]. rewrite (Hu x).
  destruct (u x) as [xs|].
  - by rewrite fmap_app.
  - rewrite IH. by destruct (alter_first u l).
Qed.

(** The elements of a card: those before the staff groups, the groups, and
    the button after them. *)
Lemma flatten_post_card n t h d groups :
  flatten (post_card_with n t h d groups) =
  take 13 (flatten (post_card_with n t h d groups))
  ++ elements groups
  ++ [element "button" "" ["btn"; "btn-secondary"]
        "➕ Добавить группу персонала" []].
Proof. reflexivity. Qed.

Lemma Forall_flatten_card (Q : node → Prop) n t h d groups :
  Forall Q (take 13 (flatten (post_card_with n t h d groups))) →
  Forall Q (elements groups) →
  Q (element "button" "" ["btn"; "btn-secondary"]
       "➕ Добавить группу персонала" []) →
  Forall Q (flatten (post_card_with n t h d groups)).
Proof.
  intros H1 H2 H3. rewrite flatten_post_card.
  apply Forall_app; split; [done|]. apply Forall_app; split; [done|].
  by constructor.
Qed.

Lemma elements_fmap {A} (R : A → node) (Q : node → Prop) (l : list A) :
  (∀ x, x ∈ l → Forall Q (flatten (R x))) → Forall Q (elements (R <$> l)).
Proof.
  induction l as [|x l IH]; intros H; [constructor|].
  rewrite fmap_cons, elements_cons_flatten. apply Forall_app. split.
  - apply H. by left.
  - apply IH. intros y Hy. apply H. by right.
Qed.

(** The idents of a staff group and of a card. *)
Lemma staff_group_ids (Q : node → Prop) n r :
  (∀ e, elemId e = "" → Q e) →
  (∀ e j, elemId e = show j → owner j = n →
          (∃ fld, j = StaffFieldId n (row_k r) fld) ∨ j = StaffGroupId n (row_k r) →
          Q e) →
  Forall Q (flatten (render_staff n r)).
Proof.
  intros Hnoid Hid. unfold render_staff, staff_group_with.
  repeat constructor;
    first
      [ by apply Hnoid
      | by apply (Hid _ (StaffGroupId n (row_k r))); [| |right]
      | by apply (Hid _ (StaffFieldId n (row_k r) Position)); [| |left; eexists]
      | by apply (Hid _ (StaffFieldId n (row_k r) Count)); [| |left; eexists]
      | by apply (Hid _ (StaffFieldId n (row_k r) Salary)); [| |left; eexists] ].
Qed.

Ltac decide_has_id :=
  match goal with
  | |- context [has_id (show ?i) ?e] =>
      first
      [ rewrite (has_id_noid (show i) e) by reflexivity
      | erewrite (has_id_at i (PostId _) e) by reflexivity
      | erewrite (has_id_at i (HoursId _) e) by reflexivity
      | erewrite (has_id_at i (DaysId _) e) by reflexivity
      | erewrite (has_id_at i (StaffBoxId _) e) by reflexivity
      | erewrite (has_id_at i (StaffGroupId _ _) e) by reflexivity
      | erewrite (has_id_at i (StaffFieldId _ _ Position) e) by reflexivity
      | erewrite (has_id_at i (StaffFieldId _ _ Count) e) by reflexivity
      | erewrite (has_id_at i (StaffFieldId _ _ Salary) e) by reflexivity ];
      first
      [ rewrite bool_decide_eq_true_2 by reflexivity
      | rewrite bool_decide_eq_false_2 by congruence
      | idtac ]
  end.

Ltac walk :=
  repeat first
    [ rewrite modify_node_eq
    | decide_has_id
    | progress cbn [modify children element input set_children set_value
                    app] ].

Lemma modify_card_hours n t h d groups v :
  modify_node (has_id (show (HoursId n))) (λ x, [set_value v x]) 0
    (post_card_with n t h d groups)
  = Found [post_card_with n t v d groups].
Proof. unfold post_card_with. walk. reflexivity. Qed.

Lemma modify_card_days n t h d groups v :
  modify_node (has_id (show (DaysId n))) (λ x, [set_value v x]) 0
    (post_card_with n t h d groups)
  = Found [post_card_with n t h v groups].
Proof. unfold post_card_with. walk. reflexivity. Qed.

Lemma modify_card_box n t h d groups c :
  modify_node (has_id (show (StaffBoxId n)))
    (λ x, [set_children (children x ++ [c]) x]) 0
    (post_card_with n t h d groups)
  = Found [post_card_with n t h d (groups ++ [c])].
Proof. unfold post_card_with. walk. reflexivity. Qed.

Lemma modify_card_itself n t h d groups g :
  modify_node (has_id (show (PostId n))) g 0 (post_card_with n t h d groups)
  = Found (g (post_card_with n t h d groups)).
Proof. unfold post_card_with. walk. reflexivity. Qed.

(** An id of a staff group or of one of its fields is looked for among the
    staff groups of its card. *)
Lemma modify_card_groups i n t h d groups g :
  owner i = n → (∃ k, i = StaffGroupId n k) ∨ (∃ k fld, i = StaffFieldId n k fld) →
  modify_node (has_id (show i)) g 0 (post_card_with n t h d groups) =
  match modify (has_id (show i)) g 0 groups with
  | Found groups' => Found [post_card_with n t h d groups']
  | Missing k' => Missing k'
  end.
Proof.
  intros Hn Hi. unfold post_card_with.
  destruct Hi as [[k ->]|(k & fld & ->)]; walk;
    (destruct (modify _ g 0 groups) as [groups'|k']; [done|]); walk;
    reflexivity.
Qed.

Lemma modify_group_itself n r g :
  modify_node (has_id (show (StaffGroupId n (row_k r)))) g 0 (render_staff n r)
  = Found (g (render_staff n r)).
Proof. unfold render_staff, staff_group_with. walk. reflexivity. Qed.

Lemma modify_group_field n r fld v :
  modify_node (has_id (show (StaffFieldId n (row_k r) fld)))
    (λ x, [set_value v x]) 0 (render_staff n r)
  = Found [render_staff n (with_field fld v r)].
Proof.
  unfold render_staff, staff_group_with. destruct fld; walk; reflexivity.
Qed.

Lemma group_no_match i n r :
  i ≠ StaffGroupId n (row_k r) → (∀ fld, i ≠ StaffFieldId n (row_k r) fld) →
  matching (has_id (show i)) (flatten (render_staff n r)) = [].
Proof.
  intros Hg Hf. apply matching_nil_Forall, staff_group_ids.
  - intros e He. by apply has_id_noid.
  - intros e j He _ [[fld ->]| ->]; rewrite (has_id_at _ _ _ He);
      apply bool_decide_eq_false_2; [apply not_eq_sym, Hf|by apply not_eq_sym].
Qed.

Lemma card_ids (Q : node → Prop) c :
  (∀ e, elemId e = "" → Q e) →
  (∀ e j, elemId e = show j → owner j = card_id c → Q e) →
  Forall Q (flatten (render_card c)).
Proof.
  intros Hnoid Hid. unfold render_card. apply Forall_flatten_card.
  - cbn. repeat constructor;
      first
        [ by apply Hnoid
        | by apply (Hid _ (PostId (card_id c)))
        | by apply (Hid _ (HoursId (card_id c)))
        | by apply (Hid _ (DaysId (card_id c)))
        | by apply (Hid _ (StaffBoxId (card_id c))) ].
  - apply elements_fmap. intros r _. apply staff_group_ids; [done|].
    intros e j He Hj _. by apply (Hid e j).
  - by apply Hnoid.
Qed.

Lemma card_no_match i c :
  owner i ≠ card_id c → matching (has_id (show i)) (flatten (render_card c)) = [].
Proof.
  intros Hn. apply matching_nil_Forall, card_ids.
  - intros e He. by apply has_id_noid.
  - intros e j He Hj. rewrite (has_id_at _ _ _ He).
    apply bool_decide_eq_false_2. intros ->. done.
Qed.

Lemma card_foreign s c :
  (∀ j, show j ≠ s) → matching (has_id s) (flatten (render_card c)) = [].
Proof.
  intros Hs. apply matching_nil_Forall, card_ids.
  - intros e He. by apply has_id_noid.
  - intros e j He _. apply has_id_false. rewrite He. apply Hs.
Qed.

(** ** The actions on the page and on the form *)

(** A walk for an id of the post family, read on the form. *)
Lemma modify_on_cards i g u f :
  Forall tmc_element (elements (form_tmc f)) →
  (∀ c, modify_node (has_id (show i)) g 0 (render_card c) =
        match u c with
        | Some cs => Found (render_card <$> cs)
        | None => Missing 0
        end) →
  modify (has_id (show i)) g 0 (render f) =
  match alter_first u (form_cards f) with
  | Some cards => Found (render (with_cards cards f))
  | None => Missing 0
  end.
Proof.
  intros Htmc Hu. rewrite modify_render_shown by done.
  rewrite (modify_alter_first render_card _ _ u) by done.
  by destruct (alter_first u (form_cards f)).
Qed.

Lemma modify_in_card i g n u c :
  owner i = n →
  (card_id c = n →
   modify_node (has_id (show i)) g 0 (render_card c) =
   match u c with
   | Some cs => Found (render_card <$> cs)
   | None => Missing 0
   end) →
  modify_node (has_id (show i)) g 0 (render_card c) =
  match in_card n u c with
  | Some cs => Found (render_card <$> cs)
  | None => Missing 0
  end.
Proof.
  intros Hi Hu. unfold in_card. case_decide as Hc; [by apply Hu|].
  apply modify_node_none, card_no_match. congruence.
Qed.

Lemma modify_on_rows i g n u c :
  owner i = n → card_id c = n →
  (∃ k, i = StaffGroupId n k) ∨ (∃ k fld, i = StaffFieldId n k fld) →
  (∀ r, modify_node (has_id (show i)) g 0 (render_staff n r) =
        match u r with
        | Some rs => Found (render_staff n <$> rs)
        | None => Missing 0
        end) →
  modify_node (has_id (show i)) g 0 (render_card c) =
  match on_rows u c with
  | Some cs => Found (render_card <$> cs)
  | None => Missing 0
  end.
Proof.
  intros Hi <- Hkind Hu. unfold render_card.
  rewrite (modify_card_groups i (card_id c)) by done.
  rewrite (modify_alter_first (render_staff (card_id c)) _ _ u) by done.
  unfold on_rows. by destruct (alter_first u (card_staff c)) as [rows|].
Qed.

Lemma modify_in_row i g n k u r :
  (∃ fld, i = StaffFieldId n k fld) ∨ i = StaffGroupId n k →
  (row_k r = k →
   modify_node (has_id (show i)) g 0 (render_staff n r) =
   match u r with
   | Some rs => Found (render_staff n <$> rs)
   | None => Missing 0
   end) →
  modify_node (has_id (show i)) g 0 (render_staff n r) =
  match in_row k u r with
  | Some rs => Found (render_staff n <$> rs)
  | None => Missing 0
  end.
Proof.
  intros Hi Hu. unfold in_row. case_decide as Hk; [by apply Hu|].
  apply modify_node_none, group_no_match.
  - destruct Hi as [[fld ->]| ->]; [done|]. congruence.
  - intros fld. destruct Hi as [[fld' ->]| ->]; [|done]. congruence.
Qed.

Lemma type_value_found s v doc doc' :
  modify (has_id s) (λ x, [set_value v x]) 0 doc = Found doc' →
  type_value s v doc = doc'.
Proof. unfold type_value. by intros ->. Qed.

Lemma type_value_missing s v doc k :
  modify (has_id s) (λ x, [set_value v x]) 0 doc = Missing k →
  type_value s v doc = doc.
Proof. unfold type_value. by intros ->. Qed.

Lemma type_hours_render n v f :
  Forall tmc_element (elements (form_tmc f)) →
  type_value ("hours-" +:+ decimal n) v (render f)
  = render (on_cards (in_card n (λ c, Some [with_hours v c])) f).
Proof.
  intros Htmc. unfold type_value, on_cards.
  change ("hours-" +:+ decimal n) with (show (HoursId n)).
  rewrite (modify_on_cards _ _ (in_card n (λ c, Some [with_hours v c])));
    [by destruct (alter_first _ _)|done|].
  intros c. apply modify_in_card; [done|]. intros <-.
  unfold render_card. by rewrite modify_card_hours.
Qed.

Lemma type_days_render n v f :
  Forall tmc_element (elements (form_tmc f)) →
  type_value ("days-" +:+ decimal n) v (render f)
  = render (on_cards (in_card n (λ c, Some [with_days v c])) f).
Proof.
  intros Htmc. unfold type_value, on_cards.
  change ("days-" +:+ decimal n) with (show (DaysId n)).
  rewrite (modify_on_cards _ _ (in_card n (λ c, Some [with_days v c])));
    [by destruct (alter_first _ _)|done|].
  intros c. apply modify_in_card; [done|]. intros <-.
  unfold render_card. by rewrite modify_card_days.
Qed.

Lemma type_staff_render n k fld v f :
  Forall tmc_element (elements (form_tmc f)) →
  type_value (staff_id n k +:+ field_suffix fld) v (render f)
  = render (on_cards
              (in_card n (on_rows (in_row k (λ r, Some [with_field fld v r]))))
              f).
Proof.
  intros Htmc. unfold type_value, on_cards.
  change (staff_id n k +:+ field_suffix fld) with (show (StaffFieldId n k fld)).
  rewrite (modify_on_cards _ _
             (in_card n (on_rows (in_row k (λ r, Some [with_field fld v r])))));
    [by destruct (alter_first _ _)|done|].
  intros c. apply modify_in_card; [done|]. intros Hc.
  apply (modify_on_rows _ _ n); [done|done|right; by exists k, fld|].
  intros r. apply modify_in_row; [left; by exists fld|]. intros <-.
  apply modify_group_field.
Qed.

Lemma remove_staff_render n k f :
  Forall tmc_element (elements (form_tmc f)) →
  default (render f) (remove_by_id (staff_id n k) (render f))
  = render (on_cards (in_card n (on_rows (in_row k (λ _, Some [])))) f).
Proof.
  intros Htmc. unfold remove_by_id, on_cards.
  change (staff_id n k) with (show (StaffGroupId n k)).
  rewrite (modify_on_cards _ _
             (in_card n (on_rows (in_row k (λ _, Some [])))));
    [by destruct (alter_first _ _)|done|].
  intros c. apply modify_in_card; [done|]. intros Hc.
  apply (modify_on_rows _ _ n); [done|done|left; by exists k|].
  intros r. apply modify_in_row; [by right|]. intros <-.
  apply modify_group_itself.
Qed.

Lemma add_staff_render n k f :
  Forall tmc_element (elements (form_tmc f)) →
  appendChild_by_id ("staff-" +:+ decimal n) (staff_group (staff_id n k))
    (render f)
  = (λ cards, render (with_cards cards f)) <$>
      alter_first
        (in_card n (λ c, Some [with_staff (card_staff c ++ [new_row k]) c]))
        (form_cards f).
Proof.
  intros Htmc. unfold appendChild_by_id.
  change ("staff-" +:+ decimal n) with (show (StaffBoxId n)).
  rewrite (modify_on_cards _ _
    (in_card n (λ c, Some [with_staff (card_staff c ++ [new_row k]) c])));
    [by destruct (alter_first _ _)|done|].
  intros c. apply modify_in_card; [done|]. intros <-.
  unfold render_card. rewrite modify_card_box. simpl.
  by rewrite fmap_app.
Qed.

Lemma remove_post_render n f :
  Forall tmc_element (elements (form_tmc f)) →
  remove_by_id ("post-" +:+ decimal n) (render f)
  = (λ cards, render (with_cards cards f)) <$>
      alter_first (in_card n (λ _, Some [])) (form_cards f).
Proof.
  intros Htmc. unfold remove_by_id.
  change ("post-" +:+ decimal n) with (show (PostId n)).
  rewrite (modify_on_cards _ _ (in_card n (λ _, Some [])));
    [by destruct (alter_first _ _)|done|].
  intros c. apply modify_in_card; [done|]. intros <-.
  unfold render_card. by rewrite modify_card_itself.
Qed.

(** *** The parts of the page outside the posts *)

Lemma append_post_render c cards tmc m rep :
  appendChild_by_id "posts-container" c (page cards tmc m rep)
  = Some (page (cards ++ [c]) tmc m rep).
Proof. reflexivity. Qed.

Lemma elements_page cards tmc m rep :
  elements (page cards tmc m rep) =
  [element "div" "calculator-tab" ["tab-content"; "active"] ""
     (element "div" "posts-container" [] "" cards :: page_rest tmc m rep);
   element "div" "posts-container" [] "" cards]
  ++ elements cards
  ++ element "div" "tmc-selection" [] "" tmc :: elements tmc
  ++ [input "markup" m; element "button" "" ["btn"; "btn-primary"] "" [];
      result_div rep].
Proof. unfold page. rewrite elements_single. by destruct rep. Qed.

(** An id that is not of the post family matches nothing among the cards. *)
Lemma cards_foreign s g k (cards : list CardRow) :
  (∀ j, show j ≠ s) →
  modify (has_id s) g k (render_card <$> cards) = Missing k.
Proof.
  intros Hs. apply modify_none, matching_nil_Forall.
  apply elements_fmap. intros c _. apply matching_nil_Forall.
  by apply card_foreign.
Qed.

Lemma static_not_shown s :
  s ∈ ["tmc-selection"; "markup"; "result"] ∨
  (∃ item, s = "tmc-check-" +:+ decimal item ∨ s = "tmc-qty-" +:+ decimal item) →
  ∀ j, show j ≠ s.
Proof.
  intros Hs j. destruct (show_not_static j) as (_ & _ & H1 & H2 & H3 & H4 & H5).
  destruct Hs as [Hs|[item [-> | ->]]]; [|done..].
  repeat (apply elem_of_cons in Hs as [->|Hs]; [done|]).
  by apply elem_of_nil in Hs.
Qed.

Lemma tmc_element_other s e :
  s ∈ ["markup"; "result"] → tmc_element e → has_id s e = false.
Proof.
  intros Hs [[Hid|[item [Hid|Hid]]] _]; [by apply has_id_noid|..];
    apply has_id_false; rewrite Hid;
    repeat (apply elem_of_cons in Hs as [->|Hs]; [by push_append|]);
    by apply elem_of_nil in Hs.
Qed.

Lemma tmc_other s g k tmc :
  s ∈ ["markup"; "result"] → Forall tmc_element (elements tmc) →
  modify (has_id s) g k tmc = Missing k.
Proof.
  intros Hs Htmc. apply modify_none, matching_nil_Forall.
  eapply Forall_impl; [exact Htmc|]. intros e. by apply tmc_element_other.
Qed.

Lemma load_tmc_render rows f :
  found (modify (has_id "tmc-selection") (λ n, [set_children rows n]) 0
           (render f))
  = Some (render (with_tmc rows f)).
Proof.
  unfold render. rewrite modify_page by done.
  rewrite cards_foreign by (apply static_not_shown; left; repeat constructor).
  reflexivity.
Qed.

Lemma type_markup_render v f :
  Forall tmc_element (elements (form_tmc f)) →
  type_value "markup" v (render f)
  = render {| form_cards := form_cards f; form_tmc := form_tmc f;
              form_markup := v; form_report := form_report f |}.
Proof.
  intros Htmc. unfold type_value, render. rewrite modify_page by done.
  rewrite cards_foreign by (apply static_not_shown; left; repeat constructor).
  unfold page_rest. cbn [modify]. rewrite modify_node_eq.
  change (has_id "markup" _) with false. cbn [children element].
  rewrite tmc_other by (done || (repeat constructor)). reflexivity.
Qed.

Lemma display_render r f :
  Forall tmc_element (elements (form_tmc f)) →
  displayResult r (render f)
  = Ok (render {| form_cards := form_cards f; form_tmc := form_tmc f;
                  form_markup := form_markup f; form_report := Some r |}).
Proof.
  intros Htmc. unfold displayResult, render. rewrite modify_page by done.
  rewrite cards_foreign by (apply static_not_shown; left; repeat constructor).
  unfold page_rest. cbn [modify]. rewrite modify_node_eq.
  change (has_id "result" _) with false. cbn [children element].
  rewrite tmc_other by (done || (repeat constructor)).
  by destruct (form_report f).
Qed.

(** A change inside the equipment selection. *)
Lemma tmc_id_not_static s :
  (∃ item, s = "tmc-check-" +:+ decimal item ∨ s = "tmc-qty-" +:+ decimal item) →
  "calculator-tab" ≠ s ∧ "posts-container" ≠ s ∧ "tmc-selection" ≠ s ∧
  "markup" ≠ s ∧ "result" ≠ s.
Proof. intros [item [-> | ->]]; by push_append. Qed.

Lemma modify_tmc_render s g f :
  (∃ item, s = "tmc-check-" +:+ decimal item ∨ s = "tmc-qty-" +:+ decimal item) →
  default (render f) (found (modify (has_id s) g 0 (render f)))
  = render (with_tmc (default (form_tmc f)
                        (found (modify (has_id s) g 0 (form_tmc f)))) f).
Proof.
  intros Hs. unfold render.
  destruct (tmc_id_not_static s Hs) as (H1 & H2 & H3 & H4 & H5).
  rewrite modify_page by (intros; by apply has_id_false).
  rewrite cards_foreign by (apply static_not_shown; by right).
  unfold page_rest. cbn [modify]. rewrite modify_node_eq.
  rewrite (has_id_false s (element "div" "tmc-selection" _ _ _)) by done.
  cbn [children element].
  destruct (modify (has_id s) g 0 (form_tmc f)) as [tmc'|k]; [done|].
  rewrite modify_node_eq, (has_id_false s (input "markup" _)) by done.
  cbn [children input modify].
  rewrite modify_node_eq, (has_id_noid s) by done. cbn [children element modify].
  rewrite modify_node_eq, (has_id_false s (result_div _))
    by (by destruct (form_report f)).
  cbn [with_tmc form_cards form_tmc form_markup form_report default found
       from_option].
  by destruct (form_report f).
Qed.

(** A property of single elements that holds all over the page still holds
    after a walk, when the replacement keeps it. *)
Lemma modify_keeps (Q : node → Prop) P g k doc doc' :
  (∀ n, Q (shallow n) → Q n) → (∀ n, Q n → Q (shallow n)) →
  (∀ x, Forall Q (flatten x) → Forall Q (elements (g x))) →
  Forall Q (elements doc) →
  modify P g k doc = Found doc' →
  Forall Q (elements doc').
Proof.
  intros Hin Hout Hg Hdoc Hm.
  pose proof (modify_spec P g doc k 0) as H. rewrite Hm in H.
  destruct H as (r1 & x & dx & r2 & Hr & _ & _ & Ho).
  rewrite (elements_rows 0), Hr, !fmap_app, <- flatten_rows in Hdoc.
  apply Forall_app in Hdoc as [H1 Hdoc]. apply Forall_app in Hdoc as [Hx H2].
  assert (Hsh : ∀ l, Forall Q l → Forall Q (shallow <$> l)).
  { intros l Hl. apply Forall_fmap. eapply Forall_impl; [exact Hl|]. done. }
  assert (Forall Q (shallow <$> elements doc')) as Hall.
  { rewrite (elements_rows 0 doc'), <- outline_of_snd.
    fold (outline 0 doc'). rewrite Ho, !fmap_app, !outline_of_snd.
    unfold outline. rewrite outline_of_snd, <- (elements_rows dx).
    repeat (apply Forall_app; split); auto. }
  rewrite Forall_fmap in Hall. eapply Forall_impl; [exact Hall|].
  intros e. apply Hin.
Qed.

Lemma tmc_element_shallow e : tmc_element (shallow e) ↔ tmc_element e.
Proof. done. Qed.

Lemma tmc_keeps_value s v tmc :
  Forall tmc_element (elements tmc) →
  Forall tmc_element (elements (type_value s v tmc)).
Proof.
  intros Htmc. unfold type_value.
  destruct (modify _ _ 0 tmc) as [tmc'|] eqn:Hm; [|done]. simpl.
  eapply (modify_keeps tmc_element); [..|exact Hm]; try done.
  intros x Hx. cbv beta. rewrite elements_single, flatten_eq.
  rewrite flatten_eq in Hx. apply Forall_cons in Hx as [H1 H2].
  by constructor.
Qed.

Lemma tmc_keeps_tick s b tmc :
  Forall tmc_element (elements tmc) →
  Forall tmc_element (elements (tick s b tmc)).
Proof.
  intros Htmc. unfold tick.
  destruct (modify _ _ 0 tmc) as [tmc'|] eqn:Hm; [|done]. simpl.
  eapply (modify_keeps tmc_element); [..|exact Hm]; try done.
  intros x Hx. cbv beta. rewrite elements_single, flatten_eq.
  rewrite flatten_eq in Hx. apply Forall_cons in Hx as [H1 H2].
  by constructor.
Qed.

Lemma tmc_rows_elements items :
  Forall plain_item items → Forall tmc_element (elements (tmc_rows items)).
Proof.
  intros Hplain.
  assert (Hrow : ∀ item, plain_item item →
                   Forall tmc_element (flatten (tmc_checkbox item))).
  { intros item [Hitem _]. unfold tmc_checkbox. rewrite Hitem. cbn.
    repeat (apply Forall_cons; split;
            [split; [|done];
             first [by left | right; exists (tmc_id item); by left
                   | right; exists (tmc_id item); by right]|]).
    constructor. }
  destruct items as [|item items].
  - cbn. by repeat constructor.
  - unfold tmc_rows. apply elements_fmap. intros x Hx. apply Hrow.
    by apply (proj1 (Forall_forall _ _) Hplain).
Qed.

(** *** Post cards and titles *)

Lemma staff_groups_class c n (rows : list StaffRow) :
  c ∈ ["post-card"; "post-title"] →
  matching (has_class c) (elements (render_staff n <$> rows)) = [].
Proof.
  intros Hc. apply matching_nil_Forall, elements_fmap. intros r _.
  unfold render_staff, staff_group_with. cbn.
  repeat (apply elem_of_cons in Hc as [->|Hc]; [by repeat constructor|]).
  by apply elem_of_nil in Hc.
Qed.

Lemma card_class_post_card c :
  matching (has_class "post-card") (flatten (render_card c)) = [render_card c].
Proof.
  unfold render_card. rewrite flatten_post_card, !matching_app.
  rewrite staff_groups_class by (by left). reflexivity.
Qed.

Lemma card_class_post_title c :
  textContent <$> matching (has_class "post-title") (flatten (render_card c))
  = [card_title c].
Proof.
  unfold render_card. rewrite flatten_post_card, !matching_app.
  rewrite staff_groups_class by (right; by left). reflexivity.
Qed.

Lemma tmc_no_class c tmc :
  c ∈ ["post-card"; "post-title"; "staff-group"] →
  Forall tmc_element (elements tmc) →
  matching (has_class c) (elements tmc) = [].
Proof.
  intros Hc Htmc. apply matching_nil_Forall.
  eapply Forall_impl; [exact Htmc|]. intros e (_ & H1 & H2 & H3).
  repeat (apply elem_of_cons in Hc as [->|Hc]; [done|]).
  by apply elem_of_nil in Hc.
Qed.

Lemma page_rest_no_class c tmc m rep :
  c ∈ ["post-card"; "post-title"; "staff-group"] →
  Forall tmc_element (elements tmc) →
  matching (has_class c) (elements (page_rest tmc m rep)) = [].
Proof.
  intros Hc Htmc.
  change (elements (page_rest tmc m rep))
    with (element "div" "tmc-selection" [] "" tmc
          :: elements tmc ++ elements (drop 1 (page_rest tmc m rep))).
  rewrite matching_cons, matching_app, tmc_no_class by done.
  repeat (apply elem_of_cons in Hc as [->|Hc]; [by destruct rep|]).
  by apply elem_of_nil in Hc.
Qed.

Lemma querySelectorAll_post_card f :
  Forall tmc_element (elements (form_tmc f)) →
  querySelectorAll "post-card" (render f) = render_card <$> form_cards f.
Proof.
  intros Htmc. rewrite querySelectorAll_matching. unfold render.
  rewrite elements_page. cbn [app]. rewrite !matching_cons.
  do 2 change (has_class "post-card" (element _ _ _ _ _)) with false.
  cbv iota. rewrite matching_app, matching_cons, matching_app.
  change (has_class "post-card" (element _ _ _ _ _)) with false. cbv iota.
  rewrite (tmc_no_class _ (form_tmc f)) by (done || by left).
  replace (matching (has_class "post-card") [_; _; _]) with (@nil node)
    by (by destruct (form_report f)).
  rewrite app_nil_r.
  induction (form_cards f) as [|c cards IH]; [done|].
  rewrite fmap_cons, elements_cons_flatten, matching_app.
  by rewrite card_class_post_card, IH.
Qed.

Lemma displayed_titles_render f :
  Forall tmc_element (elements (form_tmc f)) →
  displayed_titles (render f) = card_title <$> form_cards f.
Proof.
  intros Htmc. unfold displayed_titles. rewrite querySelectorAll_matching.
  unfold render.
  rewrite elements_page. cbn [app]. rewrite !matching_cons.
  do 2 change (has_class "post-title" (element _ _ _ _ _)) with false.
  cbv iota. rewrite matching_app, matching_cons, matching_app.
  change (has_class "post-title" (element _ _ _ _ _)) with false. cbv iota.
  rewrite (tmc_no_class _ (form_tmc f)) by (done || (right; by left)).
  replace (matching (has_class "post-title") [_; _; _]) with (@nil node)
    by (by destruct (form_report f)).
  rewrite app_nil_r.
  induction (form_cards f) as [|c cards IH]; [done|].
  rewrite fmap_cons, elements_cons_flatten, matching_app, fmap_app.
  by rewrite card_class_post_title, IH.
Qed.

Lemma alter_beyond {A} (u : A → A) (l : list A) i :
  (length l ≤ i)%nat → alter u i l = l.
Proof.
  revert i. induction l as [|x l IH]; intros [|i] Hi; simpl in *;
    [done|done|lia|].
  f_equal. apply IH. lia.
Qed.

(** The walk to the card at a position. *)
Lemma modify_class_cards g u k (cards : list CardRow) :
  (∀ c, g (render_card c) = [render_card (u c)]) →
  modify (has_class "post-card") g k (render_card <$> cards) =
  if decide (k < length cards)%nat
  then Found (render_card <$> alter u k cards)
  else Missing (k - length cards).
Proof.
  intros Hg. revert k. induction cards as [|c cards IH]; intros k.
  { cbn. case_decide; [lia|]. f_equal. lia. }
  rewrite fmap_cons. cbn [modify]. rewrite modify_node_eq.
  change (has_class "post-card" (render_card c)) with true.
  destruct k as [|j].
  - rewrite Hg. cbn [length]. rewrite decide_True by lia. done.
  - rewrite modify_none.
    2:{ change (children (render_card c))
          with (children (post_card_with (card_id c) (card_title c)
                  (card_hours c) (card_days c)
                  (render_staff (card_id c) <$> card_staff c))).
        pose proof (card_class_post_card c) as Hc.
        rewrite flatten_eq, matching_cons in Hc.
        change (has_class "post-card" (render_card c)) with true in Hc.
        by injection Hc. }
    rewrite IH. cbn [length].
    destruct (decide (j < length cards)%nat);
      [rewrite decide_True by lia|rewrite decide_False by lia]; done.
Qed.

Lemma retitle_card index c :
  match modify (has_class "post-title")
          (λ t, [set_textContent (post_title (index + 1)) t]) 0
          (children (render_card c)) with
  | Found kids => [set_children kids (render_card c)]
  | Missing _ => [render_card c]
  end = [render_card (with_title (post_title (index + 1)) c)].
Proof. reflexivity. Qed.

Lemma renumber_one_render index f :
  Forall tmc_element (elements (form_tmc f)) →
  renumber_one (render f) index
  = render (with_cards (retitle (form_cards f) index) f).
Proof.
  intros Htmc. unfold renumber_one, render. rewrite modify_page by done.
  rewrite (modify_class_cards _ (with_title (post_title (index + 1))))
    by (intros c; apply retitle_card).
  unfold retitle. case_decide as Hlt; [done|].
  rewrite modify_none by (apply page_rest_no_class; [by left|done]).
  simpl. by rewrite alter_beyond by lia.
Qed.

Lemma renumberPosts_render f :
  Forall tmc_element (elements (form_tmc f)) →
  renumberPosts (render f) = render (with_cards (renumber (form_cards f)) f).
Proof.
  intros Htmc. unfold renumberPosts, renumber.
  rewrite querySelectorAll_post_card, length_fmap by done.
  generalize (seq 0 (length (form_cards f))). intros idx.
  assert (Hgen : ∀ cards,
    foldl renumber_one (render (with_cards cards f)) idx
    = render (with_cards (foldl retitle cards idx) f)).
  { induction idx as [|i idx IH]; intros cards; [done|].
    cbn [foldl]. rewrite renumber_one_render by done. apply IH. }
  specialize (Hgen (form_cards f)). by destruct f.
Qed.

(** ** Every action keeps the form well formed *)

Lemma alter_first_keeps {A K} (key : A → K) (Q Q' : A → Prop) u l l' :
  (∀ x, Q x → Q' x) →
  (∀ x xs, u x = Some xs →
     (key <$> xs) `sublist_of` [key x] ∧ (Q x → Forall Q' xs)) →
  alter_first u l = Some l' →
  (key <$> l') `sublist_of` (key <$> l) ∧ (Forall Q l → Forall Q' l').
Proof.
  intros Hq Hu. revert l'. induction l as [|x l IH]; intros l' Hl; [done|].
  cbn [alter_first] in Hl. destruct (u x) as [xs|] eqn:Hx.
  - injection Hl as <-. destruct (Hu x xs Hx) as [Hk HQ]. split.
    + rewrite fmap_app, fmap_cons.
      change (key x :: (key <$> l)) with ([key x] ++ (key <$> l)).
      by apply sublist_app.
    + intros [Hqx Hql]%Forall_cons. apply Forall_app. split; [auto|].
      eapply Forall_impl; [exact Hql|done].
  - destruct (alter_first u l) as [l0|]; [|done]. injection Hl as <-.
    destruct (IH l0 eq_refl) as [Hk HQ]. split.
    + rewrite !fmap_cons. by apply sublist_skip.
    + intros [Hqx Hql]%Forall_cons. constructor; auto.
Qed.

Lemma alter_first_app_none {A} (u : A → option (list A)) l1 l2 :
  Forall (λ x, u x = None) l1 →
  alter_first u (l1 ++ l2) = app l1 <$> alter_first u l2.
Proof.
  induction 1 as [|x l1 Hx _ IH]; simpl.
  - by destruct (alter_first u l2).
  - rewrite Hx, IH. by destruct (alter_first u l2).
Qed.

Lemma card_ok_mono st st' c : counters_le st st' → card_ok st c → card_ok st' c.
Proof.
  intros [Hp Hs] (Hid & Hnd & Hb). repeat split; [lia|done|].
  eapply Forall_impl; [exact Hb|]. intros r Hr. simpl in *.
  specialize (Hs (card_id c)). lia.
Qed.

Lemma well_formed_mono f st st' :
  counters_le st st' → well_formed f st → well_formed f st'.
Proof.
  intros Hle [H1 H2 H3]. split; [done| |done].
  eapply Forall_impl; [exact H2|]. intros c. by apply card_ok_mono.
Qed.

Lemma counters_le_refl st : counters_le st st.
Proof. by split. Qed.

Lemma counters_le_same st st' :
  postCounter st' = postCounter st → staffCounter st' = staffCounter st →
  counters_le st st'.
Proof. intros H1 H2. unfold counters_le. by rewrite H1, H2. Qed.

(** A change of the cards that keeps the numbers of the cards that remain,
    and keeps them in order. *)
Lemma well_formed_on_cards u f st st' cards :
  counters_le st st' →
  (∀ c cs, u c = Some cs →
     (card_id <$> cs) `sublist_of` [card_id c] ∧
     (card_ok st c → Forall (card_ok st') cs)) →
  alter_first u (form_cards f) = Some cards →
  well_formed f st → well_formed (with_cards cards f) st'.
Proof.
  intros Hle Hu Hcards [H1 H2 H3].
  destruct (alter_first_keeps card_id (card_ok st) (card_ok st') u _ _
              (λ c, card_ok_mono st st' c Hle) Hu Hcards) as [Hk HQ].
  split; simpl; [|by apply HQ|done].
  by eapply sublist_NoDup.
Qed.

Lemma in_card_keeps n u st st' :
  (∀ c cs, card_id c = n → u c = Some cs →
     (card_id <$> cs) `sublist_of` [card_id c] ∧
     (card_ok st c → Forall (card_ok st') cs)) →
  ∀ c cs, in_card n u c = Some cs →
     (card_id <$> cs) `sublist_of` [card_id c] ∧
     (card_ok st c → Forall (card_ok st') cs).
Proof.
  intros Hu c cs. unfold in_card. case_decide; [|done]. by apply Hu.
Qed.

Lemma on_rows_keeps k u st :
  (∀ r rs, u r = Some rs →
     (row_k <$> rs) `sublist_of` [row_k r]) →
  ∀ c cs, on_rows (in_row k u) c = Some cs →
     (card_id <$> cs) `sublist_of` [card_id c] ∧
     (card_ok st c → Forall (card_ok st) cs).
Proof.
  intros Hu c cs. unfold on_rows.
  destruct (alter_first _ (card_staff c)) as [rows|] eqn:Hrows; [|done].
  simpl. intros [= <-]. split; [done|].
  intros (Hid & Hnd & Hb). repeat constructor; simpl; [done|..].
  - eapply sublist_NoDup; [exact Hnd|].
    eapply (alter_first_keeps row_k (λ _, True) (λ _, True));
      [done| |exact Hrows].
    intros r rs. unfold in_row. case_decide; [|done]. intros Hr.
    split; [by apply Hu|]. intros _. by apply Forall_true.
  - eapply (alter_first_keeps row_k
              (λ r, row_k r ≤ default 0 (staffCounter st !! card_id c))%nat
              (λ r, row_k r ≤ default 0 (staffCounter st !! card_id c))%nat);
      [done| |exact Hrows|exact Hb].
    intros r rs. unfold in_row. case_decide; [|done]. intros Hr.
    split; [by apply Hu|]. intros Hle. apply Forall_forall. intros r' Hr'.
    pose proof (Hu r rs Hr) as Hsub.
    assert (row_k r' ∈ row_k <$> rs) as Hin by (by apply list_elem_of_fmap_2).
    eapply sublist_submseteq, elem_of_submseteq in Hsub; [|exact Hin].
    apply list_elem_of_singleton in Hsub. by rewrite Hsub.
Qed.

(** ** Every action acts on the page as on the form *)

Lemma removeStaff_eq s st :
  removeStaff s st
  = with_document (default (document st) (remove_by_id s (document st))) st.
Proof.
  unfold removeStaff. destruct (getElementById s (document st)) eqn:Hg; [done|].
  rewrite remove_by_id_none by done. by destruct st.
Qed.

Lemma removePost_eq n st :
  removePost n st =
  match remove_by_id ("post-" +:+ decimal n) (document st) with
  | Some doc => with_document (renumberPosts doc) st
  | None => st
  end.
Proof.
  unfold removePost.
  destruct (getElementById _ (document st)) as [g|] eqn:Hg.
  - destruct (remove_by_id_some _ _ _ Hg) as (doc' & ? & ? & ? & -> & _). done.
  - by rewrite remove_by_id_none.
Qed.

Lemma with_cards_with_cards c1 c2 f :
  with_cards c1 (with_cards c2 f) = with_cards c1 f.
Proof. done. Qed.

Lemma well_formed_document f st doc :
  well_formed f (with_document doc st) ↔ well_formed f st.
Proof. split; intros [H1 H2 H3]; by split. Qed.

Lemma represents_typing s v f f' st :
  represents f st →
  type_value s v (render f) = render f' →
  well_formed f' st →
  represents f' (typing s v st).
Proof.
  intros [Hwf Hdoc] Hty Hwf'. split.
  - unfold typing. by apply well_formed_document.
  - unfold typing. simpl. by rewrite Hdoc.
Qed.

Lemma single_sublist {K} (x : K) : [x] `sublist_of` [x].
Proof. done. Qed.

Lemma with_field_k fld v r : row_k (with_field fld v r) = row_k r.
Proof. by destruct fld. Qed.

Lemma step_type_hours n v f st :
  represents f st →
  represents (form_step st f (TypeHours n v)) (perform st (TypeHours n v)).
Proof.
  intros Hrep. pose proof Hrep as [Hwf _]. simpl.
  eapply represents_typing; [done|apply type_hours_render, Hwf|].
  unfold on_cards. destruct (alter_first _ _) as [cards|] eqn:Hc; [|done].
  eapply well_formed_on_cards; [apply counters_le_refl| |exact Hc|done].
  apply in_card_keeps. intros c cs _ [= <-]. split; [done|].
  intros Hok. constructor; [exact Hok|constructor].
Qed.

Lemma step_type_days n v f st :
  represents f st →
  represents (form_step st f (TypeDays n v)) (perform st (TypeDays n v)).
Proof.
  intros Hrep. pose proof Hrep as [Hwf _]. simpl.
  eapply represents_typing; [done|apply type_days_render, Hwf|].
  unfold on_cards. destruct (alter_first _ _) as [cards|] eqn:Hc; [|done].
  eapply well_formed_on_cards; [apply counters_le_refl| |exact Hc|done].
  apply in_card_keeps. intros c cs _ [= <-]. split; [done|].
  intros Hok. constructor; [exact Hok|constructor].
Qed.

Lemma step_type_staff n k fld v f st :
  represents f st →
  represents (form_step st f (TypeStaff n k fld v))
             (perform st (TypeStaff n k fld v)).
Proof.
  intros Hrep. pose proof Hrep as [Hwf _]. simpl.
  eapply represents_typing; [done|apply type_staff_render, Hwf|].
  unfold on_cards. destruct (alter_first _ _) as [cards|] eqn:Hc; [|done].
  eapply well_formed_on_cards; [apply counters_le_refl| |exact Hc|done].
  apply in_card_keeps. intros c cs _. apply on_rows_keeps.
  intros r rs [= <-]. simpl. by rewrite with_field_k.
Qed.

Lemma step_remove_staff n k f st :
  represents f st →
  represents (form_step st f (RemoveStaff n k)) (perform st (RemoveStaff n k)).
Proof.
  intros [Hwf Hdoc]. simpl. rewrite removeStaff_eq, Hdoc.
  rewrite remove_staff_render by apply Hwf. split; [|done].
  apply well_formed_document.
  unfold on_cards. destruct (alter_first _ _) as [cards|] eqn:Hc; [|done].
  eapply well_formed_on_cards; [apply counters_le_refl| |exact Hc|done].
  apply in_card_keeps. intros c cs _. apply on_rows_keeps.
  intros r rs [= <-]. simpl. apply sublist_nil_l.
Qed.

Lemma step_type_markup v f st :
  represents f st →
  represents (form_step st f (TypeMarkup v)) (perform st (TypeMarkup v)).
Proof.
  intros Hrep. pose proof Hrep as [Hwf _]. simpl.
  eapply represents_typing; [done|apply type_markup_render, Hwf|].
  by destruct Hwf.
Qed.

Lemma step_type_quantity item v f st :
  represents f st →
  represents (form_step st f (TypeQuantity item v))
             (perform st (TypeQuantity item v)).
Proof.
  intros Hrep. pose proof Hrep as [Hwf _]. simpl.
  eapply represents_typing; [done| |].
  - unfold type_value. apply modify_tmc_render. exists item. by right.
  - destruct Hwf as [H1 H2 H3]. split; [done..|]. by apply tmc_keeps_value.
Qed.

Lemma step_tick item b f st :
  represents f st →
  represents (form_step st f (Tick item b)) (perform st (Tick item b)).
Proof.
  intros [Hwf Hdoc]. simpl. split.
  - apply well_formed_document. destruct Hwf as [H1 H2 H3].
    split; [done..|]. by apply tmc_keeps_tick.
  - simpl. rewrite Hdoc. unfold tick. apply modify_tmc_render.
    exists item. by left.
Qed.

Lemma step_load_tmc answer f st :
  represents f st →
  plain_action (LoadTMC answer) →
  represents (form_step st f (LoadTMC answer)) (perform st (LoadTMC answer)).
Proof.
  intros [Hwf Hdoc] Hplain. simpl. unfold loadTMC.
  destruct answer as [items|]; [|done].
  rewrite Hdoc. change (match items with [] => _ | _ => _ end)
    with (tmc_rows items).
  rewrite load_tmc_render. simpl. split; [|done].
  destruct Hwf as [H1 H2 H3]. split; [done..|]. by apply tmc_rows_elements.
Qed.

Lemma step_calculate server f st :
  represents f st →
  plain_action (Calculate server) →
  represents (form_step st f (Calculate server)) (perform st (Calculate server)).
Proof.
  intros [Hwf Hdoc] Hplain. simpl. unfold calculate.
  destruct (serialize st) as [[|req]|e]; [done| |done].
  specialize (Hplain req).
  destruct (server req) as [|[] [r|]| |]; try done.
  rewrite Hdoc, display_render by apply Hwf. simpl. split; [|done].
  by destruct Hwf.
Qed.

Lemma insert_counters_le n k st :
  (default 0 (staffCounter st !! n) ≤ k)%nat →
  counters_le st
    {| postCounter := postCounter st;
       staffCounter := <[n := k]> (staffCounter st);
       tmcItems := tmcItems st; document := document st |}.
Proof.
  intros Hk. split; simpl; [done|]. intros m.
  destruct (decide (n = m)) as [->|Hne].
  - by rewrite lookup_insert_eq.
  - by rewrite lookup_insert_ne.
Qed.

Lemma step_add_staff n f st :
  represents f st →
  represents (form_step st f (AddStaff n)) (perform st (AddStaff n)).
Proof.
  intros [Hwf Hdoc]. simpl. unfold addStaff.
  set (k := S (default 0%nat (staffCounter st !! n))).
  set (st1 := {| postCounter := postCounter st;
                 staffCounter := <[n := k]> (staffCounter st);
                 tmcItems := tmcItems st; document := document st |}).
  assert (Hle : counters_le st st1) by (apply insert_counters_le; unfold k; lia).
  assert (Hk : staffCounter st1 !! n = Some k) by apply lookup_insert_eq.
  change (document st1) with (document st).
  rewrite Hdoc, add_staff_render by apply Hwf. unfold on_cards.
  destruct (alter_first _ (form_cards f)) as [cards|] eqn:Hc; simpl.
  - split; [|done]. apply well_formed_document.
    eapply well_formed_on_cards; [exact Hle| |exact Hc|exact Hwf].
    apply in_card_keeps. intros c cs <- [= <-]. split; [done|].
    intros (Hid & Hnd & Hb). constructor; [|constructor].
    repeat split; simpl; [done| |].
    + rewrite fmap_app. apply NoDup_app. repeat split; [done| |].
      * intros x Hx [->|[]%elem_of_nil]%elem_of_cons.
        apply list_elem_of_fmap in Hx as (r & Hr & Hin).
        rewrite Forall_forall in Hb. specialize (Hb r Hin). simpl in Hb, Hr.
        unfold k in Hr. lia.
      * apply NoDup_singleton.
    + rewrite lookup_insert_eq. simpl. apply Forall_app. split.
      * eapply Forall_impl; [exact Hb|]. intros r Hr. simpl in *.
        unfold k. lia.
      * by repeat constructor.
  - split; [|done]. by apply (well_formed_mono f st).
Qed.

Lemma retitle_keeps st (cards : list CardRow) idx :
  card_id <$> foldl retitle cards idx = card_id <$> cards ∧
  (Forall (card_ok st) cards → Forall (card_ok st) (foldl retitle cards idx)).
Proof.
  revert cards. induction idx as [|i idx IH]; intros cards; [done|].
  cbn [foldl]. destruct (IH (retitle cards i)) as [Hk HQ]. split.
  - rewrite Hk. unfold retitle. generalize (post_title (i + 1)). intros t.
    clear. revert i.
    induction cards as [|c cards IHc]; intros [|i]; simpl; [done..|].
    f_equal. apply IHc.
  - intros Hall. apply HQ. unfold retitle. by apply Forall_alter.
Qed.

Lemma step_remove_post n f st :
  represents f st →
  represents (form_step st f (RemovePost n)) (perform st (RemovePost n)).
Proof.
  intros [Hwf Hdoc]. simpl. rewrite removePost_eq, Hdoc.
  rewrite remove_post_render by apply Hwf.
  destruct (alter_first _ (form_cards f)) as [cards|] eqn:Hc; simpl; [|done].
  assert (Hwf' : well_formed (with_cards cards f) st).
  { eapply well_formed_on_cards; [apply counters_le_refl| |exact Hc|done].
    apply in_card_keeps. intros c cs _ [= <-]. split; [apply sublist_nil_l|].
    intros _. constructor. }
  rewrite renumberPosts_render by apply Hwf'. split; [|done].
  apply well_formed_document. destruct Hwf' as [H1 H2 H3].
  destruct (retitle_keeps st cards (seq 0 (length cards))) as [Hk HQ].
  split; simpl in *; [|by apply HQ|done].
  unfold renumber. by rewrite Hk.
Qed.

Lemma step_add_post f st :
  represents f st →
  represents (form_step st f AddPost) (perform st AddPost).
Proof.
  intros [Hwf Hdoc]. cbn [perform form_step]. unfold addPost.
  cbn [document]. rewrite Hdoc.
  unfold render at 1. rewrite append_post_render.
  set (n := S (postCounter st)).
  set (st1 := with_document _ _).
  set (f1 := with_cards
               (form_cards f ++
                [{| card_id := n; card_title := post_title n;
                    card_hours := "12"; card_days := "7";
                    card_staff := [] |}]) f).
  assert (Hfresh : Forall (λ c, card_id c ≠ n) (form_cards f)).
  { eapply Forall_impl; [apply Hwf|]. intros c (Hid & _). simpl in *.
    unfold n. lia. }
  assert (Hrep1 : represents f1 st1).
  { split.
    - destruct Hwf as [H1 H2 H3]. split; simpl; [| |done].
      + rewrite fmap_app. apply NoDup_app. repeat split; [done| |].
        * intros x Hx [->|[]%elem_of_nil]%elem_of_cons.
          apply list_elem_of_fmap in Hx as (c & Hc & Hin).
          rewrite Forall_forall in Hfresh. by apply (Hfresh c Hin).
        * apply NoDup_singleton.
      + apply Forall_app. split.
        * eapply Forall_impl; [exact H2|]. intros c.
          apply card_ok_mono. split; simpl; [lia|done].
        * constructor; [|constructor]. repeat split; simpl; [lia| |].
          -- constructor.
          -- constructor.
    - unfold st1, f1, render. simpl. by rewrite fmap_app. }
  pose proof (step_add_staff n f1 st1 Hrep1) as Hrep. simpl in Hrep.
  replace (on_cards _ f1) with
    (with_cards (form_cards f ++
       [new_card n (S (default 0%nat (staffCounter st !! n)))]) f) in Hrep;
    [exact Hrep|].
  unfold on_cards, f1. simpl.
  rewrite alter_first_app_none.
  2:{ eapply Forall_impl; [exact Hfresh|]. intros c Hc. unfold in_card.
      by rewrite decide_False. }
  simpl. unfold in_card. simpl. rewrite decide_True by done. done.
Qed.

(** Every action acts on the page as [form_step] acts on the form. *)
Theorem step_represents f st a :
  represents f st → plain_action a →
  represents (form_step st f a) (perform st a).
Proof.
  destruct a; intros Hrep Hplain.
  - by apply step_add_post.
  - by apply step_remove_post.
  - by apply step_add_staff.
  - by apply step_remove_staff.
  - by apply step_type_hours.
  - by apply step_type_days.
  - by apply step_type_staff.
  - by apply step_type_markup.
  - by apply step_type_quantity.
  - by apply step_tick.
  - by apply step_calculate.
  - by apply step_load_tmc.
Qed.

Lemma initial_represented :
  represents {| form_cards := []; form_tmc := []; form_markup := "20";
                form_report := None |} initial.
Proof.
  split; [|done]. split; simpl; constructor.
Qed.

(** Every page that can be reached shows a well-formed form. *)
Theorem reachable_represented st : reachable st → ∃ f, represents f st.
Proof.
  intros (actions & Hplain & ->).
  induction actions as [|a actions IH] using rev_ind.
  - eexists. apply initial_represented.
  - apply Forall_app in Hplain as [Hplain Ha].
    destruct (IH Hplain) as [f Hf]. rewrite foldl_snoc. eexists.
    apply step_represents; [done|]. by apply Forall_cons in Ha as [Ha _].
Qed.

(** ** Looking up the elements of a post *)

Lemma head_app_first {A} (l1 l2 : list A) :
  head (l1 ++ l2) = match head l1 with Some x => Some x | None => head l2 end.
Proof. by destruct l1. Qed.

Lemma head_matching_fmap {A} (R : A → node) P (v : A → option node) l :
  (∀ x, head (matching P (flatten (R x))) = v x) →
  head (matching P (elements (R <$> l))) = find_first v l.
Proof.
  intros Hv. induction l as [|x l IH]; [done|].
  rewrite fmap_cons, elements_cons_flatten, matching_app, head_app_first.
  rewrite Hv, IH. done.
Qed.

Lemma find_first_unique {A B K} (key : A → K) (v : A → option B) l x :
  NoDup (key <$> l) → x ∈ l →
  (∀ y, key y ≠ key x → v y = None) →
  find_first v l = v x.
Proof.
  intros Hnd Hx Hv. induction l as [|y l IH]; [by apply elem_of_nil in Hx|].
  rewrite fmap_cons in Hnd. apply NoDup_cons in Hnd as [Hy Hnd].
  apply elem_of_cons in Hx as [->|Hx]; simpl.
  - destruct (v y) eqn:Hvy; [done|].
    clear IH. induction l as [|z l IHl]; [done|]. simpl.
    rewrite fmap_cons in Hy, Hnd. apply not_elem_of_cons in Hy as [Hzy Hy].
    apply NoDup_cons in Hnd as [_ Hnd].
    rewrite (Hv z) by done. by apply IHl.
  - rewrite (Hv y), IH; [done..|]. intros Heq. apply Hy. rewrite Heq.
    by apply list_elem_of_fmap_2.
Qed.

Lemma page_rest_no_id i tmc m rep :
  Forall tmc_element (elements tmc) →
  matching (has_id (show i)) (elements (page_rest tmc m rep)) = [].
Proof.
  intros Htmc. apply matching_nil_Forall.
  destruct (show_not_static i) as (_ & _ & Hsel & Hmark & Hres & _).
  unfold page_rest. rewrite elements_cons_flatten, flatten_eq.
  cbn [children element]. constructor; [by apply has_id_false|].
  apply Forall_app. split.
  { eapply Forall_impl; [exact Htmc|]. intros e. apply tmc_element_not_shown. }
  destruct rep; repeat constructor;
    first [by apply has_id_false | by apply has_id_noid].
Qed.

(** An id of the post family is looked for in the cards, in order. *)
Lemma getElementById_render i f :
  Forall tmc_element (elements (form_tmc f)) →
  getElementById (show i) (render f) =
  find_first (λ c, head (matching (has_id (show i)) (flatten (render_card c))))
    (form_cards f).
Proof.
  intros Htmc. rewrite getElementById_matching. unfold render.
  destruct (show_not_static i) as (Hroot & Hcont & _).
  unfold page. rewrite elements_single.
  change (flatten (element ?a ?b ?cl ?x
                     (element ?a' ?b' ?cl' ?x' ?c :: page_rest ?t ?m ?r)))
    with (element a b cl x (element a' b' cl' x' c :: page_rest t m r)
          :: element a' b' cl' x' c
          :: elements c ++ elements (page_rest t m r)).
  rewrite !matching_cons, !has_id_false by done.
  rewrite matching_app, head_app_first, page_rest_no_id by done.
  rewrite (head_matching_fmap render_card _
             (λ c, head (matching (has_id (show i)) (flatten (render_card c)))))
    by done.
  by destruct (find_first _ _).
Qed.

(** In a well-formed form the card with the number of the id decides. *)
Lemma getElementById_card i f st c :
  well_formed f st → c ∈ form_cards f → card_id c = owner i →
  getElementById (show i) (render f)
  = head (matching (has_id (show i)) (flatten (render_card c))).
Proof.
  intros Hwf Hc Hi. rewrite getElementById_render by apply Hwf.
  apply (find_first_unique card_id
           (λ c, head (matching (has_id (show i)) (flatten (render_card c)))));
    [apply Hwf|done|].
  intros c' Hne. cbv beta. rewrite card_no_match; [done|congruence].
Qed.

Arguments matching : simpl never.

Ltac scan :=
  repeat (rewrite matching_cons; decide_has_id; cbv iota).

Lemma lookup_card_hours n t h d groups :
  head (matching (has_id (show (HoursId n)))
          (flatten (post_card_with n t h d groups)))
  = Some (input ("hours-" +:+ decimal n) h).
Proof.
  rewrite flatten_post_card, matching_app. unfold post_card_with.
  cbn. scan. done.
Qed.

Lemma lookup_card_days n t h d groups :
  head (matching (has_id (show (DaysId n)))
          (flatten (post_card_with n t h d groups)))
  = Some (input ("days-" +:+ decimal n) d).
Proof.
  rewrite flatten_post_card, matching_app. unfold post_card_with.
  cbn. scan. done.
Qed.

(** An id of a staff group or of one of its fields is looked for among the
    groups of the card. *)
Lemma lookup_card_groups i n t h d groups :
  owner i = n → (∃ k, i = StaffGroupId n k) ∨ (∃ k fld, i = StaffFieldId n k fld) →
  head (matching (has_id (show i)) (flatten (post_card_with n t h d groups)))
  = head (matching (has_id (show i)) (elements groups)).
Proof.
  intros Hn Hi. rewrite flatten_post_card, !matching_app.
  unfold post_card_with.
  destruct Hi as [[k ->]|(k & fld & ->)]; cbn; scan;
    rewrite app_nil_r; by destruct (matching _ (elements groups)).
Qed.

Lemma lookup_group_itself n r :
  head (matching (has_id (show (StaffGroupId n (row_k r))))
          (flatten (render_staff n r)))
  = Some (render_staff n r).
Proof. unfold render_staff, staff_group_with. cbn. scan. done. Qed.

Lemma lookup_group_field n r fld :
  head (matching (has_id (show (StaffFieldId n (row_k r) fld)))
          (flatten (render_staff n r)))
  = Some (input (staff_id n (row_k r) +:+ field_suffix fld) (row_field fld r)).
Proof.
  unfold render_staff, staff_group_with. destruct fld; cbn; scan; done.
Qed.

(** In a well-formed form every field of every staff group is found under
    its id, and so is the group. *)
Lemma getElementById_in_group i f st c r :
  well_formed f st → c ∈ form_cards f → r ∈ card_staff c →
  (∃ fld, i = StaffFieldId (card_id c) (row_k r) fld)
  ∨ i = StaffGroupId (card_id c) (row_k r) →
  getElementById (show i) (render f)
  = head (matching (has_id (show i)) (flatten (render_staff (card_id c) r))).
Proof.
  intros Hwf Hc Hr Hi.
  assert (Hown : card_id c = owner i) by (by destruct Hi as [[fld ->]| ->]).
  rewrite (getElementById_card i f st c) by done.
  unfold render_card. rewrite (lookup_card_groups i (card_id c));
    [|done|destruct Hi as [[fld ->]| ->]; [right|left]; eauto].
  rewrite (head_matching_fmap (render_staff (card_id c)) _
    (λ r, head (matching (has_id (show i))
                  (flatten (render_staff (card_id c) r))))) by done.
  apply (find_first_unique row_k
    (λ r, head (matching (has_id (show i))
                  (flatten (render_staff (card_id c) r))))); [|done|].
  - destruct Hwf as [_ Hcards _]. rewrite Forall_forall in Hcards.
    apply (Hcards c Hc).
  - intros r' Hne. cbv beta. rewrite group_no_match; [done|..].
    + destruct Hi as [[fld ->]| ->]; [done|]. congruence.
    + intros fld. destruct Hi as [[fld' ->]| ->]; [|done]. congruence.
Qed.

Lemma getElementById_staff_group f st c r :
  well_formed f st → c ∈ form_cards f → r ∈ card_staff c →
  getElementById (staff_id (card_id c) (row_k r)) (render f)
  = Some (render_staff (card_id c) r).
Proof.
  intros Hwf Hc Hr.
  change (staff_id (card_id c) (row_k r))
    with (show (StaffGroupId (card_id c) (row_k r))).
  rewrite (getElementById_in_group _ f st c r) by (done || by right).
  apply lookup_group_itself.
Qed.

Lemma value_of_staff_field f st c r fld :
  well_formed f st → c ∈ form_cards f → r ∈ card_staff c →
  value_of (staff_id (card_id c) (row_k r) +:+ field_suffix fld) (render f)
  = Ok (row_field fld r).
Proof.
  intros Hwf Hc Hr. unfold value_of.
  change (staff_id (card_id c) (row_k r) +:+ field_suffix fld)
    with (show (StaffFieldId (card_id c) (row_k r) fld)).
  rewrite (getElementById_in_group _ f st c r) by (done || (left; eauto)).
  by rewrite lookup_group_field.
Qed.

Lemma value_of_hours f st c :
  well_formed f st → c ∈ form_cards f →
  value_of ("hours-" +:+ decimal (card_id c)) (render f) = Ok (card_hours c).
Proof.
  intros Hwf Hc. unfold value_of.
  change ("hours-" +:+ decimal (card_id c)) with (show (HoursId (card_id c))).
  rewrite (getElementById_card _ f st c) by done.
  unfold render_card. by rewrite lookup_card_hours.
Qed.

Lemma value_of_days f st c :
  well_formed f st → c ∈ form_cards f →
  value_of ("days-" +:+ decimal (card_id c)) (render f) = Ok (card_days c).
Proof.
  intros Hwf Hc. unfold value_of.
  change ("days-" +:+ decimal (card_id c)) with (show (DaysId (card_id c))).
  rewrite (getElementById_card _ f st c) by done.
  unfold render_card. by rewrite lookup_card_days.
Qed.

(** ** What the form sends *)

Lemma staff_groups_of_card c :
  querySelectorAll_in "staff-group" (render_card c)
  = render_staff (card_id c) <$> card_staff c.
Proof.
  unfold querySelectorAll_in. rewrite querySelectorAll_matching.
  unfold render_card.
  change (elements (children (post_card_with ?n ?t ?h ?d ?groups)))
    with (drop 1 (take 13 (flatten (post_card_with n t h d groups)))
          ++ elements groups
          ++ [element "button" "" ["btn"; "btn-secondary"]
                "➕ Добавить группу персонала" []]).
  rewrite !matching_app.
  replace (matching (has_class "staff-group") (drop 1 _)) with (@nil node)
    by reflexivity.
  replace (matching (has_class "staff-group") [_]) with (@nil node)
    by reflexivity.
  rewrite app_nil_r. simpl.
  induction (card_staff c) as [|r rows IH]; [done|].
  rewrite fmap_cons, elements_cons_flatten, matching_app, IH. done.
Qed.

Lemma rev_app_rev_app (s cur acc : string) :
  String.rev_app (String.rev_app s cur) acc
  = String.rev_app cur (s +:+ acc).
Proof.
  revert cur. induction s as [|c s IH]; intros cur; [done|].
  simpl. rewrite IH. done.
Qed.

Lemma split_dash_go_digits cur s :
  digits_only s = true →
  split_dash_go cur s = [String.rev_app cur s].
Proof.
  revert cur. induction s as [|c s IH]; intros cur Hs; [done|].
  simpl in Hs. apply andb_true_iff in Hs as [Hc Hs].
  cbn [split_dash_go]. rewrite bool_decide_eq_false_2.
  - rewrite IH by done. done.
  - intros ->. by apply bool_decide_eq_true in Hc as [? ?].
Qed.

Lemma split_dash_post n :
  split_dash ("post-" +:+ decimal n) !! 1%nat = Some (decimal n).
Proof.
  unfold split_dash. push_append. cbn [split_dash_go].
  repeat (rewrite bool_decide_eq_false_2 by done; cbn [split_dash_go]).
  rewrite bool_decide_eq_true_2 by done.
  by rewrite split_dash_go_digits by apply decimal_digits.
Qed.

Lemma read_staff_render f st c r :
  well_formed f st → c ∈ form_cards f → r ∈ card_staff c →
  read_staff (render f) (render_staff (card_id c) r) = Ok (row_staff r).
Proof.
  intros Hwf Hc Hr. unfold read_staff.
  change (elemId (render_staff (card_id c) r))
    with (staff_id (card_id c) (row_k r)).
  change "-position" with (field_suffix Position).
  change "-count" with (field_suffix Count).
  change "-salary" with (field_suffix Salary).
  by rewrite !(value_of_staff_field f st c r).
Qed.

Lemma collect_staff_render f st c rows :
  well_formed f st → c ∈ form_cards f → rows ⊆ card_staff c →
  collect_staff (render f) (render_staff (card_id c) <$> rows)
  = Ok (filter (λ s, staff_accepted s = true) (row_staff <$> rows)).
Proof.
  intros Hwf Hc. induction rows as [|r rows IH]; intros Hsub; [done|].
  rewrite fmap_cons. cbn [collect_staff].
  rewrite (read_staff_render f st c r); [|done..|apply Hsub; by left].
  cbn [mbind result_bind]. rewrite IH by (intros x Hx; apply Hsub; by right).
  cbn [mbind result_bind mret result_ret]. rewrite fmap_cons, filter_cons.
  destruct (staff_accepted (row_staff r)); by case_decide.
Qed.

Lemma read_post_render f st c index :
  well_formed f st → c ∈ form_cards f →
  read_post (render f) index (render_card c) = Ok (card_post index c).
Proof.
  intros Hwf Hc. unfold read_post.
  change (elemId (render_card c)) with ("post-" +:+ decimal (card_id c)).
  rewrite split_dash_post. cbn [template default from_option id].
  rewrite (value_of_hours f st c), (value_of_days f st c) by done.
  cbn [mbind result_bind fmap result_fmap].
  rewrite staff_groups_of_card, (collect_staff_render f st c) by done.
  done.
Qed.

Lemma collect_posts_from_render f st cards index :
  well_formed f st → cards ⊆ form_cards f →
  collect_posts_from (render f) index (render_card <$> cards)
  = Ok (posts_from index cards).
Proof.
  intros Hwf. revert index. induction cards as [|c cards IH]; intros index Hsub;
    [done|].
  rewrite fmap_cons. cbn [collect_posts_from posts_from].
  rewrite (read_post_render f st c) by (done || (apply Hsub; by left)).
  cbn [mbind result_bind]. rewrite IH by (intros x Hx; apply Hsub; by right).
  cbn [mbind result_bind mret result_ret staff card_post].
  by case_bool_decide.
Qed.

(** The posts that [calculate] collects on the page of a well-formed form
    are those of the form: serialization does not throw. *)
Theorem collect_posts_render f st :
  well_formed f st → collect_posts (render f) = Ok (form_posts f).
Proof.
  intros Hwf. unfold collect_posts, form_posts.
  rewrite querySelectorAll_post_card by apply Hwf.
  by apply (collect_posts_from_render f st).
Qed.

Theorem collect_posts_reachable st :
  reachable st →
  ∃ f, represents f st ∧ collect_posts (document st) = Ok (form_posts f).
Proof.
  intros (f & Hwf & Hdoc)%reachable_represented. exists f.
  split; [done|]. rewrite Hdoc. by apply (collect_posts_render f st).
Qed.

(** ** The markup field *)

Lemma value_of_markup_render f :
  Forall tmc_element (elements (form_tmc f)) →
  value_of "markup" (render f) = Ok (form_markup f).
Proof.
  intros Htmc. unfold value_of. rewrite getElementById_matching. unfold render.
  rewrite elements_page. cbn [app]. rewrite !matching_cons.
  do 2 change (has_id "markup" (element _ _ _ _ _)) with false. cbv iota.
  rewrite matching_app.
  replace (matching (has_id "markup") (elements (render_card <$> _)))
    with (@nil node).
  2:{ symmetry. apply matching_nil_Forall, elements_fmap. intros c _.
      apply matching_nil_Forall, card_foreign, static_not_shown.
      left. right. by left. }
  rewrite matching_cons.
  change (has_id "markup" (element _ _ _ _ _)) with false. cbv iota.
  rewrite matching_app.
  replace (matching (has_id "markup") (elements (form_tmc f)))
    with (@nil node).
  2:{ symmetry. apply matching_nil_Forall.
      eapply Forall_impl; [exact Htmc|]. intros e.
      apply tmc_element_other. by left. }
  done.
Qed.

(** On a page that can be reached while the server sends no markup the
    markup field is there, and what is sent is read from it. *)
Lemma read_markup_reachable st :
  reachable st →
  ∃ v, value_of "markup" (document st) = Ok v ∧
       read_markup (document st) = Ok (or_else (parseFloat v) (of_nat 20)).
Proof.
  intros (f & Hwf & Hdoc)%reachable_represented. exists (form_markup f).
  unfold read_markup. rewrite Hdoc, value_of_markup_render by apply Hwf. done.
Qed.

(** ** The titles after a removal *)

Lemma retitle_lookup (cards : list CardRow) a m j :
  (card_title <$> foldl retitle cards (seq a m)) !! j =
  if decide (a ≤ j < a + m ∧ j < length cards)%nat
  then Some (post_title (j + 1))
  else (card_title <$> cards) !! j.
Proof.
  revert cards a. induction m as [|m IH]; intros cards a.
  { simpl. rewrite decide_False by lia. done. }
  cbn [seq foldl]. rewrite IH.
  assert (Hlen : length (retitle cards a) = length cards)
    by (unfold retitle; apply length_alter).
  rewrite Hlen.
  destruct (decide (S a ≤ j < S a + m ∧ j < length cards)%nat).
  - by rewrite decide_True by lia.
  - unfold retitle. rewrite list_lookup_fmap, list_lookup_alter.
    destruct (decide (a = j)) as [->|Hne].
    + destruct (cards !! j) as [c|] eqn:Hc.
      * apply lookup_lt_Some in Hc as Hlt. rewrite decide_True by lia. done.
      * apply lookup_ge_None in Hc. rewrite decide_False by lia.
        by rewrite list_lookup_fmap, lookup_ge_None_2.
    + rewrite decide_False by lia. by rewrite list_lookup_fmap.
Qed.

(** After [renumberPosts] the titles are those of the positions. *)
Lemma renumber_titles (cards : list CardRow) :
  card_title <$> renumber cards = post_title <$> seq 1 (length cards).
Proof.
  apply list_eq. intros j. unfold renumber. rewrite retitle_lookup.
  rewrite (list_lookup_fmap post_title).
  destruct (decide (j < length cards)%nat) as [Hlt|Hge].
  - rewrite decide_True by lia. rewrite lookup_seq_lt by done. simpl.
    by rewrite Nat.add_1_r.
  - rewrite decide_False by lia. rewrite lookup_seq_ge by lia.
    rewrite list_lookup_fmap, lookup_ge_None_2 by lia. done.
Qed.

Lemma length_renumber (cards : list CardRow) :
  length (renumber cards) = length cards.
Proof.
  destruct (retitle_keeps initial cards (seq 0 (length cards))) as [Hk _].
  apply (f_equal length) in Hk. by rewrite !length_fmap in Hk.
Qed.

(** On a page that can be reached while the server sends no markup, removing
    a post that is there leaves the titles 1, 2, ..., N on the N cards that
    remain. *)
Theorem removePost_renumbers st n :
  reachable st →
  getElementById ("post-" +:+ decimal n) (document st) ≠ None →
  displayed_titles (document (removePost n st))
  = post_title <$>
      seq 1 (length (querySelectorAll "post-card"
                       (document (removePost n st)))).
Proof.
  intros (f & Hrep)%reachable_represented Hthere.
  pose proof (step_remove_post n f st Hrep) as [Hwf' Hdoc'].
  destruct Hrep as [Hwf Hdoc]. cbn [perform form_step] in *.
  destruct (alter_first _ (form_cards f)) as [cards|] eqn:Hc.
  - rewrite Hdoc', displayed_titles_render, querySelectorAll_post_card
      by apply Hwf'.
    simpl. by rewrite length_fmap, renumber_titles, length_renumber.
  - destruct Hthere. rewrite Hdoc.
    destruct (getElementById _ (render f)) as [g|] eqn:Hg; [|done].
    apply remove_by_id_some in Hg as (doc' & ? & ? & ? & Hrm & _).
    rewrite remove_post_render, Hc in Hrm by apply Hwf. done.
Qed.

(** ** The staff groups of a page that can be reached *)

Lemma card_class_staff_group c :
  matching (has_class "staff-group") (flatten (render_card c))
  = render_staff (card_id c) <$> card_staff c.
Proof.
  unfold render_card. rewrite flatten_post_card, !matching_app.
  replace (matching (has_class "staff-group") (take 13 _)) with (@nil node)
    by reflexivity.
  replace (matching (has_class "staff-group") [_]) with (@nil node)
    by reflexivity.
  rewrite app_nil_r. simpl.
  induction (card_staff c) as [|r rows IH]; [done|].
  rewrite fmap_cons, elements_cons_flatten, matching_app, IH. done.
Qed.

Lemma querySelectorAll_staff_group f :
  Forall tmc_element (elements (form_tmc f)) →
  querySelectorAll "staff-group" (render f)
  = form_cards f ≫= λ c, render_staff (card_id c) <$> card_staff c.
Proof.
  intros Htmc. rewrite querySelectorAll_matching. unfold render.
  rewrite elements_page. cbn [app]. rewrite !matching_cons.
  do 2 change (has_class "staff-group" (element _ _ _ _ _)) with false.
  cbv iota. rewrite matching_app, matching_cons, matching_app.
  change (has_class "staff-group" (element _ _ _ _ _)) with false. cbv iota.
  rewrite (tmc_no_class _ (form_tmc f)) by (done || (do 2 right; by left)).
  replace (matching (has_class "staff-group") [_; _; _]) with (@nil node)
    by (by destruct (form_report f)).
  rewrite app_nil_r.
  induction (form_cards f) as [|c cards IH]; [done|].
  rewrite fmap_cons, elements_cons_flatten, matching_app.
  by rewrite card_class_staff_group, IH.
Qed.

(** Every staff group of such a page is one that [addStaff] built, and it is
    what [getElementById] finds under its id. *)
Lemma staff_group_reachable st j g :
  reachable st →
  querySelectorAll "staff-group" (document st) !! j = Some g →
  (∃ pos cnt sal, g = staff_group_with (elemId g) pos cnt sal) ∧
  getElementById (elemId g) (document st) = Some g.
Proof.
  intros (f & Hwf & Hdoc)%reachable_represented Hg.
  rewrite Hdoc, querySelectorAll_staff_group in Hg by apply Hwf.
  apply list_elem_of_lookup_2, list_elem_of_bind in Hg as (c & Hg & Hc).
  apply list_elem_of_fmap in Hg as (r & -> & Hr). split.
  - by exists (row_position r), (row_count r), (row_salary r).
  - rewrite Hdoc. by apply (getElementById_staff_group f st).
Qed.


(** ** The equipment selection of a page that shows a form *)

Lemma getElementById_tmc s f :
  (∃ item, s = "tmc-check-" +:+ decimal item ∨ s = "tmc-qty-" +:+ decimal item) →
  getElementById s (render f) = getElementById s (form_tmc f).
Proof.
  intros Hs. rewrite !getElementById_matching. unfold render.
  destruct (tmc_id_not_static s Hs) as (H1 & H2 & H3 & H4 & H5).
  rewrite elements_page. cbn [app]. rewrite !matching_cons.
  rewrite !has_id_false by done. rewrite matching_app.
  replace (matching (has_id s) (elements (render_card <$> _))) with (@nil node).
  2:{ symmetry. apply matching_nil_Forall, elements_fmap. intros c _.
      apply matching_nil_Forall, card_foreign, static_not_shown.
      right. exact Hs. }
  cbn [app]. rewrite matching_cons, has_id_false by done.
  rewrite matching_app, head_app_first.
  destruct (head (matching (has_id s) (elements (form_tmc f)))); [done|].
  rewrite !matching_cons, (has_id_false s (input _ _)) by done.
  rewrite (has_id_noid s) by done.
  rewrite (has_id_false s (result_div _)) by (by destruct (form_report f)).
  done.
Qed.

Lemma value_of_tmc s f :
  (∃ item, s = "tmc-check-" +:+ decimal item ∨ s = "tmc-qty-" +:+ decimal item) →
  value_of s (render f) = value_of s (form_tmc f).
Proof. intros Hs. unfold value_of. by rewrite getElementById_tmc. Qed.

Lemma collect_tmc_render f items :
  collect_tmc (render f) items = collect_tmc (form_tmc f) items.
Proof.
  induction items as [|item items IH]; [done|]. cbn [collect_tmc].
  rewrite getElementById_tmc by (eexists; by left).
  rewrite value_of_tmc by (eexists; by right). by rewrite IH.
Qed.

(** What [calculate] has to send is read off the form. *)
Lemma serialize_render f st :
  represents f st → serialize st = form_request f (tmcItems st).
Proof.
  intros [Hwf Hdoc]. unfold serialize, form_request, read_markup.
  rewrite Hdoc, (collect_posts_render f st Hwf). cbn [mbind result_bind].
  case_bool_decide; [done|].
  rewrite collect_tmc_render, value_of_markup_render by apply Hwf.
  by destruct (collect_tmc _ _).
Qed.

(** ** Looking up a post card *)

Lemma lookup_card_itself n t h d groups :
  head (matching (has_id (show (PostId n)))
          (flatten (post_card_with n t h d groups)))
  = Some (post_card_with n t h d groups).
Proof.
  unfold post_card_with at 1. cbn [flatten element]. rewrite matching_cons.
  decide_has_id. done.
Qed.

Lemma getElementById_post f st n :
  well_formed f st →
  getElementById ("post-" +:+ decimal n) (render f)
  = find_first (λ c, if decide (card_id c = n) then Some (render_card c)
                     else None) (form_cards f).
Proof.
  intros Hwf. rewrite (getElementById_render (PostId n)) by apply Hwf.
  induction (form_cards f) as [|c cards IH]; [done|]. cbn [find_first].
  rewrite IH. destruct (decide (card_id c = n)) as [<-|Hne].
  - unfold render_card at 1. by rewrite lookup_card_itself.
  - by rewrite card_no_match.
Qed.

Lemma find_first_Some {A B} (v : A → option B) l b :
  find_first v l = Some b → ∃ x, x ∈ l ∧ v x = Some b.
Proof.
  induction l as [|x l IH]; [done|]. cbn [find_first].
  destruct (v x) as [b'|] eqn:Hv.
  - intros [= <-]. exists x. split; [left|done].
  - intros (y & Hy & Hvy)%IH. exists y. split; [by right|done].
Qed.

Lemma find_first_None {A B} (v : A → option B) l :
  find_first v l = None ↔ Forall (λ x, v x = None) l.
Proof.
  induction l as [|x l IH]; cbn [find_first].
  - split; [constructor|done].
  - destruct (v x) eqn:Hv.
    + split; [done|]. intros [? _]%Forall_cons. congruence.
    + rewrite IH. split; [by constructor|by intros [_ ?]%Forall_cons].
Qed.

(** A post is on the page exactly when the form has its card. *)
Lemma post_on_page f st n :
  well_formed f st →
  getElementById ("post-" +:+ decimal n) (render f) ≠ None
  ↔ n ∈ card_id <$> form_cards f.
Proof.
  intros Hwf. rewrite (getElementById_post f st n Hwf). split.
  - destruct (find_first _ _) as [g|] eqn:Hg; [|done]. intros _.
    apply find_first_Some in Hg as (c & Hc & Hv).
    destruct (decide (card_id c = n)) as [<-|]; [|done].
    apply list_elem_of_fmap. by exists c.
  - intros (c & -> & Hc)%list_elem_of_fmap Hnone.
    apply find_first_None in Hnone. rewrite Forall_forall in Hnone.
    specialize (Hnone c Hc). by rewrite decide_True in Hnone.
Qed.

Lemma alter_first_in_card n (u : CardRow → option (list CardRow)) cards :
  (∀ c, is_Some (u c)) →
  n ∈ card_id <$> cards → is_Some (alter_first (in_card n u) cards).
Proof.
  intros Hu. induction cards as [|c cards IH]; [by intros ?%elem_of_nil|].
  rewrite fmap_cons. cbn [alter_first]. unfold in_card at 1.
  destruct (decide (card_id c = n)) as [Heq|Hne].
  - intros _. by destruct (Hu c) as [cs ->].
  - intros [?|Hin]%elem_of_cons; [congruence|].
    destruct (IH Hin) as [cs ->]. done.
Qed.

Lemma alter_first_not_in_card n (u : CardRow → option (list CardRow)) cards :
  n ∉ card_id <$> cards → alter_first (in_card n u) cards = None.
Proof.
  induction cards as [|c cards IH]; [done|]. rewrite fmap_cons.
  intros [Hne Hnin]%not_elem_of_cons. cbn [alter_first]. unfold in_card at 1.
  rewrite decide_False by done. by rewrite IH.
Qed.

(** ** Adding a post or a staff group *)

Lemma addStaff_render n f st :
  represents f st →
  addStaff n st =
  let k := S (default 0%nat (staffCounter st !! n)) in
  let st1 := {| postCounter := postCounter st;
                staffCounter := <[n := k]> (staffCounter st);
                tmcItems := tmcItems st; document := document st |} in
  match alter_first
          (in_card n (λ c, Some [with_staff (card_staff c ++ [new_row k]) c]))
          (form_cards f) with
  | Some cards => Done (with_document (render (with_cards cards f)) st1)
  | None => Throw TypeError st1
  end.
Proof.
  intros [Hwf Hdoc]. unfold addStaff. cbn [document].
  rewrite Hdoc, add_staff_render by apply Hwf.
  by destruct (alter_first _ _).
Qed.

Lemma addPost_render f st :
  represents f st →
  addPost st =
  let n := S (postCounter st) in
  let k := S (default 0%nat (staffCounter st !! n)) in
  Done {| postCounter := n; staffCounter := <[n := k]> (staffCounter st);
          tmcItems := tmcItems st;
          document := render (with_cards (form_cards f ++ [new_card n k]) f) |}.
Proof.
  intros [Hwf Hdoc]. unfold addPost. cbn [document]. rewrite Hdoc.
  unfold render at 1. rewrite append_post_render.
  set (n := S (postCounter st)).
  set (c0 := {| card_id := n; card_title := post_title n;
                card_hours := "12"; card_days := "7"; card_staff := [] |}).
  set (f1 := with_cards (form_cards f ++ [c0]) f).
  assert (Hfresh : Forall (λ c, card_id c ≠ n) (form_cards f)).
  { eapply Forall_impl; [apply Hwf|]. intros c (Hid & _). simpl in *.
    unfold n. lia. }
  unfold addStaff. cbn [document with_document staffCounter postCounter tmcItems].
  assert (Hr : page ((render_card <$> form_cards f) ++ [post_card n])
                    (form_tmc f) (form_markup f) (form_report f) = render f1).
  { unfold f1, render. simpl. by rewrite fmap_app. }
  rewrite Hr, add_staff_render by apply Hwf. unfold f1. cbn [form_cards with_cards].
  rewrite alter_first_app_none.
  2:{ eapply Forall_impl; [exact Hfresh|]. intros c Hc. unfold in_card.
      by rewrite decide_False. }
  cbn [alter_first]. unfold in_card. cbn [card_id c0].
  rewrite decide_True by done. done.
Qed.

Lemma elemId_render_card c : elemId (render_card c) = show (PostId (card_id c)).
Proof. done. Qed.

Lemma elemId_render_staff n r :
  elemId (render_staff n r) = show (StaffGroupId n (row_k r)).
Proof. done. Qed.

(** On a page that can be reached while the server sends no markup,
    [addPost()] does not throw.  It counts one up and the page shows one
    more card, the last one, whose id and title carry the new value of the
    counter, with the hours 12, the days 7 and one empty staff group in it;
    the cards that were there, with all that is in them, their titles and
    their staff groups are as before. *)
Theorem addPost_appends_a_post st :
  reachable st →
  ∃ st',
    let n := S (postCounter st) in
    let k := S (default 0%nat (staffCounter st !! n)) in
    addPost st = Done st' ∧
    postCounter st' = n ∧
    staffCounter st' = <[n := k]> (staffCounter st) ∧
    tmcItems st' = tmcItems st ∧
    displayed_titles (document st')
      = displayed_titles (document st) ++ [post_title n] ∧
    querySelectorAll "post-card" (document st')
      = querySelectorAll "post-card" (document st)
        ++ [post_card_with n (post_title n) "12" "7"
              [staff_group (staff_id n k)]] ∧
    querySelectorAll "staff-group" (document st')
      = querySelectorAll "staff-group" (document st)
        ++ [staff_group (staff_id n k)].
Proof.
  intros (f & Hrep)%reachable_represented.
  rewrite (addPost_render f st Hrep). cbv zeta.
  destruct Hrep as [Hwf Hdoc]. eexists. split; [reflexivity|].
  cbn [postCounter staffCounter tmcItems document]. rewrite Hdoc.
  assert (Htmc := wf_tmc _ _ Hwf).
  rewrite !displayed_titles_render, !querySelectorAll_post_card,
    !querySelectorAll_staff_group by done.
  cbn [form_cards with_cards]. rewrite !fmap_app, bind_app.
  do 5 (split; [done|]). f_equal.
Qed.

(** The first post of the page. *)
Lemma addPost_appends_a_post_witness :
  ∃ st',
    addPost initial = Done st' ∧
    postCounter st' = 1%nat ∧
    staffCounter st' = <[1%nat := 1%nat]> (staffCounter initial) ∧
    tmcItems st' = [] ∧
    displayed_titles (document st') = [] ++ [post_title 1] ∧
    querySelectorAll "post-card" (document st')
      = [] ++ [post_card_with 1 (post_title 1) "12" "7"
                 [staff_group (staff_id 1 1)]] ∧
    querySelectorAll "staff-group" (document st')
      = [] ++ [staff_group (staff_id 1 1)].
Proof. apply (addPost_appends_a_post initial). reached (@nil action). Defined.

(** ** What a new post or staff group sends *)

Lemma posts_from_app index l1 l2 :
  posts_from index (l1 ++ l2)
  = posts_from index l1 ++ posts_from (index + length l1) l2.
Proof.
  revert index. induction l1 as [|c l1 IH]; intros index; simpl.
  - by rewrite Nat.add_0_r.
  - rewrite IH, <- Nat.add_succ_comm. by case_bool_decide.
Qed.

Lemma posts_from_sends_as index l l' :
  Forall2 sends_as l l' → posts_from index l' = posts_from index l.
Proof.
  intros H. revert index. induction H as [|c c' l l' (Hh & Hd & Hs) _ IH];
    intros index; [done|]. simpl. rewrite IH, Hs. unfold card_post.
  by rewrite Hh, Hd, Hs.
Qed.

Lemma sends_as_refl l : Forall2 sends_as l l.
Proof. induction l; constructor; [done|done]. Qed.

Lemma alter_first_sends_as (u : CardRow → option (list CardRow)) l l' :
  (∀ c cs, u c = Some cs → ∃ c', cs = [c'] ∧ sends_as c c') →
  alter_first u l = Some l' → Forall2 sends_as l l'.
Proof.
  intros Hu. revert l'. induction l as [|c l IH]; intros l'; [done|].
  cbn [alter_first]. destruct (u c) as [cs|] eqn:Hc.
  - intros [= <-]. destruct (Hu c cs Hc) as (c' & -> & Hs).
    constructor; [done|apply sends_as_refl].
  - destruct (alter_first u l) as [l1|]; [|done]. intros [= <-].
    constructor; [done|by apply IH].
Qed.

Lemma in_card_sends_as n (u : CardRow → option (list CardRow)) :
  (∀ c cs, u c = Some cs → ∃ c', cs = [c'] ∧ sends_as c c') →
  ∀ c cs, in_card n u c = Some cs → ∃ c', cs = [c'] ∧ sends_as c c'.
Proof. intros Hu c cs. unfold in_card. case_decide; [apply Hu|done]. Qed.

Lemma new_row_not_sent k rows :
  filter (λ s, staff_accepted s = true) (row_staff <$> rows ++ [new_row k])
  = filter (λ s, staff_accepted s = true) (row_staff <$> rows).
Proof.
  rewrite fmap_app, filter_app. cbn [fmap list_fmap].
  rewrite filter_cons_False by done. by rewrite filter_nil, app_nil_r.
Qed.

Lemma form_request_sends_as f f' items :
  Forall2 sends_as (form_cards f) (form_cards f') →
  form_tmc f' = form_tmc f → form_markup f' = form_markup f →
  form_request f' items = form_request f items.
Proof.
  intros Hc Ht Hm. unfold form_request, form_posts.
  by rewrite (posts_from_sends_as 0 _ _ Hc), Ht, Hm.
Qed.

(** A post or a staff group that was just added sends nothing: after
    [addPost()] or [addStaff(n)] on a page that can be reached while the
    server sends no markup, [calculate] has the same to send as before. *)
Theorem new_post_or_group_sends_nothing st n :
  reachable st →
  serialize (state_of (addPost st)) = serialize st ∧
  serialize (state_of (addStaff n st)) = serialize st.
Proof.
  intros (f & Hrep)%reachable_represented.
  rewrite (serialize_render f st Hrep). split.
  - change (state_of (addPost st)) with (perform st AddPost).
    rewrite (serialize_render _ _ (step_represents f st AddPost Hrep I)).
    cbn [perform]. rewrite (addPost_render f st Hrep).
    cbn [state_of tmcItems form_step].
    unfold form_request, form_posts. cbn [form_cards with_cards form_tmc form_markup].
    rewrite posts_from_app. cbn [posts_from].
    rewrite (bool_decide_eq_false_2 (card_staff_sent _ ≠ []))
      by (intros H; by apply H).
    by rewrite app_nil_r.
  - change (state_of (addStaff n st)) with (perform st (AddStaff n)).
    rewrite (serialize_render _ _ (step_represents f st (AddStaff n) Hrep I)).
    cbn [perform]. rewrite (addStaff_render n f st Hrep). cbv zeta.
    cbn [form_step].
    unfold on_cards.
    destruct (alter_first _ (form_cards f)) as [cards|] eqn:Hc;
      cbn [state_of tmcItems with_document]; [|done].
    apply form_request_sends_as; [|done..]. cbn [form_cards with_cards].
    eapply alter_first_sends_as; [|exact Hc]. apply in_card_sends_as.
    intros c cs [= <-]. eexists. split; [done|]. repeat split.
    unfold card_staff_sent. cbn [card_staff with_staff].
    apply new_row_not_sent.
Qed.

(** The page with one filled post. *)
Lemma new_post_or_group_sends_nothing_witness :
  serialize (state_of (addPost one_post_filled)) = serialize one_post_filled ∧
  serialize (state_of (addStaff 1 one_post_filled)) = serialize one_post_filled.
Proof.
  apply (new_post_or_group_sends_nothing one_post_filled 1).
  reached [AddPost; TypeStaff 1 1 Position "Guard"; TypeStaff 1 1 Count "2";
          TypeStaff 1 1 Salary "150000"].
Defined.

(** ** Ids are given out once *)

Lemma getElementById_nowhere i f st :
  well_formed f st →
  Forall (λ c, matching (has_id (show i)) (flatten (render_card c)) = [])
    (form_cards f) →
  getElementById (show i) (render f) = None.
Proof.
  intros Hwf Hall. rewrite getElementById_render by apply Hwf.
  apply find_first_None. eapply Forall_impl; [exact Hall|].
  by intros c ->.
Qed.

Lemma card_no_group n k c :
  Forall (λ r, row_k r ≠ k) (card_staff c) →
  matching (has_id (show (StaffGroupId n k))) (flatten (render_card c)) = [].
Proof.
  intros Hrows. destruct (decide (card_id c = n)) as [<-|Hne].
  2:{ apply card_no_match. simpl. congruence. }
  apply matching_nil_Forall. unfold render_card. apply Forall_flatten_card.
  - repeat constructor; apply bool_decide_eq_false_2; intros [_ H];
      try discriminate H;
      by apply (show_inj (HoursId _) (StaffGroupId _ _)) in H
      || by apply (show_inj (DaysId _) (StaffGroupId _ _)) in H
      || by apply (show_inj (PostId _) (StaffGroupId _ _)) in H
      || by apply (show_inj (StaffBoxId _) (StaffGroupId _ _)) in H.
  - apply elements_fmap. intros r Hr.
    apply matching_nil_Forall, group_no_match.
    + rewrite Forall_forall in Hrows. specialize (Hrows r Hr). congruence.
    + done.
  - done.
Qed.

(** The counters are never taken back, so an id is given out once: on a page
    that can be reached while the server sends no markup, no element carries
    the id that the next [addPost()] will give to its card, nor the id that
    the next [addStaff(n)] will give to its group, whatever was removed
    before. *)
Theorem next_ids_are_unused st n :
  reachable st →
  getElementById ("post-" +:+ decimal (S (postCounter st))) (document st) = None ∧
  getElementById (staff_id n (S (default 0%nat (staffCounter st !! n))))
    (document st) = None.
Proof.
  intros (f & Hwf & Hdoc)%reachable_represented. rewrite Hdoc. split.
  - apply (getElementById_nowhere (PostId _) f st Hwf).
    eapply Forall_impl; [apply Hwf|]. intros c (Hid & _).
    apply card_no_match. simpl in *. lia.
  - apply (getElementById_nowhere (StaffGroupId _ _) f st Hwf).
    eapply Forall_impl; [apply Hwf|]. intros c (_ & _ & Hk).
    destruct (decide (card_id c = n)) as [<-|Hne].
    + apply card_no_group. eapply Forall_impl; [exact Hk|].
      intros r Hr. simpl in *. lia.
    + apply card_no_match. simpl. congruence.
Qed.

(** After a post was added and removed again. *)
Lemma next_ids_are_unused_witness :
  getElementById "post-3" (document (removePost 2 (state_of (addPost loaded))))
    = None ∧
  getElementById "staff-1-2"
    (document (removePost 2 (state_of (addPost loaded)))) = None.
Proof.
  apply (next_ids_are_unused (removePost 2 (state_of (addPost loaded))) 1).
  reached [AddPost; AddPost; RemovePost 2].
Defined.

(** ** Ids identify the cards and the groups *)

Lemma NoDup_groups (cards : list CardRow) :
  NoDup (card_id <$> cards) →
  Forall (λ c, NoDup (row_k <$> card_staff c)) cards →
  NoDup (cards ≫= λ c, StaffGroupId (card_id c) <$> (row_k <$> card_staff c)).
Proof.
  induction cards as [|c cards IH]; [constructor|].
  rewrite fmap_cons. intros [Hc Hnd]%NoDup_cons [Hk Hks]%Forall_cons.
  cbn [mbind list_bind]. apply NoDup_app. split; [|split].
  - apply NoDup_fmap_2; [|done]. by intros ?? [= ->].
  - intros i (k & -> & _)%list_elem_of_fmap
      (c' & (k' & [= Heq _] & _)%list_elem_of_fmap & Hc')%list_elem_of_bind.
    apply Hc. rewrite Heq. apply list_elem_of_fmap. by exists c'.
  - by apply IH.
Qed.

Lemma ids_of_cards (cards : list CardRow) :
  elemId <$> (render_card <$> cards) = show <$> (PostId <$> (card_id <$> cards)).
Proof. rewrite <- !list_fmap_compose. by apply list_fmap_ext. Qed.

Lemma ids_of_groups f :
  elemId <$> (form_cards f ≫= λ c, render_staff (card_id c) <$> card_staff c)
  = show <$> (form_cards f ≫=
                λ c, StaffGroupId (card_id c) <$> (row_k <$> card_staff c)).
Proof.
  induction (form_cards f) as [|c cards IH]; [done|].
  cbn [mbind list_bind]. rewrite !fmap_app, IH. f_equal.
  rewrite <- !list_fmap_compose. by apply list_fmap_ext.
Qed.

(** On a page that can be reached while the server sends no markup the ids
    of the post cards and of the staff groups are pairwise distinct, and
    each of these elements is the one that [getElementById] finds under its
    id: the buttons of a card or of a group, which call [removePost],
    [addStaff] and [removeStaff] with these ids, act on the card or group
    they sit in. *)
Theorem ids_identify_cards_and_groups st :
  reachable st →
  NoDup (elemId <$> (querySelectorAll "post-card" (document st)
                     ++ querySelectorAll "staff-group" (document st))) ∧
  ∀ g, g ∈ querySelectorAll "post-card" (document st)
           ++ querySelectorAll "staff-group" (document st) →
       getElementById (elemId g) (document st) = Some g.
Proof.
  intros Hreach.
  destruct (reachable_represented st Hreach) as (f & Hwf & Hdoc). split.
  - rewrite Hdoc, querySelectorAll_post_card, querySelectorAll_staff_group
      by apply Hwf.
    rewrite fmap_app, ids_of_cards, ids_of_groups, <- fmap_app.
    apply NoDup_fmap_2; [intros i j; apply show_inj|].
    apply NoDup_app. split; [|split].
    + apply NoDup_fmap_2; [by intros ?? [= ->]|apply Hwf].
    + intros i (n & -> & _)%list_elem_of_fmap
        (c & (k & [=] & _)%list_elem_of_fmap & _)%list_elem_of_bind.
    + apply NoDup_groups; [apply Hwf|].
      eapply Forall_impl; [apply Hwf|]. by intros c (_ & Hnd & _).
  - intros g [Hg|Hg]%elem_of_app.
    + rewrite Hdoc in Hg |- *.
      rewrite querySelectorAll_post_card in Hg by apply Hwf.
      apply list_elem_of_fmap in Hg as (c & -> & Hc).
      change (elemId (render_card c)) with ("post-" +:+ decimal (card_id c)).
      rewrite (getElementById_post f st _ Hwf).
      rewrite (find_first_unique card_id
                 (λ c', if decide (card_id c' = card_id c)
                        then Some (render_card c') else None) _ c);
        [by rewrite decide_True|apply Hwf|done|].
      intros c' Hne. by rewrite decide_False.
    + apply list_elem_of_lookup in Hg as [j Hj].
      by destruct (staff_group_reachable st j g Hreach Hj).
Qed.

(** The page with two posts, the second one filled. *)
Lemma ids_identify_cards_and_groups_witness :
  NoDup (elemId <$> (querySelectorAll "post-card" (document second_post_filled)
                     ++ querySelectorAll "staff-group"
                          (document second_post_filled))) ∧
  ∀ g, g ∈ querySelectorAll "post-card" (document second_post_filled)
           ++ querySelectorAll "staff-group" (document second_post_filled) →
       getElementById (elemId g) (document second_post_filled) = Some g.
Proof.
  apply (ids_identify_cards_and_groups second_post_filled).
  reached [AddPost; AddPost; TypeStaff 2 1 Position "Guard";
          TypeStaff 2 1 Count "2"; TypeStaff 2 1 Salary "150000"].
Defined.

(** ** Removing a post *)

(** Two posts, the first of which is removed. *)
Lemma removePost_renumbers_witness :
  displayed_titles (document (removePost 1 (state_of (addPost loaded))))
  = post_title <$>
      seq 1 (length (querySelectorAll "post-card"
                       (document (removePost 1 (state_of (addPost loaded)))))).
Proof.
  apply (removePost_renumbers (state_of (addPost loaded)) 1).
  - reached [AddPost; AddPost].
  - vm_compute. discriminate.
Defined.

Lemma sends_as_trans l1 l2 l3 :
  Forall2 sends_as l1 l2 → Forall2 sends_as l2 l3 → Forall2 sends_as l1 l3.
Proof.
  intros H12. revert l3. induction H12 as [|c1 c2 l1 l2 H _ IH]; intros l3 H23.
  - by inversion H23.
  - inversion H23 as [|? c3 ? l3' H' Hl]; subst. constructor; [|by apply IH].
    destruct H as (?&?&?), H' as (?&?&?). repeat split; congruence.
Qed.

Lemma retitle_sends_as cards index : Forall2 sends_as cards (retitle cards index).
Proof.
  unfold retitle. generalize (post_title (index + 1)). intros t.
  revert index. induction cards as [|c cards IH]; intros [|i]; simpl;
    constructor; try done; apply sends_as_refl || apply IH.
Qed.

Lemma renumber_sends_as cards : Forall2 sends_as cards (renumber cards).
Proof.
  unfold renumber. generalize (seq 0 (length cards)). intros idx.
  revert cards. induction idx as [|i idx IH]; intros cards; [apply sends_as_refl|].
  cbn [foldl]. eapply sends_as_trans; [apply retitle_sends_as|apply IH].
Qed.

Lemma posts_from_numbers index cards :
  Forall (λ q, index < post_number q)%nat (posts_from index cards).
Proof.
  revert index. induction cards as [|c cards IH]; intros index; simpl;
    [constructor|].
  assert (Forall (λ q, index < post_number q)%nat (posts_from (S index) cards)).
  { eapply Forall_impl; [apply IH|]. intros q. simpl. lia. }
  case_bool_decide; [constructor; [simpl; lia|done]|done].
Qed.

Lemma posts_from_below index cards :
  Forall (λ q, post_number q ≤ index + length cards)%nat (posts_from index cards).
Proof.
  revert index. induction cards as [|c cards IH]; intros index; simpl;
    [constructor|].
  assert (Forall (λ q, post_number q ≤ index + S (length cards))%nat
            (posts_from (S index) cards)).
  { eapply Forall_impl; [apply IH|]. intros q. simpl. lia. }
  case_bool_decide; [constructor; [simpl; lia|done]|done].
Qed.

Lemma posts_from_move_up p index cards :
  (p ≤ S index)%nat →
  without_post p (posts_from (S index) cards) = posts_from index cards.
Proof.
  unfold without_post. revert index.
  induction cards as [|c cards IH]; intros index Hp; [done|]. simpl.
  case_bool_decide.
  - rewrite filter_cons_True by (simpl; lia). rewrite fmap_cons, IH by lia.
    f_equal. unfold move_up, card_post. simpl.
    rewrite decide_True by lia. f_equal. lia.
  - apply IH. lia.
Qed.

Lemma without_post_before p ps :
  Forall (λ q, post_number q < p)%nat ps → without_post p ps = ps.
Proof.
  unfold without_post. induction 1 as [|q ps Hq _ IH]; [done|].
  rewrite filter_cons_True by lia. rewrite fmap_cons, IH. f_equal.
  unfold move_up. by rewrite decide_False by lia.
Qed.

Lemma without_post_app p ps1 ps2 :
  without_post p (ps1 ++ ps2) = without_post p ps1 ++ without_post p ps2.
Proof. unfold without_post. by rewrite filter_app, fmap_app. Qed.

Lemma delete_fmap {A B} (g : A → B) j (l : list A) :
  delete j (g <$> l) = g <$> delete j l.
Proof.
  revert j. induction l as [|x l IH]; intros [|j]; simpl; try done.
  by rewrite IH.
Qed.

(** The card at a position of a form with distinct numbers is the first one
    with its number. *)
Lemma alter_first_at_position (cards : list CardRow) j c u :
  NoDup (card_id <$> cards) → cards !! j = Some c →
  alter_first (in_card (card_id c) u) cards =
  match u c with
  | Some cs => Some (take j cards ++ cs ++ drop (S j) cards)
  | None => None
  end.
Proof.
  revert j. induction cards as [|c' cards IH]; intros [|j] Hnd Hj; try done.
  - injection Hj as ->. cbn [alter_first]. unfold in_card at 1.
    rewrite decide_True by done. simpl. destruct (u c) as [cs|] eqn:Hu; [done|].
    rewrite fmap_cons in Hnd. apply NoDup_cons in Hnd as [Hnin _].
    by rewrite alter_first_not_in_card.
  - rewrite fmap_cons in Hnd. apply NoDup_cons in Hnd as [Hnin Hnd].
    simpl in Hj.
    cbn [alter_first]. unfold in_card at 1. rewrite decide_False.
    2:{ intros Heq. apply Hnin. rewrite Heq. apply list_elem_of_fmap.
        exists c. split; [done|]. by apply list_elem_of_lookup_2 in Hj. }
    rewrite (IH j Hnd Hj). by destruct (u c).
Qed.

(** On a page that can be reached while the server sends no markup,
    [removePost(n)] for the card at position [j] takes that card out of the
    list of the cards and leaves the others in their order; what [calculate]
    collects afterwards is what it collected before without the entry of
    that post, the later posts having moved up by one; the counters are not
    taken back. *)
Theorem removePost_drops_the_entry st j g n ps :
  reachable st →
  querySelectorAll "post-card" (document st) !! j = Some g →
  elemId g = "post-" +:+ decimal n →
  collect_posts (document st) = Ok ps →
  elemId <$> querySelectorAll "post-card" (document (removePost n st))
    = delete j (elemId <$> querySelectorAll "post-card" (document st)) ∧
  collect_posts (document (removePost n st)) = Ok (without_post (j + 1) ps) ∧
  postCounter (removePost n st) = postCounter st ∧
  staffCounter (removePost n st) = staffCounter st.
Proof.
  intros (f & Hrep)%reachable_represented Hj Hid Hps.
  pose proof (step_represents f st (RemovePost n) Hrep I) as [Hwf' Hdoc'].
  destruct Hrep as [Hwf Hdoc]. cbn [perform form_step] in Hwf', Hdoc'.
  rewrite Hdoc in Hj, Hps.
  rewrite querySelectorAll_post_card in Hj by apply Hwf.
  rewrite list_lookup_fmap in Hj.
  destruct (form_cards f !! j) as [c|] eqn:Hc; [|done]. injection Hj as <-.
  assert (card_id c = n) as <-.
  { apply decimal_inj. change (elemId (render_card c))
      with ("post-" +:+ decimal (card_id c)) in Hid.
    push_append_in Hid. by injection Hid. }
  rewrite (alter_first_at_position _ j c) in Hwf', Hdoc' by (apply Hwf || done).
  cbn [app] in Hwf', Hdoc'.
  rewrite (collect_posts_render f st Hwf) in Hps. injection Hps as <-.
  rewrite Hdoc', Hdoc, (collect_posts_render _ _ Hwf').
  rewrite !querySelectorAll_post_card by (apply Hwf || apply Hwf').
  cbn [form_cards with_cards]. split; [|split].
  - rewrite !ids_of_cards. unfold renumber.
    destruct (retitle_keeps st (take j (form_cards f) ++ drop (S j) (form_cards f))
                (seq 0 (length (take j (form_cards f)
                                ++ drop (S j) (form_cards f))))) as [-> _].
    by rewrite <- delete_take_drop, !delete_fmap.
  - f_equal. unfold form_posts. cbn [form_cards with_cards].
    rewrite (posts_from_sends_as 0 _ _ (renumber_sends_as _)).
    rewrite <- (take_drop_middle _ _ _ Hc) at 3.
    rewrite !posts_from_app. cbn [posts_from].
    assert (Hlen : length (take j (form_cards f)) = j).
    { apply length_take_le. apply lookup_lt_Some in Hc. lia. }
    rewrite Hlen. cbn [Nat.add].
    rewrite without_post_app, without_post_before.
    2:{ eapply Forall_impl; [apply posts_from_below|]. intros q. simpl.
        rewrite Hlen. lia. }
    f_equal. case_bool_decide.
    + change (?x :: ?l) with ([x] ++ l). rewrite without_post_app.
      rewrite posts_from_move_up by lia. unfold without_post.
      rewrite filter_cons_False by (simpl; lia). done.
    + rewrite posts_from_move_up by lia. done.
  - rewrite removePost_eq. by destruct (remove_by_id _ _).
Qed.

(** Two posts, the second one filled: removing the first one. *)
Lemma removePost_drops_the_entry_witness :
  ∃ ps,
    collect_posts (document second_post_filled) = Ok ps ∧
    post_number <$> ps = [2%nat] ∧
    post_number <$> without_post 1 ps = [1%nat] ∧
    collect_posts (document (removePost 1 second_post_filled))
      = Ok (without_post 1 ps).
Proof.
  destruct (collect_posts (document second_post_filled)) as [ps|] eqn:Hps;
    [|vm_compute in Hps; discriminate].
  exists ps. split; [done|].
  assert (Hq : querySelectorAll "post-card" (document second_post_filled) !! 0%nat
               = Some (post_card_with 1 (post_title 1) "12" "7"
                         [staff_group "staff-1-1"])) by (vm_compute; reflexivity).
  assert (Hreach : reachable second_post_filled).
  { reached [AddPost; AddPost; TypeStaff 2 1 Position "Guard";
            TypeStaff 2 1 Count "2"; TypeStaff 2 1 Salary "150000"]. }
  destruct (removePost_drops_the_entry second_post_filled 0 _ 1 ps
              Hreach Hq eq_refl Hps) as (_ & H & _).
  vm_compute in Hps. injection Hps as <-.
  split; [reflexivity|]. split; [reflexivity|]. exact H.
Defined.

(** ** The equipment items and their quantity fields *)






Lemma getElementById_listed s doc :
  s ≠ EmptyString → s ∈ elemId <$> elements doc → getElementById s doc ≠ None.
Proof.
  intros Hs (e & -> & He)%list_elem_of_fmap. rewrite getElementById_matching.
  assert (Hin : e ∈ matching (has_id (elemId e)) (elements doc)).
  { apply list_elem_of_filter. split; [|done]. by apply bool_decide_eq_true_2. }
  destruct (matching _ _); [by apply elem_of_nil in Hin|done].
Qed.








(** ** Calculating on a page that can be reached *)

Lemma getElementById_result f :
  Forall tmc_element (elements (form_tmc f)) →
  getElementById "result" (render f) = Some (result_div (form_report f)).
Proof.
  intros Htmc. rewrite getElementById_matching. unfold render.
  rewrite elements_page. cbn [app]. rewrite !matching_cons.
  do 2 change (has_id "result" (element _ _ _ _ _)) with false. cbv iota.
  rewrite matching_app.
  replace (matching (has_id "result") (elements (render_card <$> _)))
    with (@nil node).
  2:{ symmetry. apply matching_nil_Forall, elements_fmap. intros c _.
      apply matching_nil_Forall, card_foreign, static_not_shown.
      left. do 2 right. by left. }
  cbn [app]. rewrite matching_cons.
  change (has_id "result" (element _ _ _ _ _)) with false. cbv iota.
  rewrite matching_app.
  replace (matching (has_id "result") (elements (form_tmc f)))
    with (@nil node).
  2:{ symmetry. apply matching_nil_Forall.
      eapply Forall_impl; [exact Htmc|]. intros e.
      apply tmc_element_other. right. by left. }
  by destruct (form_report f).
Qed.




(** On a page that can be reached while the server sends no markup, when the
    server answers the request with a result without markup, [calculate]
    ends without an alert; the element [result] then holds that result and
    nothing else and is no longer hidden, the counters and the titles are as
    before, and the form is as it was: a second [calculate] has the same to
    send. *)
Theorem calculate_displays_the_result server st req r :
  reachable st →
  serialize st = Ok (Request req) →
  server req = Response true (Some r) →
  ∃ st' el,
    calculate server st = ([Fetch "/api/calculate" req], st') ∧
    getElementById "result" (document st') = Some el ∧
    report el = Some r ∧ ("hidden" ∉ classList el) ∧ children el = [] ∧
    postCounter st' = postCounter st ∧ staffCounter st' = staffCounter st ∧
    displayed_titles (document st') = displayed_titles (document st) ∧
    serialize st' = serialize st.
Proof.
  intros (f & Hrep)%reachable_represented Hs Hr.
  pose proof (step_represents f st (Calculate (λ _, Response true (Some r)))
                Hrep (λ _, I)) as Hrep'.
  cbn [perform form_step] in Hrep'. rewrite Hs in Hrep'.
  unfold calculate in Hrep' |- *. rewrite Hs in Hrep' |- *. rewrite Hr.
  destruct Hrep as [Hwf Hdoc].
  rewrite Hdoc, display_render in Hrep' |- * by apply Hwf. cbn [snd] in Hrep'.
  eexists _, _. split; [reflexivity|].
  rewrite (serialize_render _ _ Hrep'), <- Hs,
    (serialize_render f st (conj Hwf Hdoc)).
  cbn [document with_document postCounter staffCounter tmcItems].
  rewrite getElementById_result, !displayed_titles_render by apply Hwf.
  cbn [form_report form_cards result_div report classList children].
  split; [done|]. split; [done|]. split; [by intros ?%elem_of_nil|].
  repeat (split; [done|]). done.
Qed.

(** One filled post, and a server that answers with a blank result. *)
Lemma calculate_displays_the_result_witness :
  ∃ req st' el,
    calculate blank_server one_post_filled
    = ([Fetch "/api/calculate" req], st') ∧
    getElementById "result" (document st') = Some el ∧
    ("hidden" ∉ classList el) ∧
    serialize st' = serialize one_post_filled.
Proof.
  destruct (serialize one_post_filled) as [[|req]|] eqn:Hs;
    [vm_compute in Hs; discriminate| |vm_compute in Hs; discriminate].
  exists req.
  destruct (calculate_displays_the_result blank_server one_post_filled req
              blank_result)
    as (st' & el & Hc & Hg & _ & Hh & _ & _ & _ & _ & Hser).
  - reached [AddPost; TypeStaff 1 1 Position "Guard"; TypeStaff 1 1 Count "2";
            TypeStaff 1 1 Salary "150000"].
  - exact Hs.
  - reflexivity.
  - exists st', el. rewrite <- Hs. exact (conj Hc (conj Hg (conj Hh Hser))).
Defined.

(** ** Loading the equipment items *)

Lemma getElementById_elem_of s doc e :
  getElementById s doc = Some e → e ∈ elements doc ∧ has_id s e = true.
Proof.
  rewrite getElementById_matching. intros He.
  assert (Hin : e ∈ matching (has_id s) (elements doc)).
  { destruct (matching _ _) as [|e' l]; [done|]. injection He as ->. left. }
  by apply list_elem_of_filter in Hin as [? ?].
Qed.

Lemma collect_tmc_unticked doc items :
  Forall (λ e, checked e = false) (elements doc) → collect_tmc doc items = Ok [].
Proof.
  intros Hall. induction items as [|item items IH]; [done|].
  cbn [collect_tmc].
  destruct (getElementById _ doc) as [e|] eqn:He; [|done].
  apply getElementById_elem_of in He as [He _].
  rewrite Forall_forall in Hall. by rewrite (Hall e He).
Qed.

Lemma tmc_rows_unticked items :
  Forall plain_item items →
  Forall (λ e, checked e = false) (elements (tmc_rows items)).
Proof.
  destruct items as [|i0 items]; [by repeat constructor|].
  unfold tmc_rows. generalize (i0 :: items). intros l.
  induction 1 as [|item l [Hitem _] _ IH]; [constructor|].
  rewrite fmap_cons, elements_cons_flatten. apply Forall_app. split; [|done].
  unfold tmc_checkbox. rewrite Hitem. by repeat constructor.
Qed.

(** On a page that can be reached while the server sends no markup,
    [loadTMC] that gets a list of items without markup in their names logs
    no error, keeps the list, and builds the selection anew: whatever was
    ticked before, no item is ticked afterwards, so that [calculate]
    collects no equipment; the posts it collects are the same. *)
Theorem loadTMC_clears_the_selection items st :
  reachable st →
  Forall plain_item items →
  fst (loadTMC (Some items) st) = [] ∧
  tmcItems (snd (loadTMC (Some items) st)) = items ∧
  collect_tmc (document (snd (loadTMC (Some items) st))) items = Ok [] ∧
  collect_posts (document (snd (loadTMC (Some items) st)))
    = collect_posts (document st).
Proof.
  intros (f & Hrep)%reachable_represented Hplain.
  pose proof (step_represents f st (LoadTMC (Some items)) Hrep Hplain)
    as [Hwf' Hdoc'].
  cbn [perform form_step] in Hwf', Hdoc'. destruct Hrep as [Hwf Hdoc].
  rewrite Hdoc', Hdoc, (collect_posts_render _ _ Hwf'),
    (collect_posts_render _ _ Hwf), collect_tmc_render.
  cbn [form_tmc with_tmc]. unfold loadTMC. fold (tmc_rows items).
  rewrite Hdoc, load_tmc_render. cbn [fst snd tmcItems with_document].
  split; [done|]. split; [done|]. split; [|done].
  by apply collect_tmc_unticked, tmc_rows_unticked.
Qed.

(** The page with the torch ticked, loading the same two items again. *)
Lemma loadTMC_clears_the_selection_witness :
  (∃ sel, collect_tmc (document torch_ticked) [radio; torch] = Ok sel ∧
          item_id <$> sel = [9%nat]) ∧
  collect_tmc (document (snd (loadTMC (Some [radio; torch]) torch_ticked)))
    [radio; torch] = Ok [].
Proof.
  split; [eexists; split; vm_compute; reflexivity|].
  apply (loadTMC_clears_the_selection [radio; torch] torch_ticked).
  - reached [AddPost; TypeStaff 1 1 Position "Guard"; TypeStaff 1 1 Count "2";
            TypeStaff 1 1 Salary "150000"; LoadTMC (Some [radio; torch]);
            Tick 9 true; TypeQuantity 9 "0"].
  - repeat constructor.
Defined.

(** ** Adding a staff group to a post *)

(** On a page that can be reached while the server sends no markup,
    [addStaff(n)] for the post whose card is at position [j] does not
    throw.  It counts the staff counter of the post one up and gives the
    card one more staff group, the last one, with the new value of the
    counter in its id and nothing filled in; the other cards and the titles
    are as before. *)
Theorem addStaff_appends_a_group st j g n :
  reachable st →
  querySelectorAll "post-card" (document st) !! j = Some g →
  elemId g = "post-" +:+ decimal n →
  ∃ st' g',
    let k := S (default 0%nat (staffCounter st !! n)) in
    addStaff n st = Done st' ∧
    postCounter st' = postCounter st ∧
    staffCounter st' = <[n := k]> (staffCounter st) ∧
    querySelectorAll "post-card" (document st')
      = <[j := g']> (querySelectorAll "post-card" (document st)) ∧
    elemId g' = elemId g ∧
    querySelectorAll_in "staff-group" g'
      = querySelectorAll_in "staff-group" g ++ [staff_group (staff_id n k)] ∧
    displayed_titles (document st') = displayed_titles (document st).
Proof.
  intros (f & Hrep)%reachable_represented Hj Hid.
  rewrite (addStaff_render n f st Hrep). cbv zeta.
  destruct Hrep as [Hwf Hdoc]. rewrite Hdoc in Hj |- *.
  rewrite querySelectorAll_post_card in Hj |- * by apply Hwf.
  rewrite list_lookup_fmap in Hj.
  destruct (form_cards f !! j) as [c|] eqn:Hc; [|done]. injection Hj as <-.
  assert (card_id c = n) as <-.
  { apply decimal_inj. change (elemId (render_card c))
      with ("post-" +:+ decimal (card_id c)) in Hid.
    push_append_in Hid. by injection Hid. }
  rewrite (alter_first_at_position _ j c) by (apply Hwf || done).
  set (k := S (default 0%nat (staffCounter st !! card_id c))).
  set (c' := with_staff (card_staff c ++ [new_row k]) c).
  assert (Hlen : length (take j (form_cards f)) = j).
  { apply length_take_le. apply lookup_lt_Some in Hc. lia. }
  pose proof (take_drop_middle _ _ _ Hc) as Hsplit.
  set (l1 := take j (form_cards f)) in *.
  set (l2 := drop (S j) (form_cards f)) in *.
  exists (with_document
            (render (with_cards (l1 ++ [c'] ++ l2) f))
            {| postCounter := postCounter st;
               staffCounter := <[card_id c := k]> (staffCounter st);
               tmcItems := tmcItems st; document := render f |}),
         (render_card c').
  split; [done|]. split; [done|]. split; [done|].
  cbn [document with_document].
  rewrite querySelectorAll_post_card, !displayed_titles_render by apply Hwf.
  cbn [form_cards with_cards]. rewrite <- Hsplit.
  split; [|split; [done|split]].
  - rewrite <- list_fmap_insert. f_equal.
    rewrite insert_app_r_alt by lia. by rewrite Hlen, Nat.sub_diag.
  - rewrite !staff_groups_of_card. unfold c'. cbn [card_id card_staff with_staff].
    by rewrite fmap_app.
  - by rewrite !fmap_app.
Qed.

(** The first post of the page gets a second staff group. *)
Lemma addStaff_appends_a_group_witness :
  ∃ st' g',
    addStaff 1 loaded = Done st' ∧
    staffCounter st' = <[1%nat := 2%nat]> (staffCounter loaded) ∧
    querySelectorAll "post-card" (document st') = [g'] ∧
    (elemId <$> querySelectorAll_in "staff-group" g')
      = ["staff-1-1"; "staff-1-2"].
Proof.
  destruct (addStaff_appends_a_group loaded 0
              (post_card_with 1 (post_title 1) "12" "7" [staff_group "staff-1-1"])
              1)
    as (st' & g' & Ha & _ & Hk & Hq & _ & Hg & _).
  - reached [AddPost].
  - vm_compute. reflexivity.
  - reflexivity.
  - exists st', g'. split; [exact Ha|]. split; [exact Hk|]. split; [exact Hq|].
    rewrite Hg. vm_compute. reflexivity.
Defined.

(** ** Walking a page twice *)

Lemma modify_node_missing P g n k :
  modify_node P g 0 n = Missing k → k = 0%nat ∧ matching P (flatten n) = [].
Proof.
  intros Hm. pose proof (modify_node_spec P g n 0 0) as Hspec.
  rewrite Hm in Hspec. simpl in Hspec. rewrite <- flatten_rows in Hspec.
  split; [lia|]. apply nil_length_inv. lia.
Qed.

Section again.
Variable P : node → bool.
Variables g g2 g3 : node → list node.
Variable h : node → node.
Hypothesis P_children : ∀ kids n, P (set_children kids n) = P n.
Hypothesis g_single : ∀ x, P x = true → g x = [h x] ∧ P (h x) = true.
Hypothesis g2_after : ∀ x, P x = true → g2 (h x) = g3 x.

Lemma modify_again_forest doc :
  Forall (walks_again P g g2 g3) doc →
  ∀ doc', modify P g 0 doc = Found doc' →
  ∃ doc2, modify P g3 0 doc = Found doc2 ∧ modify P g2 0 doc' = Found doc2.
Proof.
  induction 1 as [|m l Hm _ IH]; intros doc'; [done|]. cbn [modify].
  destruct (modify_node P g 0 m) as [ms|k] eqn:Hg.
  - intros [= <-]. destruct (Hm ms Hg) as (ms2 & -> & Hl).
    exists (ms2 ++ l). by rewrite Hl.
  - apply modify_node_missing in Hg as [-> Hnone].
    destruct (modify P g 0 l) as [l'|] eqn:Hl; [|done]. intros [= <-].
    destruct (IH l' eq_refl) as (doc2 & Hd & Hd').
    exists (m :: doc2). cbn [modify].
    rewrite !modify_node_none by done. by rewrite Hd, Hd'.
Qed.

Lemma modify_again_node n : walks_again P g g2 g3 n.
Proof.
  induction n as [t i c x v b r kids IH] using node_ind. intros ms.
  set (n := Node t i c x v b r kids). rewrite !modify_node_eq.
  destruct (P n) eqn:HP.
  - intros [= <-]. destruct (g_single n HP) as [-> HP'].
    eexists. split; [done|]. intros l. cbn [app modify].
    rewrite modify_node_eq, HP'. by rewrite g2_after.
  - change (children n) with kids.
    destruct (modify P g 0 kids) as [kids'|] eqn:Hk; [|done]. intros [= <-].
    destruct (modify_again_forest kids IH kids' Hk) as (kids2 & -> & Hk2).
    eexists. split; [done|]. intros l. cbn [app modify].
    rewrite modify_node_eq, P_children, HP. cbn [children set_children].
    by rewrite Hk2.
Qed.

Lemma modify_again doc doc' :
  modify P g 0 doc = Found doc' → modify P g2 0 doc' = modify P g3 0 doc.
Proof.
  intros Hm. destruct (modify_again_forest doc) with (doc' := doc')
    as (doc2 & -> & ->); [|done..].
  apply Forall_forall. intros n _. apply modify_again_node.
Qed.

End again.

(** ** Showing a result *)

Lemma filter_twice {A} (Q : A → Prop) `{∀ x, Decision (Q x)} (l : list A) :
  filter Q (filter Q l) = filter Q l.
Proof.
  induction l as [|x l IH]; [done|]. rewrite filter_cons.
  destruct (decide (Q x)); [|done]. by rewrite filter_cons_True, IH.
Qed.

Lemma has_id_set_children s kids n : has_id s (set_children kids n) = has_id s n.
Proof. done. Qed.

(** What a walk to the first match leaves under the id it looked for, when
    the replacement keeps the id: the replacement, up to its children. *)
Lemma lookup_after_modify s g h doc doc' x :
  (∀ y, g y = [h y]) → (∀ y, elemId (h y) = elemId y) →
  getElementById s doc = Some x →
  modify (has_id s) g 0 doc = Found doc' →
  ∃ y, getElementById s doc' = Some y ∧ shallow y = shallow (h x).
Proof.
  intros Hg Hh Hx Hm. pose proof (modify_first (has_id s) g doc) as Hf.
  rewrite <- getElementById_matching, Hx, Hm in Hf.
  destruct Hf as (? & r1 & dx & r2 & [= <-] & _ & Hnone & Ho).
  pose proof (matching_outline (has_id s) 0 doc' (has_id_shallow s)) as Hsh.
  rewrite Ho, !fmap_app, !matching_app, outline_of_snd in Hsh.
  rewrite <- (matching_shallow _ _ (has_id_shallow s)), Hnone in Hsh.
  rewrite Hg, outline_cons in Hsh. cbn [fmap list_fmap app snd] in Hsh.
  rewrite matching_cons, has_id_shallow in Hsh.
  assert (has_id s (h x) = true) as Hid.
  { apply getElementById_elem_of in Hx as [_ Hx]. unfold has_id in *.
    by rewrite Hh. }
  rewrite Hid in Hsh. rewrite getElementById_matching.
  destruct (matching (has_id s) (elements doc')) as [|y l]; [done|].
  rewrite fmap_cons in Hsh. cbn [app] in Hsh.
  apply (f_equal head) in Hsh. cbn [head] in Hsh. apply (inj Some) in Hsh.
  exists y. split; [reflexivity|exact Hsh].
Qed.

(** [displayResult] on any page.  Without an element [result] it throws and
    shows nothing.  Otherwise the element is found again under its id, holds
    the result and is not hidden; it has taken the place of the element
    with all that was in it, every other element of the page is in its
    place, and a result displayed afterwards replaces this one: the page is
    the one that displaying the later result alone gives. *)
Theorem displayResult_replaces_the_result (r : CalculationResult)
    (doc : list node) :
  match getElementById "result" doc with
  | None => displayResult r doc = Raise TypeError
  | Some el =>
      ∃ doc' el',
        displayResult r doc = Ok doc' ∧
        getElementById "result" doc' = Some el' ∧
        report el' = Some r ∧
        classList el' = filter (λ c, c ≠ "hidden") (classList el) ∧
        (∃ r1 d r2,
           rows 0 doc = r1 ++ rows_node d el ++ r2 ∧
           outline 0 doc' = outline_of r1 ++ (d, shallow el') :: outline_of r2) ∧
        ∀ r', displayResult r' doc' = displayResult r' doc
  end.
Proof.
  unfold displayResult.
  pose proof (modify_first (has_id "result")
    (λ resultDiv, [Node (tagName resultDiv) (elemId resultDiv)
                     (filter (λ c, c ≠ "hidden") (classList resultDiv))
                     "" (value resultDiv) (checked resultDiv) (Some r) []]) doc)
    as Hf.
  rewrite <- getElementById_matching in Hf.
  destruct (getElementById "result" doc) as [el|] eqn:Hel; [|by rewrite Hf].
  destruct Hf as (doc' & r1 & dx & r2 & Hm & Hrows & Hnone & Ho).
  rewrite Hm. cbn [found].
  pose (h := λ y, Node (tagName y) (elemId y)
                    (filter (λ c, c ≠ "hidden") (classList y))
                    "" (value y) (checked y) (Some r) []).
  destruct (lookup_after_modify "result" (λ y, [h y]) h doc doc' el)
    as (el' & Hel' & Hsh); [done|done|done|exact Hm|].
  exists doc', el'. split; [done|]. split; [done|].
  split; [by apply (f_equal report) in Hsh|].
  split; [by apply (f_equal classList) in Hsh|]. split.
  - exists r1, dx, r2. split; [done|]. rewrite Ho, outline_cons, Hsh. done.
  - intros r'.
    assert (Hsingle : ∀ x, has_id "result" x = true →
              (λ y, [h y]) x = [h x] ∧ has_id "result" (h x) = true)
      by (intros x Hx; split; [done|by destruct x]).
    assert (Hafter : ∀ x, has_id "result" x = true →
              (λ resultDiv, [Node (tagName resultDiv) (elemId resultDiv)
                 (filter (λ c, c ≠ "hidden") (classList resultDiv))
                 "" (value resultDiv) (checked resultDiv) (Some r') []]) (h x)
              = (λ resultDiv, [Node (tagName resultDiv) (elemId resultDiv)
                 (filter (λ c, c ≠ "hidden") (classList resultDiv))
                 "" (value resultDiv) (checked resultDiv) (Some r') []]) x).
    { intros x _. cbn [h tagName elemId classList value checked].
      by rewrite filter_twice. }
    by rewrite (modify_again _ _ _ _ h (has_id_set_children "result")
                  Hsingle Hafter doc doc' Hm).
Qed.

(** ** Loading the equipment items twice *)

Lemma modify_found_any P g g' doc doc' :
  modify P g 0 doc = Found doc' → ∃ doc2, modify P g' 0 doc = Found doc2.
Proof.
  intros Hm. pose proof (modify_first P g doc) as Hf.
  pose proof (modify_first P g' doc) as Hf'.
  destruct (head (matching P (elements doc))).
  - destruct Hf' as (doc2 & _ & _ & _ & -> & _). by exists doc2.
  - congruence.
Qed.

(** [loadTMC] empties the selection before it fills it: when two lists
    arrive one after the other, the page and the items are those of the
    second list alone, on any page. *)
Theorem loadTMC_last_list_wins (a b : list TmcItem) (st : state) :
  loadTMC (Some b) (snd (loadTMC (Some a) st)) = loadTMC (Some b) st.
Proof.
  unfold loadTMC at 2. fold (tmc_rows a).
  destruct (modify (has_id "tmc-selection") _ 0 (document st))
    as [doc|k] eqn:Hm; cbn [found snd].
  - unfold loadTMC. fold (tmc_rows b). cbn [document with_document].
    rewrite (modify_again (has_id "tmc-selection") _ _
               (λ n, [set_children (tmc_rows b) n])
               (λ n, set_children (tmc_rows a) n)
               (has_id_set_children "tmc-selection")
               (λ x e, conj eq_refl e) (λ x _, eq_refl) _ _ Hm).
    destruct (modify_found_any _ _ (λ n, [set_children (tmc_rows b) n]) _ _ Hm)
      as [doc2 ->].
    done.
  - unfold loadTMC. fold (tmc_rows a) (tmc_rows b). cbn [document].
    by destruct (found _).
Qed.

(** ** What a calculation tells the visitor *)

(** [calculate] on any page and with any server sends at most one request,
    and it ends in one of three ways: with exactly one alert and the state
    as it was; with no alert, the request sent and answered with a result,
    and the result displayed; or, when the answer is JSON in which
    [displayResult] does not find a result, with exactly one alert and the
    page as [displayResult] left it when it threw, the element [result] no
    longer hidden. *)
Theorem calculate_alerts_or_displays server st :
  (length (filter (λ e, is_fetch e = true) (fst (calculate server st))) ≤ 1)%nat ∧
  ((length (filter (λ e, is_alert e = true) (fst (calculate server st))) = 1%nat ∧
    snd (calculate server st) = st) ∨
   (∃ req r doc,
      calculate server st = ([Fetch "/api/calculate" req], with_document doc st) ∧
      serialize st = Ok (Request req) ∧
      ((server req = Response true (Some r) ∧
        displayResult r (document st) = Ok doc) ∨
       (∃ kids, server req = Marked r kids ∧
                displayMarked r kids (document st) = Ok doc))) ∨
   (∃ req doc,
      calculate server st
        = ([Fetch "/api/calculate" req; ConsoleError TypeError;
            AlertFailure TypeError], with_document doc st) ∧
      serialize st = Ok (Request req) ∧
      server req = Unreadable ∧
      displayUnreadable (document st) = Ok doc)).
Proof.
  unfold calculate. destruct (serialize st) as [[|req]|e] eqn:Hs.
  - split; [simpl; lia|by left].
  - destruct (server req) as [|[] [r|]| |r kids] eqn:Hr;
      try (split; [simpl; lia|by left]).
    + destruct (displayResult r (document st)) as [doc|e] eqn:Hd.
      * split; [simpl; lia|]. right. left. exists req, r, doc.
        split; [done|]. split; [done|]. by left.
      * split; [simpl; lia|by left].
    + destruct (displayUnreadable (document st)) as [doc|e] eqn:Hd.
      * split; [simpl; lia|]. right. right. by exists req, doc.
      * split; [simpl; lia|by left].
    + destruct (displayMarked r kids (document st)) as [doc|e] eqn:Hd.
      * split; [simpl; lia|]. right. left. exists req, r, doc.
        split; [done|]. split; [done|]. right. by exists kids.
      * split; [simpl; lia|by left].
  - split; [simpl; lia|by left].
Qed.

(** ** Adding to what is not there *)

Lemma appendChild_by_id_none s c doc :
  getElementById s doc = None → appendChild_by_id s c doc = None.
Proof.
  intros Hnone. unfold appendChild_by_id.
  pose proof (modify_first (has_id s)
                (λ n, [set_children (children n ++ [c]) n]) doc) as Hf.
  rewrite <- getElementById_matching, Hnone in Hf. by rewrite Hf.
Qed.

(** [addStaff] and [addPost] count before they look for the element they
    add to.  When there is no element [staff-<n>], [addStaff(n)] throws and
    leaves the page as it is, and yet the staff counter of [n] has gone up;
    when there is no element [posts-container], [addPost()] throws and
    leaves the page and the staff counters as they are, and yet the counter
    of the posts has gone up. *)
Theorem adding_without_container_counts (st : state) (n : nat) :
  (getElementById ("staff-" +:+ decimal n) (document st) = None →
   ∃ st', addStaff n st = Throw TypeError st' ∧
     document st' = document st ∧ postCounter st' = postCounter st ∧
     staffCounter st' !! n = Some (S (default 0%nat (staffCounter st !! n))) ∧
     ∀ m, m ≠ n → staffCounter st' !! m = staffCounter st !! m) ∧
  (getElementById "posts-container" (document st) = None →
   ∃ st', addPost st = Throw TypeError st' ∧
     document st' = document st ∧ postCounter st' = S (postCounter st) ∧
     staffCounter st' = staffCounter st).
Proof.
  split; intros Hnone.
  - unfold addStaff. cbn [document].
    rewrite appendChild_by_id_none by done. eexists. split; [done|].
    cbn [document postCounter staffCounter]. split; [done|]. split; [done|].
    split; [apply lookup_insert_eq|]. intros m Hm. by apply lookup_insert_ne.
  - unfold addPost. cbn [document].
    rewrite appendChild_by_id_none by done. by eexists.
Qed.

(** The page as it is loaded has a first post but no post 7; a page without
    anything on it has no container. *)
Lemma adding_without_container_counts_witness :
  (∃ st', addStaff 7 loaded = Throw TypeError st' ∧
     document st' = document loaded ∧
     staffCounter st' !! 7%nat = Some 1%nat) ∧
  (∃ st', addPost (with_document [] initial) = Throw TypeError st' ∧
     postCounter st' = 1%nat).
Proof.
  split.
  - destruct (adding_without_container_counts loaded 7) as [H _].
    destruct H as (st' & Ha & Hd & _ & Hk & _); [vm_compute; reflexivity|].
    exists st'. split; [exact Ha|]. split; [exact Hd|exact Hk].
  - destruct (adding_without_container_counts (with_document [] initial) 0)
      as [_ H].
    destruct H as (st' & Ha & _ & Hp & _); [reflexivity|].
    exists st'. split; [exact Ha|exact Hp].
Defined.

(** ** The elements of a page as a list of observations *)

(** What a walk does to the list of what is observed of each element, for an
    observation that does not look at the children. *)
Lemma modify_obs {A} (O : node → A) P g k doc doc' :
  (∀ n, O (shallow n) = O n) →
  modify P g k doc = Found doc' →
  ∃ e1 x l2,
    length (matching P e1) = k ∧ P x = true ∧
    O <$> elements doc = (O <$> e1) ++ (O <$> flatten x) ++ l2 ∧
    O <$> elements doc' = (O <$> e1) ++ (O <$> elements (g x)) ++ l2.
Proof.
  intros HO Hm. pose proof (modify_spec P g doc k 0) as Hspec.
  rewrite Hm in Hspec. destruct Hspec as (r1 & x & dx & r2 & Hr & HP & Hk & Ho).
  assert (Hobs : ∀ d dc, O <$> elements dc = (O ∘ snd) <$> outline d dc).
  { intros d dc. unfold outline, outline_of.
    rewrite (elements_rows d), <- !list_fmap_compose.
    apply list_fmap_ext. intros _ [j n] _. simpl. by rewrite HO. }
  assert (Hobs' : ∀ r, (O ∘ snd) <$> outline_of r = O <$> (snd <$> r)).
  { intros r. unfold outline_of. rewrite <- !list_fmap_compose.
    apply list_fmap_ext. intros _ [j n] _. simpl. by rewrite HO. }
  exists (snd <$> r1), x, (O <$> (snd <$> r2)).
  split; [done|split; [done|split]].
  - rewrite (elements_rows 0 doc), Hr, !fmap_app.
    by rewrite <- (flatten_rows dx x).
  - rewrite (Hobs 0%nat doc'), Ho, !fmap_app, !Hobs'.
    by rewrite <- (Hobs dx (g x)).
Qed.

Lemma modify_first_obs {A} (O : node → A) P g doc doc' :
  (∀ n, O (shallow n) = O n) →
  modify P g 0 doc = Found doc' →
  ∃ e1 x l2,
    matching P e1 = [] ∧ P x = true ∧
    O <$> elements doc = (O <$> e1) ++ (O <$> flatten x) ++ l2 ∧
    O <$> elements doc' = (O <$> e1) ++ (O <$> elements (g x)) ++ l2.
Proof.
  intros HO Hm.
  destruct (modify_obs O P g 0 doc doc' HO Hm) as (e1 & x & l2 & Hk & H).
  exists e1, x, l2. split; [by apply nil_length_inv|done].
Qed.

Lemma fields_ids doc : (fields doc).*1 = elemId <$> elements doc.
Proof. unfold fields. rewrite <- list_fmap_compose. done. Qed.

Lemma value_of_fields s doc :
  s ≠ EmptyString →
  value_of s doc = match field_of s (fields doc) with
                   | Some v => Ok v
                   | None => Raise TypeError
                   end.
Proof.
  intros Hs. unfold value_of, field_of, fields.
  rewrite getElementById_matching.
  induction (elements doc) as [|n l IH]; [done|].
  rewrite fmap_cons, matching_cons, filter_cons. cbn [fst].
  unfold has_id at 1. destruct (decide (elemId n = s)) as [Heq|Hne].
  - by rewrite bool_decide_eq_true_2.
  - by rewrite bool_decide_eq_false_2 by (by intros [_ ?]).
Qed.

Lemma field_of_app s l1 l2 :
  field_of s (l1 ++ l2)
  = match field_of s l1 with Some v => Some v | None => field_of s l2 end.
Proof.
  unfold field_of. rewrite filter_app. by destruct (filter _ l1).
Qed.

Lemma field_of_absent s l : s ∉ l.*1 → field_of s l = None.
Proof.
  intros Hs. unfold field_of. induction l as [|[i v] l IH]; [done|].
  rewrite fmap_cons in Hs. apply not_elem_of_cons in Hs as [Hne Hs].
  rewrite filter_cons_False by (simpl; intros Heq; by apply Hne). by apply IH.
Qed.

Lemma field_of_present s l : s ∈ l.*1 → is_Some (field_of s l).
Proof.
  unfold field_of. induction l as [|[i v] l IH]; [by intros ?%elem_of_nil|].
  rewrite fmap_cons, filter_cons. cbn [fst].
  destruct (decide (i = s)); [by eexists|].
  intros [?|Hin]%elem_of_cons; [congruence|]. by apply IH.
Qed.

Lemma has_id_fields s e1 :
  s ≠ EmptyString → matching (has_id s) e1 = [] → s ∉ elemId <$> e1.
Proof.
  intros Hs Hnone (e & -> & He)%list_elem_of_fmap.
  apply matching_nil_Forall in Hnone. rewrite Forall_forall in Hnone.
  specialize (Hnone e He). apply bool_decide_eq_false_1 in Hnone.
  by apply Hnone.
Qed.

(** What [assign] does to the fields: the first one with the id gets the
    value, the ids and the other values stay. *)
Lemma assign_fields s v doc doc' :
  s ≠ EmptyString → assign s v doc = Some doc' →
  ∃ l1 old l2,
    (s ∉ l1.*1) ∧
    fields doc = l1 ++ (s, old) :: l2 ∧
    fields doc' = l1 ++ (s, v) :: l2.
Proof.
  intros Hs Ha. unfold assign in Ha.
  destruct (modify _ _ 0 doc) as [d|] eqn:Hm; [|done]. injection Ha as ->.
  destruct (modify_first_obs (λ n, (elemId n, value n)) _ _ _ _
              (λ n, eq_refl) Hm) as (e1 & x & l2 & Hnone & Hx & Hd & Hd').
  apply bool_decide_eq_true_1 in Hx as [_ Hx].
  exists ((λ n, (elemId n, value n)) <$> e1), (value x),
    (((λ n, (elemId n, value n)) <$> elements (children x)) ++ l2).
  split; [|split].
  - rewrite <- list_fmap_compose. by apply has_id_fields.
  - unfold fields. rewrite Hd, flatten_eq, fmap_cons, Hx. done.
  - unfold fields. rewrite Hd', elements_single, flatten_eq, fmap_cons.
    destruct x. simpl in *. by rewrite Hx.
Qed.

Lemma assign_found s v doc :
  s ≠ EmptyString → s ∈ (fields doc).*1 → is_Some (assign s v doc).
Proof.
  intros Hs Hin. rewrite fields_ids in Hin.
  apply getElementById_listed in Hin; [|done]. unfold assign.
  pose proof (modify_first (has_id s) (λ n, [set_value v n]) doc) as Hf.
  rewrite <- getElementById_matching in Hf.
  destruct (getElementById s doc); [|done].
  destruct Hf as (doc' & _ & _ & _ & -> & _). by eexists.
Qed.

(** ** Assigning to a field and reading it *)

Lemma field_of_assigned s v l1 l2 :
  s ∉ l1.*1 → field_of s (l1 ++ (s, v) :: l2) = Some v.
Proof.
  intros Hs. rewrite field_of_app, field_of_absent by done.
  unfold field_of. by rewrite filter_cons_True.
Qed.

Lemma field_of_other s s' v v' l1 l2 :
  s' ≠ s →
  field_of s' (l1 ++ (s, v) :: l2) = field_of s' (l1 ++ (s, v') :: l2).
Proof.
  intros Hne. rewrite !field_of_app. unfold field_of at 2 4.
  by rewrite !filter_cons_False by (simpl; congruence).
Qed.

Lemma value_of_assign_same s v doc doc' :
  s ≠ EmptyString → assign s v doc = Some doc' → value_of s doc' = Ok v.
Proof.
  intros Hs (l1 & old & l2 & Hl1 & _ & Hd')%assign_fields; [|done].
  by rewrite value_of_fields, Hd', field_of_assigned.
Qed.

Lemma value_of_assign_other s s' v doc doc' :
  s ≠ EmptyString → s' ≠ EmptyString → s' ≠ s →
  assign s v doc = Some doc' → value_of s' doc' = value_of s' doc.
Proof.
  intros Hs Hs' Hne (l1 & old & l2 & Hl1 & Hd & Hd')%assign_fields; [|done].
  rewrite !value_of_fields, Hd, Hd' by done.
  by rewrite (field_of_other s s' v old).
Qed.

Lemma assign_ids s v doc doc' :
  s ≠ EmptyString → assign s v doc = Some doc' →
  elemId <$> elements doc' = elemId <$> elements doc.
Proof.
  intros Hs (l1 & old & l2 & _ & Hd & Hd')%assign_fields; [|done].
  rewrite <- !fields_ids, Hd, Hd', !fmap_app. done.
Qed.

Lemma first_occurrence_unique {A} (x : A) l1 l2 m1 m2 :
  l1 ++ x :: l2 = m1 ++ x :: m2 → x ∉ l1 → x ∉ m1 → l1 = m1.
Proof.
  revert m1. induction l1 as [|a l1 IH]; intros [|b m1]; simpl.
  - done.
  - intros [= <- _] _ []%not_elem_of_cons. done.
  - intros [= -> _] []%not_elem_of_cons. done.
  - intros [= <- Heq] [_ H1]%not_elem_of_cons [_ H2]%not_elem_of_cons.
    f_equal. by apply IH.
Qed.

(** [loadTMCList] leaves the fields that come before the list as they are. *)
Lemma loadTMCList_fields answer doc l1 l2 s :
  elemId <$> elements doc = l1 ++ "tmc-list" :: l2 → "tmc-list" ∉ l1 →
  s ∈ l1 → s ≠ EmptyString →
  value_of s (snd (loadTMCList answer doc)) = value_of s doc.
Proof.
  intros Hids Hl1 Hs Hne. unfold loadTMCList.
  destruct answer as [items|]; [|done].
  destruct (modify _ _ 0 doc) as [doc'|] eqn:Hm; [|done]. cbn [found snd].
  destruct (modify_first_obs (λ n, (elemId n, value n)) _ _ _ _
              (λ n, eq_refl) Hm) as (e1 & x & m2 & Hnone & Hx & Hd & Hd').
  apply bool_decide_eq_true_1 in Hx as [_ Hx].
  assert (Heq : elemId <$> e1 = l1).
  { pose proof (fields_ids doc) as Hsplit. unfold fields at 1 in Hsplit.
    rewrite Hd, flatten_eq, !fmap_app, fmap_cons, <- list_fmap_compose in Hsplit.
    rewrite fmap_cons in Hsplit. cbn [fst app] in Hsplit.
    rewrite Hx, Hids in Hsplit.
    apply (first_occurrence_unique _ _ _ _ _ Hsplit);
      [by apply (has_id_fields "tmc-list")|done]. }
  rewrite !value_of_fields by done. unfold fields. rewrite Hd, Hd'.
  rewrite !field_of_app.
  destruct (field_of_present s ((λ n, (elemId n, value n)) <$> e1)) as [v ->];
    [|done].
  rewrite <- list_fmap_compose. by rewrite <- Heq in Hs.
Qed.

Lemma loadTMCList_ids answer doc l1 l2 :
  elemId <$> elements doc = l1 ++ "tmc-list" :: l2 → "tmc-list" ∉ l1 →
  ∃ l2', elemId <$> elements (snd (loadTMCList answer doc))
         = l1 ++ "tmc-list" :: l2'.
Proof.
  intros Hids Hl1. unfold loadTMCList.
  destruct answer as [items|]; [|by eexists].
  destruct (modify _ _ 0 doc) as [doc'|] eqn:Hm; [|by eexists]. cbn [found snd].
  destruct (modify_first_obs elemId _ _ _ _ (λ n, eq_refl) Hm)
    as (e1 & x & m2 & Hnone & Hx & Hd & Hd').
  apply bool_decide_eq_true_1 in Hx as [_ Hx].
  rewrite flatten_eq, fmap_cons, Hx in Hd.
  assert (Heq : elemId <$> e1 = l1).
  { rewrite Hids in Hd. symmetry.
    by apply (first_occurrence_unique _ _ _ _ _ Hd);
      [|apply has_id_fields]. }
  rewrite Hd', Heq, elements_single, flatten_eq, fmap_cons.
  destruct x; simpl in *. rewrite Hx. by eexists.
Qed.

(** ** Adding an item to the register *)

Lemma not_posted body (log : list event) : PostTmc body ∉ Page <$> log.
Proof. by intros (e & [=] & _)%list_elem_of_fmap. Qed.

(** [addTMC] on any page, when the four fields are there.  A request is sent
    exactly when the name is not empty and the price, the quantity and the
    amortization are numbers other than zero; it is sent once and carries
    what was read from the fields.  When the test fails the visitor is told
    to fill in all fields and nothing else happens; when the request fails
    or is refused, the page is left as it is. *)
Theorem addTMC_sends_complete_items server listing doc log doc' :
  addTMC server listing doc = Ok (log, doc') →
  ∃ body,
    read_new_tmc doc = Ok body ∧
    (incomplete body = true →
       log = [Page (Alert "Заполните все поля")] ∧ doc' = doc) ∧
    (incomplete body = false →
       new_name body ≠ "" ∧ truthy (new_price body) = true ∧
       truthy (new_quantity body) = true ∧
       truthy (new_amortization_months body) = true ∧
       head log = Some (PostTmc body) ∧
       (∀ b, PostTmc b ∈ log → b = body) ∧
       (server body ≠ Reply true →
          doc' = doc ∧
          ∃ e, log = [PostTmc body; Page (ConsoleError e);
                      Page (Alert "Ошибка при добавлении ТМЦ")])).
Proof.
  unfold addTMC. destruct (read_new_tmc doc) as [body|e]; [|done].
  cbn [mbind result_bind]. intros Hok. exists body. split; [done|].
  destruct (incomplete body) eqn:Hinc.
  - injection Hok as <- <-. by split.
  - split; [done|]. intros _. unfold incomplete in Hinc.
    apply orb_false_elim in Hinc as [Hinc Ha].
    apply orb_false_elim in Hinc as [Hinc Hq].
    apply orb_false_elim in Hinc as [Hn Hp].
    apply negb_false_iff in Hn, Hp, Hq, Ha.
    split; [by destruct (new_name body)|]. do 3 (split; [done|]).
    assert (Hfail : ∀ e d,
      (log, doc') = add_failed body e d →
      head log = Some (PostTmc body) ∧ (∀ b, PostTmc b ∈ log → b = body) ∧
      ∃ e', log = [PostTmc body; Page (ConsoleError e');
                   Page (Alert "Ошибка при добавлении ТМЦ")]).
    { intros e d [= -> _]. split; [done|]. split; [|by eexists].
      intros b [[= ->]|Hb]%elem_of_cons; [done|].
      apply elem_of_cons in Hb as [[=]|Hb].
      apply elem_of_cons in Hb as [[=]|Hb]. by apply elem_of_nil in Hb. }
    simpl in Hok. injection Hok as Hok.
    destruct (server body) as [|[]].
    + destruct (Hfail _ _ (eq_sym Hok)) as (? & ? & ?).
      injection Hok as _ <-. by repeat split.
    + assert (Hlog : head log = Some (PostTmc body) ∧
                     ∀ b, PostTmc b ∈ log → b = body).
      { repeat
          match type of Hok with
          | match ?a with _ => _ end = _ =>
              destruct a;
                [|by destruct (Hfail _ _ (eq_sym Hok)) as (? & ? & ?)]
          end.
        destruct (loadTMCList listing _) as [lg d5]. injection Hok as <- _.
        split; [done|].
        intros b [[= ->]|Hb]%elem_of_cons; [done|].
        apply elem_of_cons in Hb as [[=]|Hb]. by apply not_posted in Hb. }
      destruct Hlog. by repeat split.
    + destruct (Hfail _ _ (eq_sym Hok)) as (? & ? & ?).
      injection Hok as _ <-. by repeat split.
Qed.

(** A complete item that the server refuses. *)
Lemma addTMC_sends_complete_items_witness :
  ∃ body,
    read_new_tmc (two_tabs "Radio" "5000" "2" "12") = Ok body ∧
    new_name body = "Radio" ∧ incomplete body = false ∧
    addTMC (λ _, Reply false) None (two_tabs "Radio" "5000" "2" "12")
    = Ok ([PostTmc body; Page (ConsoleError (Error "Ошибка добавления ТМЦ"));
           Page (Alert "Ошибка при добавлении ТМЦ")],
          two_tabs "Radio" "5000" "2" "12").
Proof.
  destruct (addTMC_sends_complete_items (λ _, Reply false) None
              (two_tabs "Radio" "5000" "2" "12")
              [PostTmc {| new_name := "Radio"; new_price := parseFloat "5000";
                          new_quantity := parseInt "2";
                          new_amortization_months := parseInt "12" |};
               Page (ConsoleError (Error "Ошибка добавления ТМЦ"));
               Page (Alert "Ошибка при добавлении ТМЦ")]
              (two_tabs "Radio" "5000" "2" "12"))
    as (body & Hread & _ & _); [vm_compute; reflexivity|].
  exists body. split; [exact Hread|].
  vm_compute in Hread. injection Hread as <-.
  split; [reflexivity|]. split; vm_compute; reflexivity.
Defined.

(** When the fields of the new item come before the list of the items in
    the page, an item that the server accepts resets them: after [addTMC]
    the name, the price and the amortization are empty and the quantity is
    1, whatever the list is then loaded with; the visitor is told that the
    item was added, and pressing the button again sends nothing. *)
Theorem addTMC_success_resets_the_form server listing doc body l1 l2 :
  elemId <$> elements doc = l1 ++ "tmc-list" :: l2 → "tmc-list" ∉ l1 →
  "tmc-name" ∈ l1 → "tmc-price" ∈ l1 → "tmc-quantity" ∈ l1 →
  "tmc-amortization" ∈ l1 →
  read_new_tmc doc = Ok body → incomplete body = false →
  server body = Reply true →
  ∃ log doc',
    addTMC server listing doc
      = Ok (PostTmc body :: Page (Alert "ТМЦ добавлен") :: log, doc') ∧
    value_of "tmc-name" doc' = Ok "" ∧
    value_of "tmc-price" doc' = Ok "" ∧
    value_of "tmc-quantity" doc' = Ok "1" ∧
    value_of "tmc-amortization" doc' = Ok "" ∧
    ∀ server' listing',
      addTMC server' listing' doc'
        = Ok ([Page (Alert "Заполните все поля")], doc').
Proof.
  intros Hids Hl1 Hn Hp Hq Ha Hread Hinc Hserver.
  unfold addTMC. rewrite Hread. cbn [mbind result_bind].
  rewrite Hinc, Hserver.
  assert (Hin : ∀ s d, s ∈ l1 → elemId <$> elements d = elemId <$> elements doc →
                       s ∈ (fields d).*1).
  { intros s d Hs Hd. rewrite fields_ids, Hd, Hids.
    apply elem_of_app. by left. }
  destruct (assign_found "tmc-name" "" doc) as [d1 H1]; [done|by apply Hin|].
  pose proof (assign_ids "tmc-name" _ _ _ ltac:(done) H1) as I1.
  destruct (assign_found "tmc-price" "" d1) as [d2 H2]; [done|by apply Hin|].
  pose proof (assign_ids "tmc-price" _ _ _ ltac:(done) H2) as I2. rewrite I1 in I2.
  destruct (assign_found "tmc-quantity" "1" d2) as [d3 H3];
    [done|by apply Hin|].
  pose proof (assign_ids "tmc-quantity" _ _ _ ltac:(done) H3) as I3. rewrite I2 in I3.
  destruct (assign_found "tmc-amortization" "" d3) as [d4 H4];
    [done|by apply Hin|].
  pose proof (assign_ids "tmc-amortization" _ _ _ ltac:(done) H4) as I4. rewrite I3, Hids in I4.
  rewrite H1, H2, H3, H4.
  pose proof (loadTMCList_fields listing d4 l1 l2) as Hframe.
  destruct (loadTMCList listing d4) as [lg d5]. cbn [snd] in Hframe.
  exists (Page <$> lg), d5. split; [done|].
  assert (V1 : value_of "tmc-name" d5 = Ok "").
  { rewrite Hframe by done.
    rewrite (value_of_assign_other "tmc-amortization" "tmc-name" _ _ _
               ltac:(done) ltac:(done) ltac:(done) H4).
    rewrite (value_of_assign_other "tmc-quantity" "tmc-name" _ _ _
               ltac:(done) ltac:(done) ltac:(done) H3).
    rewrite (value_of_assign_other "tmc-price" "tmc-name" _ _ _
               ltac:(done) ltac:(done) ltac:(done) H2).
    by apply (value_of_assign_same _ _ doc). }
  assert (V2 : value_of "tmc-price" d5 = Ok "").
  { rewrite Hframe by done.
    rewrite (value_of_assign_other "tmc-amortization" "tmc-price" _ _ _
               ltac:(done) ltac:(done) ltac:(done) H4).
    rewrite (value_of_assign_other "tmc-quantity" "tmc-price" _ _ _
               ltac:(done) ltac:(done) ltac:(done) H3).
    by apply (value_of_assign_same _ _ d1). }
  assert (V3 : value_of "tmc-quantity" d5 = Ok "1").
  { rewrite Hframe by done.
    rewrite (value_of_assign_other "tmc-amortization" "tmc-quantity" _ _ _
               ltac:(done) ltac:(done) ltac:(done) H4).
    by apply (value_of_assign_same _ _ d2). }
  assert (V4 : value_of "tmc-amortization" d5 = Ok "").
  { rewrite Hframe by done. by apply (value_of_assign_same _ _ d3). }
  do 4 (split; [done|]). intros server' listing'.
  unfold read_new_tmc. by rewrite V1, V2, V3, V4.
Qed.

(** A complete item that the server accepts, and a list that comes back
    with one item. *)
Lemma addTMC_success_resets_the_form_witness :
  ∃ body log doc',
    addTMC (λ _, Reply true) (Some [radio]) (two_tabs "Radio" "5000" "2" "12")
      = Ok (PostTmc body :: Page (Alert "ТМЦ добавлен") :: log, doc') ∧
    value_of "tmc-name" doc' = Ok "" ∧
    value_of "tmc-quantity" doc' = Ok "1" ∧
    addTMC (λ _, Reply true) (Some [radio]) doc'
      = Ok ([Page (Alert "Заполните все поля")], doc').
Proof.
  destruct (addTMC_success_resets_the_form (λ _, Reply true) (Some [radio])
              (two_tabs "Radio" "5000" "2" "12")
              {| new_name := "Radio"; new_price := parseFloat "5000";
                 new_quantity := parseInt "2";
                 new_amortization_months := parseInt "12" |}
              [""; ""; ""; "calculator-tab"; "posts-container";
               "tmc-selection"; "markup"; ""; "result"; "tmc-tab"; "tmc-name";
               "tmc-price"; "tmc-quantity"; "tmc-amortization"; ""] [])
    as (log & doc' & Hadd & Vn & _ & Vq & _ & Hagain).
  - vm_compute. reflexivity.
  - apply (bool_decide_unpack _). vm_compute. exact I.
  - apply (bool_decide_unpack _). vm_compute. exact I.
  - apply (bool_decide_unpack _). vm_compute. exact I.
  - apply (bool_decide_unpack _). vm_compute. exact I.
  - apply (bool_decide_unpack _). vm_compute. exact I.
  - vm_compute. reflexivity.
  - vm_compute. reflexivity.
  - reflexivity.
  - eexists _, log, doc'. split; [exact Hadd|]. split; [exact Vn|].
    split; [exact Vq|]. apply Hagain.
Defined.

(** ** The list of the register *)

(** [loadTMCList] empties the list before it fills it: when two listings
    arrive one after the other, the page is the one that the second listing
    alone gives, on any page. *)
Theorem loadTMCList_last_listing_wins (a b : list TmcItem) (doc : list node) :
  loadTMCList (Some b) (snd (loadTMCList (Some a) doc))
  = loadTMCList (Some b) doc.
Proof.
  unfold loadTMCList at 2.
  destruct (modify (has_id "tmc-list") _ 0 doc) as [doc'|k] eqn:Hm;
    cbn [found snd]; [|done].
  unfold loadTMCList.
  rewrite (modify_again (has_id "tmc-list") _ _
             (λ n, [set_children (tmc_list_rows b) n])
             (λ n, set_children (tmc_list_rows a) n)
             (has_id_set_children "tmc-list")
             (λ x e, conj eq_refl e) (λ x _, eq_refl) _ _ Hm).
  by destruct (modify_found_any _ _ (λ n, [set_children (tmc_list_rows b) n])
                 _ _ Hm) as [doc2 ->].
Qed.


(** ** Choosing a tab *)

Lemma for_each_children P g n :
  (∀ m, children (g m) = children m) →
  children (for_each P g n) = for_each P g <$> children n.
Proof. intros Hg. destruct n. simpl. destruct (P _); [by rewrite Hg|done]. Qed.

Lemma flatten_for_each P g n :
  (∀ m, children (g m) = children m) →
  flatten (for_each P g n) = for_each P g <$> flatten n.
Proof.
  intros Hg. induction n as [t i c x v b r kids IH] using node_ind.
  rewrite (flatten_eq (for_each _ _ _)), for_each_children by done.
  rewrite (flatten_eq (Node _ _ _ _ _ _ _ _)), fmap_cons. f_equal.
  cbn [children]. induction IH as [|k kids Hk _ IHk]; [done|].
  rewrite fmap_cons, !elements_cons_flatten, fmap_app. by rewrite Hk, IHk.
Qed.

Lemma elements_for_each P g doc :
  (∀ m, children (g m) = children m) →
  elements (for_each P g <$> doc) = for_each P g <$> elements doc.
Proof.
  intros Hg. induction doc as [|n doc IH]; [done|].
  rewrite fmap_cons, !elements_cons_flatten, fmap_app.
  by rewrite flatten_for_each, IH.
Qed.

Lemma elemId_for_each P a n :
  elemId (for_each P (remove_class a) n) = elemId n.
Proof. destruct n. simpl. by destruct (P _). Qed.

Lemma classList_for_each P a n :
  classList (for_each P (remove_class a) n)
  = if P n then filter (λ x, x ≠ a) (classList n) else classList n.
Proof. destruct n. simpl. by destruct (P _). Qed.

Lemma has_class_removed (a : string) (cls : list string) :
  a ∉ filter (λ x, x ≠ a) cls.
Proof. intros [H _]%list_elem_of_filter. by apply H. Qed.

Lemma has_class_kept (c a : string) (cls : list string) :
  c ≠ a → c ∈ filter (λ x, x ≠ a) cls ↔ c ∈ cls.
Proof.
  intros Hne. rewrite list_elem_of_filter.
  split; [by intros [_ ?]|by intros ?].
Qed.

Lemma has_class_for_each_other c P a n :
  c ≠ a → has_class c (for_each P (remove_class a) n) = has_class c n.
Proof.
  intros Hne. unfold has_class. rewrite classList_for_each.
  destruct (P n); [|done]. apply bool_decide_ext. by apply has_class_kept.
Qed.

Lemma has_class_for_each_same P a n :
  P n = true → has_class a (for_each P (remove_class a) n) = false.
Proof.
  intros HP. unfold has_class. rewrite classList_for_each, HP.
  apply bool_decide_eq_false_2, has_class_removed.
Qed.

Lemma has_class_for_each_le P a n :
  has_class a (for_each P (remove_class a) n) = true → has_class a n = true.
Proof.
  unfold has_class. rewrite classList_for_each.
  destruct (P n); [|done]. intros [_ ?]%bool_decide_eq_true_1%list_elem_of_filter.
  by apply bool_decide_eq_true_2.
Qed.

Lemma getElementById_same_ids s doc doc' :
  elemId <$> elements doc' = elemId <$> elements doc →
  getElementById s doc = None → getElementById s doc' = None.
Proof.
  intros Hids Hnone. destruct (getElementById s doc') as [e|] eqn:He; [|done].
  apply getElementById_elem_of in He as [He Hs].
  apply bool_decide_eq_true_1 in Hs as [Hs <-].
  destruct (getElementById_listed (elemId e) doc Hs); [|done].
  rewrite <- Hids. by apply list_elem_of_fmap_2.
Qed.

(** The page after the two loops of [showTab]: the ids are those of the
    page, and no tab and no tab button is active. *)
Lemma tabs_cleared doc :
  let doc2 :=
    for_each (has_class "tab-btn") (remove_class "active")
      <$> (for_each (has_class "tab-content") (remove_class "active") <$> doc) in
  elemId <$> elements doc2 = elemId <$> elements doc ∧
  has_class "tab-content" <$> elements doc2
    = has_class "tab-content" <$> elements doc ∧
  Forall (λ e, has_class "tab-content" e = true ∨ has_class "tab-btn" e = true →
               has_class "active" e = false) (elements doc2).
Proof.
  cbv zeta. rewrite !elements_for_each by done.
  rewrite <- !list_fmap_compose. split; [|split].
  - apply list_fmap_ext. intros _ n _. simpl. by rewrite !elemId_for_each.
  - apply list_fmap_ext. intros _ n _. simpl.
    by rewrite !has_class_for_each_other.
  - apply Forall_fmap, Forall_forall. intros n _. simpl.
    rewrite !(has_class_for_each_other "tab-content") by done.
    rewrite !(has_class_for_each_other "tab-btn") by done.
    intros [Hc|Hb].
    + destruct (has_class "active" (for_each (has_class "tab-btn") _ _))
        eqn:Ha; [|done].
      apply has_class_for_each_le in Ha.
      by rewrite has_class_for_each_same in Ha.
    + apply has_class_for_each_same.
      by rewrite has_class_for_each_other.
Qed.

(** [showTab] with the name of a tab that the page does not have.  The two
    loops have run when the tab is looked up: the function throws, nothing is
    loaded, and the page is left with no tab and no tab button active. *)
Theorem showTab_of_unknown_tab tabName target answer st :
  getElementById (tabName +:+ "-tab") (document st) = None →
  ∃ st',
    showTab tabName target answer st = ([], Throw TypeError st') ∧
    postCounter st' = postCounter st ∧ staffCounter st' = staffCounter st ∧
    tmcItems st' = tmcItems st ∧
    elemId <$> elements (document st') = elemId <$> elements (document st) ∧
    Forall (λ e, has_class "tab-content" e = true ∨ has_class "tab-btn" e = true →
                 has_class "active" e = false) (elements (document st')).
Proof.
  intros Hnone. unfold showTab.
  destruct (tabs_cleared (document st)) as (Hids & _ & Hall).
  set (doc2 := for_each _ _ <$> (for_each _ _ <$> document st)) in *.
  pose proof (modify_first (has_id (tabName +:+ "-tab"))
                (λ n, [add_class "active" n]) doc2) as Hf.
  rewrite <- getElementById_matching in Hf.
  rewrite (getElementById_same_ids _ _ _ Hids Hnone) in Hf. rewrite Hf.
  eexists. split; [reflexivity|]. by repeat split.
Qed.

(** The page with the two tabs has no tab of the name [prices]. *)
Lemma showTab_of_unknown_tab_witness :
  ∃ st',
    showTab "prices" (Some 2%nat) None
      (with_document (two_tabs "" "" "1" "") initial)
    = ([], Throw TypeError st') ∧
    querySelectorAll "active" (document st') = [] ∧
    (length (querySelectorAll "active" (two_tabs "" "" "1" "")) = 2)%nat.
Proof.
  destruct (showTab_of_unknown_tab "prices" (Some 2%nat) None
              (with_document (two_tabs "" "" "1" "") initial))
    as (st' & Hs & _); [vm_compute; reflexivity|].
  exists st'. split; [exact Hs|].
  vm_compute in Hs. injection Hs as <-. split; vm_compute; reflexivity.
Defined.

Lemma shallow_shallow n : shallow (shallow n) = shallow n.
Proof. done. Qed.

Lemma Forall_shallow (Q : node → Prop) l :
  (∀ n, Q (shallow n) ↔ Q n) → Forall Q (shallow <$> l) ↔ Forall Q l.
Proof.
  intros HQ. rewrite Forall_fmap. apply Forall_iff. intros n. apply HQ.
Qed.

(** A property of single elements that holds all over the page still holds
    after a walk, when the replacement of the element that the walk stops
    at keeps it. *)
Lemma modify_keeps_where (Q : node → Prop) P g k doc doc' :
  (∀ n, Q (shallow n) ↔ Q n) →
  modify P g k doc = Found doc' →
  Forall Q (elements doc) →
  (∀ e1 x l2,
     P x = true → length (matching P e1) = k →
     shallow <$> elements doc
       = (shallow <$> e1) ++ (shallow <$> flatten x) ++ l2 →
     Forall Q (flatten x) → Forall Q (elements (g x))) →
  Forall Q (elements doc').
Proof.
  intros HQ Hm Hall Hg.
  destruct (modify_obs shallow P g k doc doc' shallow_shallow Hm)
    as (e1 & x & l2 & Hk & HP & Hd & Hd').
  apply (Forall_shallow Q _ HQ) in Hall. rewrite Hd in Hall.
  apply Forall_app in Hall as [H1 Hall]. apply Forall_app in Hall as [Hx H2].
  apply (Forall_shallow Q _ HQ). rewrite Hd'.
  apply Forall_app. split; [done|]. apply Forall_app. split; [|done].
  apply (Forall_shallow Q _ HQ). apply (Hg e1 x l2 HP Hk Hd).
  by apply (Forall_shallow Q _ HQ).
Qed.

Lemma has_class_add_other c a n :
  c ≠ a → has_class c (add_class a n) = has_class c n.
Proof.
  intros Hne. unfold has_class, add_class. cbn [classList].
  destruct (bool_decide (a ∈ classList n)); [done|]. apply bool_decide_ext.
  rewrite elem_of_app, list_elem_of_singleton.
  split; [intros [?|?]; [done|congruence]|by left].
Qed.

Lemma tmc_rows_no_tab items :
  Forall plain_item items →
  Forall (λ e, has_class "tab-content" e = false) (elements (tmc_rows items)).
Proof.
  destruct items as [|i0 items]; [by repeat constructor|].
  unfold tmc_rows. generalize (i0 :: items). intros l.
  induction 1 as [|item l [Hitem _] _ IH]; [constructor|].
  rewrite fmap_cons, elements_cons_flatten. apply Forall_app. split; [|done].
  unfold tmc_checkbox. rewrite Hitem. by repeat constructor.
Qed.

Lemma tmc_list_rows_no_tab items :
  Forall plain_item items →
  Forall (λ e, has_class "tab-content" e = false)
    (elements (tmc_list_rows items)).
Proof.
  destruct items as [|i0 items]; [by repeat constructor|].
  unfold tmc_list_rows. generalize (i0 :: items). intros l.
  induction 1 as [|item l [_ Hitem] _ IH]; [constructor|].
  rewrite fmap_cons, elements_cons_flatten. apply Forall_app. split; [|done].
  unfold tmc_item. rewrite Hitem. by repeat constructor.
Qed.

(** Filling a container with rows that are no tabs keeps a property that
    only tabs can fail. *)
Lemma fill_keeps (Q : node → Prop) s rows doc :
  (∀ n, Q (shallow n) ↔ Q n) →
  (∀ n, has_class "tab-content" n = false → Q n) →
  Forall (λ e, has_class "tab-content" e = false) (elements rows) →
  Forall Q (elements doc) →
  Forall Q (elements
    (default doc (found (modify (has_id s) (λ n, [set_children rows n]) 0 doc)))).
Proof.
  intros HQ Htab Hrows Hall.
  destruct (modify _ _ 0 doc) as [doc'|] eqn:Hm; [|done]. cbn [found default].
  apply (modify_keeps_where Q _ _ _ _ _ HQ Hm Hall).
  intros e1 x l2 _ _ _ Hx. rewrite elements_single, flatten_eq.
  rewrite flatten_eq in Hx. apply Forall_cons in Hx as [Hx _].
  constructor; [by apply HQ; apply HQ in Hx|].
  cbn [children set_children]. eapply Forall_impl; [exact Hrows|]. done.
Qed.

(** [showTab] that ends normally, for a target that is no tab and with
    items that have no markup in their names: whatever was active before and
    whatever is loaded afterwards, the only tab that can be active in the
    page is the one that was asked for; the counters are untouched. *)
Theorem showTab_leaves_one_tab_active tabName k answer st log st' :
  showTab tabName (Some k) answer st = (log, Done st') →
  (∀ e, elements (document st) !! k = Some e →
        has_class "tab-content" e = false) →
  (∀ items, answer = Some items → Forall plain_item items) →
  postCounter st' = postCounter st ∧ staffCounter st' = staffCounter st ∧
  Forall (λ e, has_class "tab-content" e = true →
               has_class "active" e = true →
               elemId e = tabName +:+ "-tab") (elements (document st')).
Proof.
  intros Hshow Htarget Hplain. unfold showTab in Hshow.
  destruct (tabs_cleared (document st)) as (_ & Htc & Hall).
  set (doc2 := for_each _ _ <$> (for_each _ _ <$> document st)) in *.
  set (Q := λ e, has_class "tab-content" e = true →
                 has_class "active" e = true →
                 elemId e = tabName +:+ "-tab").
  assert (HQ : ∀ n, Q (shallow n) ↔ Q n) by done.
  assert (Htab : ∀ n, has_class "tab-content" n = false → Q n).
  { intros n Hn Hc. congruence. }
  assert (H2 : Forall Q (elements doc2)).
  { eapply Forall_impl; [exact Hall|]. intros e He Hc Ha.
    rewrite He in Ha by (by left). done. }
  destruct (modify (has_id _) _ 0 doc2) as [doc3|] eqn:H3; [|done].
  cbn [found] in Hshow.
  assert (Q3 : Forall Q (elements doc3)).
  { apply (modify_keeps_where Q _ _ _ _ _ HQ H3 H2).
    intros e1 x l2 Hx _ _ Hfx. rewrite elements_single, flatten_eq.
    rewrite flatten_eq in Hfx. apply Forall_cons in Hfx as [_ Hkids].
    constructor; [|done]. intros _ _.
    by apply bool_decide_eq_true_1 in Hx as [_ Hx]. }
  assert (T3 : has_class "tab-content" <$> elements doc3
               = has_class "tab-content" <$> elements (document st)).
  { rewrite <- Htc.
    destruct (modify_obs (has_class "tab-content") _ _ _ _ _
                (has_class_shallow "tab-content") H3)
      as (e1 & x & l2 & _ & _ & -> & ->).
    do 2 f_equal. rewrite elements_single, !flatten_eq, !fmap_cons.
    by rewrite has_class_add_other. }
  set (doc4 := default doc3 _) in Hshow.
  assert (Q4 : Forall Q (elements doc4)).
  { unfold doc4. destruct (modify (λ _, true) _ k doc3) as [d|] eqn:H4; [|done].
    cbn [found default].
    apply (modify_keeps_where Q _ _ _ _ _ HQ H4 Q3).
    intros e1 x l2 _ Hk Hd Hfx. rewrite elements_single, flatten_eq.
    rewrite flatten_eq in Hfx. apply Forall_cons in Hfx as [_ Hkids].
    constructor; [|done]. apply Htab. rewrite has_class_add_other by done.
    assert (Hlen : length e1 = k).
    { rewrite <- Hk. unfold matching. clear. induction e1; [done|].
      rewrite filter_cons_True by done. simpl. by f_equal. }
    apply (f_equal (fmap (has_class "tab-content"))) in Hd.
    rewrite !fmap_app, <- !list_fmap_compose in Hd.
    assert (Hext : has_class "tab-content" ∘ shallow <$> elements doc3
                   = has_class "tab-content" <$> elements doc3)
      by (apply list_fmap_ext; intros; apply has_class_shallow).
    rewrite Hext, T3, flatten_eq, fmap_cons in Hd.
    apply (f_equal (λ l, l !! k)) in Hd.
    rewrite lookup_app_r in Hd by (rewrite length_fmap; lia).
    rewrite length_fmap, Hlen, Nat.sub_diag in Hd. cbn in Hd.
    rewrite list_lookup_fmap in Hd.
    destruct (elements (document st) !! k) as [e|] eqn:He; [|done].
    injection Hd as Hd. rewrite has_class_shallow in Hd.
    rewrite <- Hd. by apply Htarget. }
  case_bool_decide.
  - unfold loadTMCList in Hshow. destruct answer as [items|].
    + pose proof (fill_keeps Q "tmc-list" (tmc_list_rows items) doc4 HQ Htab
                    (tmc_list_rows_no_tab items (Hplain items eq_refl)) Q4)
        as Q5.
      destruct (modify _ _ 0 doc4) as [doc5|]; cbn [found default] in *;
        injection Hshow as <- <-; by repeat split.
    + injection Hshow as <- <-. by repeat split.
  - unfold loadTMC in Hshow. destruct answer as [items|].
    + pose proof (fill_keeps Q "tmc-selection" (tmc_rows items) doc4 HQ Htab
                    (tmc_rows_no_tab items (Hplain items eq_refl)) Q4) as Q5.
      fold (tmc_rows items) in Hshow. cbn [document with_document] in Hshow.
      destruct (modify _ _ 0 doc4) as [doc5|]; cbn [found default] in *;
        injection Hshow as <- <-; by repeat split.
    + injection Hshow as <- <-. by repeat split.
Qed.

(** The page with the two tabs: the second button, which is the third
    element of the page, is pressed for the register. *)
Lemma showTab_leaves_one_tab_active_witness :
  ∃ log st',
    showTab "tmc" (Some 2%nat) (Some [radio])
      (with_document (two_tabs "" "" "1" "") initial) = (log, Done st') ∧
    Forall (λ e, has_class "tab-content" e = true →
                 has_class "active" e = true → elemId e = "tmc-tab")
      (elements (document st')) ∧
    (elemId <$> querySelectorAll "active" (document st')) = [""; "tmc-tab"].
Proof.
  destruct (showTab "tmc" (Some 2%nat) (Some [radio])
              (with_document (two_tabs "" "" "1" "") initial))
    as [log [st'|e st']] eqn:Hshow; [|vm_compute in Hshow; discriminate].
  exists log, st'. split; [reflexivity|]. split.
  - apply (showTab_leaves_one_tab_active "tmc" 2 (Some [radio])
             (with_document (two_tabs "" "" "1" "") initial) log st' Hshow).
    + intros e He. vm_compute in He. injection He as <-. reflexivity.
    + intros items [= <-]. repeat constructor.
  - vm_compute in Hshow. injection Hshow as _ <-. vm_compute. reflexivity.
Defined.

(** ** Missing fields of a new item *)

(** [addTMC] reads the four fields before its [try]: it throws, with nothing
    caught, nothing sent and nothing said to the visitor, exactly when one
    of the four fields is not in the page. *)
Theorem addTMC_throws_without_fields server listing doc :
  (∃ e, addTMC server listing doc = Raise e)
  ↔ ∃ s, s ∈ ["tmc-name"; "tmc-price"; "tmc-quantity"; "tmc-amortization"] ∧
         getElementById s doc = None.
Proof.
  unfold addTMC, read_new_tmc, value_of. split.
  - intros [e He].
    destruct (getElementById "tmc-name" doc) eqn:H1;
      [|exists "tmc-name"; split; [repeat constructor|done]].
    destruct (getElementById "tmc-price" doc) eqn:H2;
      [|exists "tmc-price"; split; [repeat constructor|done]].
    destruct (getElementById "tmc-quantity" doc) eqn:H3;
      [|exists "tmc-quantity"; split; [repeat constructor|done]].
    destruct (getElementById "tmc-amortization" doc) eqn:H4;
      [|exists "tmc-amortization"; split; [repeat constructor|done]].
    cbn in He. by destruct (incomplete _).
  - intros (s & Hs & Hnone).
    apply elem_of_cons in Hs as [->|Hs];
      [rewrite Hnone; cbn; by exists TypeError|].
    destruct (getElementById "tmc-name" doc); cbn; [|by exists TypeError].
    apply elem_of_cons in Hs as [->|Hs];
      [rewrite Hnone; cbn; by exists TypeError|].
    destruct (getElementById "tmc-price" doc); cbn; [|by exists TypeError].
    apply elem_of_cons in Hs as [->|Hs];
      [rewrite Hnone; cbn; by exists TypeError|].
    destruct (getElementById "tmc-quantity" doc); cbn; [|by exists TypeError].
    apply elem_of_cons in Hs as [->|Hs];
      [rewrite Hnone; cbn; by exists TypeError|].
    by apply elem_of_nil in Hs.
Qed.
